(** * Meeting-minutes assistant (app/meeting_minutes.py): model and properties

    A shallow embedding of [TextProcessor], [SummaryGenerator],
    [TodoManager], [TimelineVisualizer] and [MeetingMinutesAssistant].

    Python [str] values are sequences of Unicode code points; Python's
    [re] module is embedded as a backtracking matcher over a pattern
    syntax tree, with the priorities of the original (leftmost start,
    alternatives left to right, greedy before lazy). *)

From Stdlib Require Import String Ascii ZArith NArith QArith List Lia Bool Sorted.
From stdpp Require Import base list gmap.

Local Open Scope string_scope.
Local Open Scope list_scope.
Local Open Scope N_scope.

(** ** Python strings *)

(** A code point. *)
Definition cp := N.

(** A Python [str]: its code points, in order. [len] is [length]. *)
Definition str := list cp.

(** Decoding of the UTF-8 bytes of a source literal into code points. *)
Fixpoint utf8_decode (bs : list N) : str :=
  match bs with
  | [] => []
  | b :: rest =>
    if b <? 128 then b :: utf8_decode rest
    else if b <? 224 then
      match rest with
      | b1 :: r => ((b mod 32) * 64 + b1 mod 64) :: utf8_decode r
      | _ => []
      end
    else if b <? 240 then
      match rest with
      | b1 :: b2 :: r =>
        ((b mod 16) * 4096 + (b1 mod 64) * 64 + b2 mod 64) :: utf8_decode r
      | _ => []
      end
    else
      match rest with
      | b1 :: b2 :: b3 :: r =>
        ((b mod 8) * 262144 + (b1 mod 64) * 4096 + (b2 mod 64) * 64 + b3 mod 64)
          :: utf8_decode r
      | _ => []
      end
  end.

(** The [str] written by a literal of the source file. *)
Definition u (s : string) : str :=
  utf8_decode (map N_of_ascii (list_ascii_of_string s)).

Arguments u : simpl never.

Definition str_eqb (a b : str) : bool := bool_decide (a = b).

(** [str.isspace] on one code point: the characters Python strips by
    default and that [\s] matches in a [str] pattern. *)
Definition is_space (c : cp) : bool :=
  ((9 <=? c) && (c <=? 13)) || ((28 <=? c) && (c <=? 32))
  || (c =? 133) || (c =? 160) || (c =? 5760)
  || ((8192 <=? c) && (c <=? 8202))
  || (c =? 8232) || (c =? 8233) || (c =? 8239) || (c =? 8287) || (c =? 12288).

(** The tables below are those of Python on the characters that
    [preprocess_text] lets through (ASCII, the CJK ideographs, white
    space and punctuation); the rest of Unicode is left out. *)

(** Decimal digits ([\d]): the ASCII digits. *)
Definition is_digit (c : cp) : bool := (48 <=? c) && (c <=? 57).

(** Case mapping of one code point: the ASCII letters. *)
Definition lower_cp (c : cp) : cp :=
  if (65 <=? c) && (c <=? 90) then c + 32 else c.

Definition upper_cp (c : cp) : cp :=
  if (97 <=? c) && (c <=? 122) then c - 32 else c.

(** Case folding of [re.IGNORECASE] for a literal: besides the ASCII
    letters, the dotted and dotless i (U+0130, U+0131), the long s
    (U+017F) and the Kelvin sign (U+212A) match [i], [s] and [k]. *)
Definition fold_cp (c : cp) : cp :=
  if (c =? 304) || (c =? 305) then 105
  else if c =? 383 then 115
  else if c =? 8490 then 107
  else lower_cp c.

(** Word characters for [\b]: ASCII alphanumerics and underscore, and
    the CJK ideographs U+4E00..U+9FFF. *)
Definition is_word (c : cp) : bool :=
  is_digit c || ((65 <=? c) && (c <=? 90)) || ((97 <=? c) && (c <=? 122))
  || (c =? 95) || ((19968 <=? c) && (c <=? 40959)).

(** [s.lower()] *)
Definition lower (s : str) : str := map lower_cp s.

(** [s.lstrip()], [s.rstrip()] and [s.strip()] *)
Fixpoint lstrip (s : str) : str :=
  match s with
  | c :: s' => if is_space c then lstrip s' else s
  | [] => []
  end.

Definition rstrip (s : str) : str := rev (lstrip (rev s)).

Definition strip (s : str) : str := rstrip (lstrip s).

(** [sub in s] on strings *)
Fixpoint is_prefix (p s : str) : bool :=
  match p, s with
  | [], _ => true
  | a :: p', b :: s' => (a =? b) && is_prefix p' s'
  | _ :: _, [] => false
  end.

Fixpoint contains (sub s : str) : bool :=
  is_prefix sub s ||
  match s with
  | [] => false
  | _ :: s' => contains sub s'
  end.

(** The characters in front of the first [c] (all of them if there is
    none). *)
Fixpoint before (c : cp) (s : str) : str :=
  match s with
  | [] => []
  | x :: rest => if x =? c then [] else x :: before c rest
  end.

(** [sep.join(parts)] *)
Fixpoint join (sep : str) (parts : list str) : str :=
  match parts with
  | [] => []
  | [p] => p
  | p :: rest => p ++ sep ++ join sep rest
  end.

(** Decimal text of a natural number ([str(n)]). *)
Fixpoint digits_fuel (fuel : nat) (n : N) (acc : str) : str :=
  match fuel with
  | O => acc
  | S f =>
    let acc' := (48 + n mod 10) :: acc in
    if n <? 10 then acc' else digits_fuel f (n / 10) acc'
  end.

Definition str_of_N (n : N) : str := digits_fuel (S (N.to_nat (N.log2 n))) n [].

Definition str_of_nat (n : nat) : str := str_of_N (N.of_nat n).

(** ** Regular expressions (module [re]) *)

Module Re.

(** Members of a bracketed class. *)
Inductive citem :=
| CChar (c : cp)
| CRange (lo hi : cp)
| CSpace
| CDigit.

(** One-character matchers: [.], a literal, [[...]] and [[^...]]. *)
Inductive cset :=
| CAny
| CLit (c : cp)
| CIn (items : list citem)
| CNotIn (items : list citem).

(** Pattern syntax: the constructs that the patterns of the module
    use.  Repetition of a one-character matcher carries its bounds and
    its greediness; [(...)?] is the only repetition of a compound
    pattern in the source.  [RLookahead] is [(?=...)], [REnd] is [$]
    and [RWordB] is [\b]. *)
Inductive regex :=
| REmpty
| RChar (c : cset)
| RSeq (a b : regex)
| RAlt (a b : regex)
| RGroup (n : nat) (a : regex)
| RRepeat (greedy : bool) (lo : nat) (hi : option nat) (c : cset)
| ROpt (a : regex)
| RLookahead (a : regex)
| REnd
| RWordB.

Record flags := { IGNORECASE : bool; MULTILINE : bool }.

Definition no_flags := {| IGNORECASE := false; MULTILINE := false |}.

Definition citem_match (i : citem) (c : cp) : bool :=
  match i with
  | CChar x => c =? x
  | CRange lo hi => (lo <=? c) && (c <=? hi)
  | CSpace => is_space c
  | CDigit => is_digit c
  end.

Definition in_items (items : list citem) (c : cp) : bool :=
  existsb (fun i => citem_match i c) items.

Definition cset_match (fl : flags) (cs : cset) (c : cp) : bool :=
  match cs with
  | CAny => negb (c =? 10)
  | CLit x => if IGNORECASE fl then fold_cp c =? fold_cp x else c =? x
  | CIn items =>
    if IGNORECASE fl
    then in_items items c || in_items items (lower_cp c) || in_items items (upper_cp c)
    else in_items items c
  | CNotIn items =>
    negb (if IGNORECASE fl
          then in_items items c || in_items items (lower_cp c) || in_items items (upper_cp c)
          else in_items items c)
  end.

(** Captured groups: group [n] is kept at index [n - 1]; [None] is a
    group that did not take part in the match. *)
Definition groups := list (option str).

Definition pred_bound (hi : option nat) : option nat := Nat.pred <$> hi.

(** Greedy repetition of a one-character matcher: as many as allowed
    first, then one fewer, and so on down to [lo]. *)
Fixpoint rep_max {A} (p : cp → bool) (lo : nat) (hi : option nat)
    (prev : option cp) (s : str) (k : option cp → str → option A) : option A :=
  let stop := match lo with O => k prev s | S _ => None end in
  match hi with
  | Some O => stop
  | _ =>
    match s with
    | c :: s' =>
      if p c then
        match rep_max p (Nat.pred lo) (pred_bound hi) (Some c) s' k with
        | Some r => Some r
        | None => stop
        end
      else stop
    | [] => stop
    end
  end.

(** Lazy repetition: [lo] characters first, then one more at a time. *)
Fixpoint rep_min {A} (p : cp → bool) (lo : nat) (hi : option nat)
    (prev : option cp) (s : str) (k : option cp → str → option A) : option A :=
  let more :=
    match hi with
    | Some O => None
    | _ =>
      match s with
      | c :: s' =>
        if p c then rep_min p (Nat.pred lo) (pred_bound hi) (Some c) s' k else None
      | [] => None
      end
    end in
  match lo with
  | O => match k prev s with Some r => Some r | None => more end
  | S _ => more
  end.

Definition at_end (fl : flags) (s : str) : bool :=
  match s with
  | [] => true
  | c :: s' => (c =? 10) && (MULTILINE fl || bool_decide (s' = []))
  end.

Definition at_word_boundary (prev : option cp) (s : str) : bool :=
  let before := match prev with Some c => is_word c | None => false end in
  let after := match s with c :: _ => is_word c | [] => false end in
  xorb before after.

(** The matcher, in continuation-passing style: [k] is the rest of the
    pattern; a [None] from it makes the matcher try its next choice. *)
Fixpoint rmatch {A} (fl : flags) (r : regex) (prev : option cp) (s : str)
    (g : groups) (k : option cp → str → groups → option A) : option A :=
  match r with
  | REmpty => k prev s g
  | RChar cs =>
    match s with
    | c :: s' => if cset_match fl cs c then k (Some c) s' g else None
    | [] => None
    end
  | RSeq a b => rmatch fl a prev s g (fun p' s' g' => rmatch fl b p' s' g' k)
  | RAlt a b =>
    match rmatch fl a prev s g k with
    | Some x => Some x
    | None => rmatch fl b prev s g k
    end
  | RGroup n a =>
    rmatch fl a prev s g
      (fun p' s' g' =>
         k p' s' (<[Nat.pred n := Some (take (length s - length s') s)]> g'))
  | RRepeat true lo hi cs =>
    rep_max (cset_match fl cs) lo hi prev s (fun p' s' => k p' s' g)
  | RRepeat false lo hi cs =>
    rep_min (cset_match fl cs) lo hi prev s (fun p' s' => k p' s' g)
  | ROpt a =>
    match rmatch fl a prev s g k with
    | Some x => Some x
    | None => k prev s g
    end
  | RLookahead a =>
    match rmatch fl a prev s g (fun _ _ g' => Some g') with
    | Some g' => k prev s g'
    | None => None
    end
  | REnd => if at_end fl s then k prev s g else None
  | RWordB => if at_word_boundary prev s then k prev s g else None
  end.

(** Number of capturing groups of a pattern. *)
Fixpoint ngroups (r : regex) : nat :=
  match r with
  | RSeq a b | RAlt a b => Nat.max (ngroups a) (ngroups b)
  | RGroup n a => Nat.max n (ngroups a)
  | ROpt a | RLookahead a => ngroups a
  | _ => O
  end.

(** A match object: the matched text ([group(0)]) and the groups. *)
Record match_obj := { m_text : str; m_groups : groups }.

(** One attempt at a fixed start.  [must_advance] refuses the empty
    match, as the scanner does right after an empty match. *)
Definition match_here (fl : flags) (r : regex) (must_advance : bool)
    (prev : option cp) (s : str) : option (nat * match_obj) :=
  rmatch fl r prev s (replicate (ngroups r) None)
    (fun _ s' g =>
       let n := (length s - length s')%nat in
       if must_advance && (n =? 0)%nat then None
       else Some (n, {| m_text := take n s; m_groups := g |})).

(** The scanner behind [finditer]: successive non-overlapping matches,
    each with the unmatched text in front of it, and the text left
    after the last match.  [skip] counts the characters of the current
    match still to step over; [gap] is the unmatched text so far,
    reversed. *)
Fixpoint scan (fl : flags) (r : regex) (s : str) (prev : option cp)
    (skip : nat) (gap : str) : list (str * match_obj) * str :=
  match skip with
  | S n =>
    match s with
    | [] => ([], rev gap)
    | c :: s' => scan fl r s' (Some c) n gap
    end
  | O =>
    match match_here fl r false prev s with
    | None =>
      match s with
      | [] => ([], rev gap)
      | c :: s' => scan fl r s' (Some c) O (c :: gap)
      end
    | Some (S n, m) =>
      match s with
      | [] => ([(rev gap, m)], [])
      | c :: s' =>
        let '(ms, tl) := scan fl r s' (Some c) n [] in ((rev gap, m) :: ms, tl)
      end
    | Some (O, m) =>
      match s with
      | [] => ([(rev gap, m)], [])
      | c :: s' =>
        match match_here fl r true prev s with
        | Some (n2, m2) =>
          let '(ms, tl) := scan fl r s' (Some c) (Nat.pred n2) [] in
          ((rev gap, m) :: ([], m2) :: ms, tl)
        | None =>
          let '(ms, tl) := scan fl r s' (Some c) O [c] in
          ((rev gap, m) :: ms, tl)
        end
      end
    end
  end.

Definition finditer (fl : flags) (r : regex) (text : str) : list match_obj :=
  (fst (scan fl r text None O [])).*2.

(** [re.search]: the match at the leftmost start that has one. *)
Fixpoint search_from (fl : flags) (r : regex) (prev : option cp) (s : str)
    : option match_obj :=
  match match_here fl r false prev s with
  | Some (_, m) => Some m
  | None =>
    match s with
    | [] => None
    | c :: s' => search_from fl r (Some c) s'
    end
  end.

Definition search (fl : flags) (r : regex) (text : str) : option match_obj :=
  search_from fl r None text.

(** [match.group(n)] for [n >= 1]; the inner [None] is Python's [None]
    for a group that did not participate. *)
Definition group (m : match_obj) (n : nat) : option str :=
  default None (m_groups m !! Nat.pred n).

(** An element of the list returned by [re.findall]: a string for a
    pattern with at most one group, a tuple of strings otherwise. *)
Inductive found :=
| FStr (s : str)
| FTuple (l : list str).

Definition found_of (r : regex) (m : match_obj) : found :=
  match ngroups r with
  | O => FStr (m_text m)
  | S O => FStr (default [] (group m 1))
  | _ => FTuple (default [] <$> m_groups m)
  end.

(** [re.findall(pattern, text, flags)] *)
Definition findall (fl : flags) (r : regex) (text : str) : list found :=
  found_of r <$> finditer fl r text.

(** [re.split(pattern, text)] for a pattern without groups. *)
Definition split (fl : flags) (r : regex) (text : str) : list str :=
  let '(ms, tl) := scan fl r text None O [] in ms.*1 ++ [tl].

(** [re.sub(pattern, repl, text)] for a replacement without
    back-references. *)
Definition sub (fl : flags) (r : regex) (repl : str) (text : str) : str :=
  let '(ms, tl) := scan fl r text None O [] in
  concat ((fun gm => fst gm ++ repl) <$> ms) ++ tl.

(** Pattern-building helpers. *)
Fixpoint lit (s : str) : regex :=
  match s with
  | [] => REmpty
  | [c] => RChar (CLit c)
  | c :: s' => RSeq (RChar (CLit c)) (lit s')
  end.

Fixpoint seqs (rs : list regex) : regex :=
  match rs with
  | [] => REmpty
  | [r] => r
  | r :: rs' => RSeq r (seqs rs')
  end.

Fixpoint alts (rs : list regex) : regex :=
  match rs with
  | [] => REmpty
  | [r] => r
  | r :: rs' => RAlt r (alts rs')
  end.

(** [(?:a|b|...)] over literal words *)
Definition words (ws : list string) : regex := alts (lit ∘ u <$> ws).

(** The characters of a literal, as class members. *)
Definition chars (s : string) : list citem := CChar <$> u s.

Definition star (c : cset) : regex := RRepeat true 0 None c.
Definition plus (c : cset) : regex := RRepeat true 1 None c.
Definition lazy_star (c : cset) : regex := RRepeat false 0 None c.
Definition lazy_plus (c : cset) : regex := RRepeat false 1 None c.
Definition between (lo hi : nat) (c : cset) : regex := RRepeat true lo (Some hi) c.

(** [\s], [\d], [\s*] *)
Definition space := CIn [CSpace].
Definition digit := CIn [CDigit].
Definition spaces := star space.

End Re.

(** ** Numbers and values *)

(** A Python number: an [int], or a [float] carried as the rational it
    stands for (the rounding of binary floating point is not part of
    the model). *)
Inductive number :=
| Int (z : Z)
| Float (q : Q).

Definition number_value (x : number) : Q :=
  match x with
  | Int z => inject_Z z
  | Float q => q
  end.

(** [max(a, b)] and [min(a, b)]: the first argument unless the second
    is strictly larger (smaller). *)
Definition py_max (a b : number) : number :=
  if Qle_bool (number_value b) (number_value a) then a else b.

Definition py_min (a b : number) : number :=
  if Qle_bool (number_value a) (number_value b) then a else b.

(** [a / b] on two counts with [b > 0]. *)
Definition true_div (a b : nat) : Q := (Z.of_nat a # Pos.of_nat b)%Q.

(** Nearest integer, ties to even. *)
Definition round_half_even (q : Q) : Z :=
  let n := Qnum q in
  let d := Z.pos (Qden q) in
  let f := (n / d)%Z in
  let r := (2 * (n mod d))%Z in
  if (r <? d)%Z then f
  else if (d <? r)%Z then (f + 1)%Z
  else if Z.even f then f else (f + 1)%Z.

(** [round(x, 2)]: an [int] is returned as it is. *)
Definition round2 (x : number) : number :=
  match x with
  | Int z => Int z
  | Float q => Float (round_half_even (q * 100) # 100)
  end.

#[local] Unset Elimination Schemes.

(** Python values, as far as the module builds and serializes them.
    A [dict] keeps its items in insertion order; [PFunction] is a
    function object, such as the value of a [lambda]. *)
Inductive pyval :=
| PNone
| PBool (b : bool)
| PNum (x : number)
| PStr (s : str)
| PList (l : list pyval)
| PDict (items : list (str * pyval))
| PFunction.

#[local] Set Elimination Schemes.

(** Exceptions. *)
Inductive exn :=
| TypeError
| ValueError
| KeyError
| IndexError
| IOError
| RequestException
| HTTPError
| JSONDecodeError.

(** A computation that returns or raises. *)
Definition outcome (A : Type) := sum exn A.

#[global] Instance outcome_ret : MRet outcome := fun A x => inr x.
#[global] Instance outcome_bind : MBind outcome := fun A B f m =>
  match m with
  | inl e => inl e
  | inr x => f x
  end.

#[global] Instance outcome_fmap : FMap outcome := fun A B f m =>
  match m with
  | inl e => inl e
  | inr x => inr (f x)
  end.

Definition raise {A} (e : exn) : outcome A := inl e.

(** ** TextProcessor *)

Import Re.

(** Segmentation modes of [segment_text]; the callers pass the literals
    ['paragraph'] and ['sentence'] only. *)
Inductive segment_mode := mode_paragraph | mode_sentence.

Module Quality.
(** The dictionary returned by [evaluate_text_quality]. *)
Record report := {
  char_count : nat;
  word_count : nat;
  sentence_count : nat;
  paragraph_count : nat;
  readability_score : number;
  completeness_score : Z;
  language_detected : str;
  summary : str
}.
End Quality.

(** The characters kept by [preprocess_text]: CJK ideographs
    U+4E00..U+9FA5, ASCII letters and digits, white space and
    punctuation (the two bare code points are the double and the
    single quote). *)
Definition zh_allowed : list citem :=
  [CRange 19968 40869; CRange 97 122; CRange 65 90; CRange 48 57; CSpace]
  ++ chars "，。！？；：" ++ [CChar 34; CChar 39] ++ chars "、（）《》【】".

Definition en_allowed : list citem :=
  [CRange 97 122; CRange 65 90; CRange 48 57; CSpace]
  ++ chars ".,!?;:" ++ [CChar 34; CChar 39] ++ chars "()[]{}".

Definition is_zh (language : str) : bool := str_eqb language (u "zh").
Definition is_en (language : str) : bool := str_eqb language (u "en").

(** [d.get(language, d['zh'])] for a table with the keys ['zh'] and ['en'] *)
Definition by_language {A} (zh en : A) (language : str) : A :=
  if is_en language then en else zh.

(** [[x.strip() for x in parts if x.strip()]] *)
Definition stripped_nonempty (parts : list str) : list str :=
  strip <$> filter (fun p => strip p ≠ []) parts.

(** The paragraphs of a text: its pieces between blank lines
    ([\n\s*\n]), stripped, without the empty ones. *)
Definition paragraphs (text : str) : list str :=
  stripped_nonempty
    (split no_flags (seqs [RChar (CLit 10); spaces; RChar (CLit 10)]) text).

Section TextProcessor.

(** The tokenizers the module imports: NLTK's [sent_tokenize] and
    [word_tokenize], and [jieba.cut] when jieba can be imported. *)
Variable sent_tokenize : str → list str.
Variable word_tokenize : str → list str.
Variable jieba_cut : option (str → list str).

(** The processor is its [self.language]. *)
Definition preprocess_text (language text : str) : str :=
  let text := strip (sub no_flags (plus space) (u " ") text) in
  if is_zh language
  then sub no_flags (RChar (CNotIn zh_allowed)) [] text
  else sub no_flags (RChar (CNotIn en_allowed)) [] text.

Definition segment_text (language text : str) (mode : segment_mode) : list str :=
  match mode with
  | mode_paragraph => paragraphs text
  | mode_sentence =>
    if is_zh language
    then stripped_nonempty (split no_flags (plus (CIn (chars "。！？；"))) text)
    else sent_tokenize text
  end.

Definition tokenize_words (language text : str) : list str :=
  if is_zh language then
    match jieba_cut with
    | Some cut => cut text
    | None => (fun c => [c]) <$> text
    end
  else word_tokenize text.

Definition count_matches (cs : cset) (text : str) : nat :=
  length (findall no_flags (RChar cs) text).

Definition evaluate_text_quality (language text : str) : Quality.report :=
  let char_count := length text in
  let word_count := length (tokenize_words language text) in
  let sentence_count := length (segment_text language text mode_sentence) in
  let paragraph_count := length (segment_text language text mode_paragraph) in
  let readability_score : number :=
    if (0 <? sentence_count)%nat && (0 <? word_count)%nat then
      if is_en language then
        let avg_sentence_length := true_div word_count sentence_count in
        py_max (Int 0) (py_min (Int 100) (Float (100 - avg_sentence_length)))
      else
        let avg_sentence_length := true_div char_count sentence_count in
        py_max (Int 0) (py_min (Int 100) (Float (100 - avg_sentence_length / 10)))
    else Int 0 in
  let completeness_score : Z :=
    if (Z.of_nat char_count <? 50)%Z then 30%Z
    else if (10000 <? Z.of_nat char_count)%Z then 90%Z
    else 100%Z in
  let language_detected :=
    if str_eqb language (u "auto") then
      let chinese_chars := count_matches (CIn [CRange 19968 40869]) text in
      let english_chars := count_matches (CIn [CRange 97 122; CRange 65 90]) text in
      if (english_chars <? chinese_chars)%nat then u "zh" else u "en"
    else language in
  {| Quality.char_count := char_count;
     Quality.word_count := word_count;
     Quality.sentence_count := sentence_count;
     Quality.paragraph_count := paragraph_count;
     Quality.readability_score := round2 readability_score;
     Quality.completeness_score := completeness_score;
     Quality.language_detected := language_detected;
     Quality.summary :=
       if (70 <? completeness_score)%Z && negb (Qle_bool (number_value readability_score) 50)
       then u "良好" else u "需要改进" |}.

End TextProcessor.

(** [remove_stopwords]: the tokens that are not stop words, compared in
    lower case. *)
Definition stop_words_zh : list str :=
  u <$> [ "的"; "了"; "在"; "是"; "我"; "有"; "和"; "就";
          "不"; "人"; "都"; "一"; "一个"; "上"; "也"; "很";
          "到"; "说"; "要"; "去"; "你"; "会"; "着"; "没有";
          "看"; "好"; "自己"; "这" ].

Section StopWords.

(** NLTK's [stopwords.words('english')]. *)
Variable stopwords_english : list str.

Definition remove_stopwords (language : str) (tokens : list str) : list str :=
  let stop_words : gset str :=
    list_to_set (if is_zh language then stop_words_zh else stopwords_english) in
  filter (fun token => lower token ∉ stop_words) tokens.

End StopWords.

(** ** SummaryGenerator *)

(** The JSON body of the chat-completion request and the arguments of
    [requests.post] that go with it. *)
Record request := {
  api_url : str;
  authorization : str;
  model : str;
  system_prompt : str;
  user_prompt : str;
  temperature : Q;
  max_tokens : Z;
  timeout : Z
}.

(** What [requests.post] does: it raises (time-out, connection
    failure), or it returns a response with a status code and a body;
    the body is [None] when [response.json()] cannot decode it. *)
Inductive post_outcome :=
| PostRaises
| PostResponse (status_code : Z) (json_body : option pyval).

(** [response.raise_for_status()] *)
Definition raise_for_status (status_code : Z) : outcome unit :=
  if (400 <=? status_code)%Z && (status_code <? 600)%Z
  then raise HTTPError else mret tt.

Fixpoint assoc (k : str) (items : list (str * pyval)) : option pyval :=
  match items with
  | [] => None
  | (k', v) :: rest => if str_eqb k' k then Some v else assoc k rest
  end.

(** [v[key]] for a string key *)
Definition getitem_str (v : pyval) (key : str) : outcome pyval :=
  match v with
  | PDict items =>
    match assoc key items with
    | Some x => mret x
    | None => raise KeyError
    end
  | _ => raise TypeError
  end.

(** [v[0]] *)
Definition getitem_0 (v : pyval) : outcome pyval :=
  match v with
  | PList (x :: _) => mret x
  | PList [] => raise IndexError
  | PStr (c :: _) => mret (PStr [c])
  | PStr [] => raise IndexError
  | PDict _ => raise KeyError
  | _ => raise TypeError
  end.

(** [result['choices'][0]['message']['content']] *)
Definition content_of (body : pyval) : outcome pyval :=
  choices ← getitem_str body (u "choices");
  choice ← getitem_0 choices;
  message ← getitem_str choice (u "message");
  getitem_str message (u "content").

Definition system_prompt_zh : str := u
"你是一个专业的会议纪要助手。请根据以下会议文本，生成一份结构清晰的会议纪要摘要。

要求：
1. 摘要需要包含以下部分：
   - 会议主题
   - 主要讨论问题
   - 关键讨论点
   - 达成的决议
   - 待办事项（行动项）

2. 每个部分用简洁明了的语言概括
3. 保持专业性和准确性
4. 提取关键数字、时间点和责任人

请直接输出摘要内容，不要添加额外说明。".

Definition system_prompt_en : str := u
"You are a professional meeting minutes assistant. Please generate a structured meeting summary based on the following meeting text.

Requirements:
1. The summary should include the following sections:
   - Meeting Topic
   - Main Discussion Issues
   - Key Discussion Points
   - Decisions Made
   - Action Items (Todo Items)

2. Use concise and clear language for each section
3. Maintain professionalism and accuracy
4. Extract key numbers, time points, and responsible persons

Please output the summary content directly, without additional explanations.".

Definition nl : str := [10].

(** The marker appended to a truncated fallback summary. *)
Definition omission_marker : str := nl ++ nl ++ u "...（更多内容省略）".

Module Summary.
(** [structure] of [_parse_summary_to_structure]. *)
Record structure := {
  meeting_topic : str;
  discussion_issues : list str;
  discussion_points : list str;
  decisions : list str;
  action_items : list str
}.

(** [key_info] of [_extract_key_information].  [persons] is built
    with [list(set(names))], whose order is that of the set. *)
Record key_info := {
  persons : gset str;
  times : list str;
  locations : list str;
  numbers : list number;
  dates : list str
}.

(** The dictionary returned by [generate_summary]. *)
Record data := {
  summary_text : str;
  structured_data : structure;
  key_information : key_info;
  language : str;
  timestamp : str
}.
End Summary.

(** [<label>[:：]\s*(.+?)(?=\n|$)] *)
Definition section_line (label : regex) : regex :=
  seqs [label; RChar (CIn (chars ":：")); spaces; RGroup 1 (lazy_plus CAny);
        RLookahead (RAlt (RChar (CLit 10)) REnd)].

Definition multiline := {| IGNORECASE := false; MULTILINE := true |}.
Definition ignorecase := {| IGNORECASE := true; MULTILINE := false |}.
Definition ignorecase_multiline := {| IGNORECASE := true; MULTILINE := true |}.

(** The text of a [findall] element of a one-group pattern. *)
Definition found_str (f : found) : str :=
  match f with
  | FStr s => s
  | FTuple l => join (u " ") l
  end.

Definition topic_of (label : regex) (summary_text : str) : str :=
  match search no_flags (section_line label) summary_text with
  | Some m => strip (default [] (group m 1))
  | None => []
  end.

Definition lines_of (label : regex) (summary_text : str) : list str :=
  strip ∘ found_str <$> findall multiline (section_line label) summary_text.

Definition _parse_summary_to_structure (summary_text language : str)
    : Summary.structure :=
  if is_zh language then
    {| Summary.meeting_topic := topic_of (words ["会议主题"]) summary_text;
       Summary.discussion_issues :=
         lines_of (words ["主要讨论问题"; "讨论议题"]) summary_text;
       Summary.discussion_points :=
         lines_of (words ["关键讨论点"; "讨论要点"]) summary_text;
       Summary.decisions := lines_of (words ["达成的决议"; "决议"]) summary_text;
       Summary.action_items := lines_of (words ["待办事项"; "行动项"]) summary_text |}
  else
    {| Summary.meeting_topic := topic_of (words ["Meeting Topic"]) summary_text;
       Summary.discussion_issues :=
         lines_of (words ["Main Discussion Issues"]) summary_text;
       Summary.discussion_points :=
         lines_of (words ["Key Discussion Points"]) summary_text;
       Summary.decisions := lines_of (words ["Decisions Made"]) summary_text;
       Summary.action_items := lines_of (words ["Action Items"]) summary_text |}.

(** [\d{1,2}[:：]\d{1,2}] *)
Definition hh_mm : regex :=
  seqs [between 1 2 digit; RChar (CIn (chars ":：")); between 1 2 digit].

Definition exactly (n : nat) (c : cset) : regex := between n n c.

(** [time_patterns] of [_extract_key_information]:
    [\d{1,2}[:：]\d{1,2}], [\d{1,2}\s*(?:AM|PM|am|pm)],
    [上午\s*\d{1,2}[:：]\d{1,2}] and [下午\s*\d{1,2}[:：]\d{1,2}] *)
Definition key_time_patterns : list regex :=
  [ hh_mm;
    seqs [between 1 2 digit; spaces; words ["AM"; "PM"; "am"; "pm"]];
    seqs [words ["上午"]; spaces; hh_mm];
    seqs [words ["下午"]; spaces; hh_mm] ].

Definition dash_slash := CIn (chars "-/").

(** [\d{4}年\d{1,2}月\d{1,2}日] and [\d{1,2}月\d{1,2}日] *)
Definition zh_full_date : regex :=
  seqs [exactly 4 digit; words ["年"]; between 1 2 digit; words ["月"];
        between 1 2 digit; words ["日"]].

Definition zh_month_day : regex :=
  seqs [between 1 2 digit; words ["月"]; between 1 2 digit; words ["日"]].

(** [\d{4}[-/]\d{1,2}[-/]\d{1,2}] and [\d{1,2}[-/]\d{1,2}[-/]\d{4}] *)
Definition ymd_date : regex :=
  seqs [exactly 4 digit; RChar dash_slash; between 1 2 digit; RChar dash_slash;
        between 1 2 digit].

Definition mdy_date : regex :=
  seqs [between 1 2 digit; RChar dash_slash; between 1 2 digit; RChar dash_slash;
        exactly 4 digit].

(** [date_patterns] of [_extract_key_information] *)
Definition key_date_patterns : list regex :=
  [ymd_date; mdy_date; zh_full_date; zh_month_day].

(** [\b\d+(?:\.\d+)?\b] *)
Definition number_pattern : regex :=
  seqs [RWordB; plus digit; ROpt (RSeq (RChar (CLit 46)) (plus digit)); RWordB].

Definition surnames : cset := CIn (chars
"张王李赵刘陈杨黄吴周徐孙马朱胡林郭何高罗郑梁谢宋唐许韩冯邓曹彭曾萧田董袁潘于蒋蔡余杜叶程苏魏吕丁任沈姚卢姜崔钟谭陆汪范金石廖熊金陆郝孔白崔康毛邱秦江史顾侯邵孟龙万段雷钱汤尹黎易常武乔贺赖龚文").

(** [[...]+\s*[...]+] over the surnames *)
Definition name_pattern : regex := seqs [plus surnames; spaces; plus surnames].

(** [int(num)] on a run of decimal digits *)
Definition int_of_digits (ds : str) : Z :=
  fold_left (fun acc d => (acc * 10 + Z.of_N (d - 48))%Z) ds 0%Z.

(** The digits in front of the decimal point. *)
Definition before_point (num : str) : str := before 46 num.

(** [float(num) if '.' in num else int(num)] on a match of
    [number_pattern] *)
Definition parse_number (num : str) : number :=
  if bool_decide (46 ∈ num) then
    let whole := before_point num in
    let frac := drop (S (length whole)) num in
    Float (inject_Z (int_of_digits whole)
           + (int_of_digits frac # Pos.pow 10 (Pos.of_nat (length frac))))
  else Int (int_of_digits num).

Definition _extract_key_information (text language : str) : Summary.key_info :=
  let all_matches (patterns : list regex) :=
    patterns ≫= (fun pattern => found_str <$> findall no_flags pattern text) in
  {| Summary.persons :=
       if is_zh language
       then list_to_set (found_str <$> findall no_flags name_pattern text)
       else ∅;
     Summary.times := all_matches key_time_patterns;
     Summary.locations := [];
     Summary.numbers := parse_number ∘ found_str <$> findall no_flags number_pattern text;
     Summary.dates := all_matches key_date_patterns |}.

Section SummaryGenerator.

(** The generation service, as [requests.post] sees it; the API key of
    the generator ([None] prints as the text [None] in the header). *)
Variable requests_post : request → post_outcome.
Variable api_key : option str.
Variable sent_tokenize : str → list str.

Definition _generate_fallback_summary (text language : str) : str :=
  let paragraphs := segment_text sent_tokenize language text mode_paragraph in
  if (length paragraphs <=? 3)%nat
  then join (nl ++ nl) paragraphs
  else join (nl ++ nl) (take 3 paragraphs) ++ omission_marker.

Definition build_request (text language : str) : request :=
  {| api_url := u "https://api.deepseek.com/chat/completions";
     authorization := u "Bearer " ++ default (u "None") api_key;
     model := u "deepseek-chat";
     system_prompt := if is_zh language then system_prompt_zh else system_prompt_en;
     user_prompt :=
       if is_zh language
       then u "以下是会议文本：" ++ nl ++ nl ++ text ++ nl ++ nl ++ u "请生成会议纪要摘要："
       else u "Here is the meeting text:" ++ nl ++ nl ++ text ++ nl ++ nl
            ++ u "Please generate the meeting summary:";
     temperature := 0.3;
     max_tokens := 2000;
     timeout := 60 |}.

(** The body of the [try] block of [_call_deepseek_api]. *)
Definition call_service (text language : str) : outcome pyval :=
  match requests_post (build_request text language) with
  | PostRaises => raise RequestException
  | PostResponse status_code json_body =>
    _ ← raise_for_status status_code;
    body ← from_option mret (raise JSONDecodeError) json_body;
    content_of body
  end.

(** [except Exception]: any failure of the call yields the fallback. *)
Definition _call_deepseek_api (text language : str) : pyval :=
  match call_service text language with
  | inr content => content
  | inl _ => PStr (_generate_fallback_summary text language)
  end.

(** [now] is [datetime.now().isoformat()] at the time of the call.  A
    completion that is not a string makes [re.search] raise. *)
Definition generate_summary (now text language : str) : outcome Summary.data :=
  match _call_deepseek_api text language with
  | PStr summary_text =>
    mret {| Summary.summary_text := summary_text;
            Summary.structured_data := _parse_summary_to_structure summary_text language;
            Summary.key_information := _extract_key_information text language;
            Summary.language := language;
            Summary.timestamp := now |}
  | _ => raise TypeError
  end.

End SummaryGenerator.

(** ** TodoManager *)

Module Todo.
(** One extracted to-do item. *)
Record item := {
  description : str;
  assignee : str;
  priority : Z;
  due_date : option str;
  status : str;
  extracted_from : str
}.
End Todo.

(** [(?:，|。|；|）|）)?] and [(?:,|.|;|\)|})?]; the dot of the second is
    the unescaped any-character of the source. *)
Definition zh_closing : regex := ROpt (words ["，"; "。"; "；"; "）"; "）"]).

Definition en_closing : regex :=
  ROpt (alts [lit (u ","); RChar CAny; lit (u ";"); lit (u ")"); lit (u "}")]).

Definition not_zh_stop : cset := CNotIn (chars "，。；").
Definition not_en_stop : cset := CNotIn (chars ",.").
Definition colon : regex := RChar (CIn (chars ":：")).

(** [<label>[:：]\s*(.+?)(?=\n|$)], as in the summary parser *)
Definition labelled_line (labels : list string) : regex := section_line (words labels).

(** The obligation patterns of the language ['zh']:
    - [(?:需要|要|必须|得|应该)(.+?)(?:完成|处理|解决|跟进|负责)(?:，|。|；|）|）)?]
    - [(?:由|由.*?)([^，。；]+?)(?:负责|跟进|处理)(.+?)(?:，|。|；|）|）)?]
    - [(?:截止|截至|期限)[:：]\s*([^，。；]+?)(?:，|。|；|）|）)?]
    - [(?:行动项|待办事项)[:：]\s*(.+?)(?=\n|$)]
    - [(?:TODO|todo)[:：]\s*(.+?)(?=\n|$)] *)
Definition todo_patterns_zh : list regex :=
  [ seqs [words ["需要"; "要"; "必须"; "得"; "应该"]; RGroup 1 (lazy_plus CAny);
          words ["完成"; "处理"; "解决"; "跟进"; "负责"]; zh_closing];
    seqs [RAlt (lit (u "由")) (RSeq (lit (u "由")) (lazy_star CAny));
          RGroup 1 (lazy_plus not_zh_stop); words ["负责"; "跟进"; "处理"];
          RGroup 2 (lazy_plus CAny); zh_closing];
    seqs [words ["截止"; "截至"; "期限"]; colon; spaces;
          RGroup 1 (lazy_plus not_zh_stop); zh_closing];
    labelled_line ["行动项"; "待办事项"];
    labelled_line ["TODO"; "todo"] ].

(** The obligation patterns of the language ['en']:
    - [(?:need|must|should|have to)(.+?)(?:complete|handle|solve|follow up|responsible)(?:,|.|;|\)|})?]
    - [(?:by|assigned to)\s*([^,.]+?)(?:to|for|will)(.+?)(?:,|.|;|\)|})?]
    - [(?:deadline|due date)[:：]\s*([^,.]+?)(?:,|.|;|\)|})?]
    - [(?:action item|todo item)[:：]\s*(.+?)(?=\n|$)]
    - [(?:TODO|todo)[:：]\s*(.+?)(?=\n|$)] *)
Definition todo_patterns_en : list regex :=
  [ seqs [words ["need"; "must"; "should"; "have to"]; RGroup 1 (lazy_plus CAny);
          words ["complete"; "handle"; "solve"; "follow up"; "responsible"]; en_closing];
    seqs [words ["by"; "assigned to"]; spaces; RGroup 1 (lazy_plus not_en_stop);
          words ["to"; "for"; "will"]; RGroup 2 (lazy_plus CAny); en_closing];
    seqs [words ["deadline"; "due date"]; colon; spaces;
          RGroup 1 (lazy_plus not_en_stop); en_closing];
    labelled_line ["action item"; "todo item"];
    labelled_line ["TODO"; "todo"] ].

(** [assignee_patterns]:
    - [由\s*([^，。；]+?)\s*(?:负责|跟进|处理)]
    - [([^，。；]+?)\s*负责]
    - [责任人[:：]\s*([^，。；]+?)(?:，|。|；|）|）)?] *)
Definition assignee_patterns_zh : list regex :=
  [ seqs [lit (u "由"); spaces; RGroup 1 (lazy_plus not_zh_stop); spaces;
          words ["负责"; "跟进"; "处理"]];
    seqs [RGroup 1 (lazy_plus not_zh_stop); spaces; lit (u "负责")];
    seqs [lit (u "责任人"); colon; spaces; RGroup 1 (lazy_plus not_zh_stop); zh_closing] ].

(** - [by\s*([^,.]+?)(?:to|for|will)]
    - [assigned to\s*([^,.]+?)(?:,|.|;|\)|})?]
    - [responsible person[:：]\s*([^,.]+?)(?:,|.|;|\)|})?] *)
Definition assignee_patterns_en : list regex :=
  [ seqs [lit (u "by"); spaces; RGroup 1 (lazy_plus not_en_stop); words ["to"; "for"; "will"]];
    seqs [lit (u "assigned to"); spaces; RGroup 1 (lazy_plus not_en_stop); en_closing];
    seqs [lit (u "responsible person"); colon; spaces;
          RGroup 1 (lazy_plus not_en_stop); en_closing] ].

(** [date_patterns]:
    - [(?:截止|截至|期限)[:：]\s*([^，。；]+?)(?:，|。|；|）|）)?]
    - [(?:在|于)\s*([^，。；]+?)\s*(?:之前|前)完成]
    - [(?:下周一|下周二|下周三|下周四|下周五|下周六|下周日|下周)]
    - [(?:明天|后天|大后天)]
    - [\d{4}年\d{1,2}月\d{1,2}日]
    - [\d{1,2}月\d{1,2}日] *)
Definition date_patterns_zh : list regex :=
  [ seqs [words ["截止"; "截至"; "期限"]; colon; spaces;
          RGroup 1 (lazy_plus not_zh_stop); zh_closing];
    seqs [words ["在"; "于"]; spaces; RGroup 1 (lazy_plus not_zh_stop); spaces;
          words ["之前"; "前"]; lit (u "完成")];
    words ["下周一"; "下周二"; "下周三"; "下周四"; "下周五"; "下周六"; "下周日"; "下周"];
    words ["明天"; "后天"; "大后天"];
    zh_full_date;
    zh_month_day ].

(** - [(?:deadline|due date)[:：]\s*([^,.]+?)(?:,|.|;|\)|})?]
    - [due by\s*([^,.]+?)(?:,|.|;|\)|})?]
    - [(?:next Monday|next Tuesday|...|next Sunday|next week)]
    - [(?:tomorrow|day after tomorrow)]
    - [\d{4}[-/]\d{1,2}[-/]\d{1,2}]
    - [\d{1,2}[-/]\d{1,2}[-/]\d{4}] *)
Definition date_patterns_en : list regex :=
  [ seqs [words ["deadline"; "due date"]; colon; spaces;
          RGroup 1 (lazy_plus not_en_stop); en_closing];
    seqs [lit (u "due by"); spaces; RGroup 1 (lazy_plus not_en_stop); en_closing];
    words ["next Monday"; "next Tuesday"; "next Wednesday"; "next Thursday";
           "next Friday"; "next Saturday"; "next Sunday"; "next week"];
    words ["tomorrow"; "day after tomorrow"];
    ymd_date;
    mdy_date ].

(** The keyword tables of [_evaluate_priority]. *)
Definition high_priority_keywords_zh : list str :=
  u <$> ["紧急"; "重要"; "尽快"; "立即"; "马上"; "必须"; "优先"; "关键"].
Definition high_priority_keywords_en : list str :=
  u <$> ["urgent"; "important"; "asap"; "immediately"; "now"; "must"; "priority"; "critical"].
Definition low_priority_keywords_zh : list str :=
  u <$> ["可选"; "次要"; "不急"; "后续"; "将来"; "有空"; "方便时"].
Definition low_priority_keywords_en : list str :=
  u <$> ["optional"; "secondary"; "not urgent"; "later"; "future"; "when convenient"].

(** [for pattern in patterns: match = re.search(...); if match: return f(match)] *)
Fixpoint first_search {A} (fl : flags) (patterns : list regex) (text : str)
    (f : regex → match_obj → A) : option A :=
  match patterns with
  | [] => None
  | pattern :: rest =>
    match search fl pattern text with
    | Some m => Some (f pattern m)
    | None => first_search fl rest text f
    end
  end.

(** [match.group(1)] of a group that takes part in every match. *)
Definition group1 (m : match_obj) : str := default [] (group m 1).

Definition _extract_assignee (text language : str) : str :=
  let patterns := by_language assignee_patterns_zh assignee_patterns_en language in
  default [] (first_search ignorecase patterns text (fun _ m => strip (group1 m))).

Definition _extract_due_date (text language : str) : option str :=
  let patterns := by_language date_patterns_zh date_patterns_en language in
  first_search ignorecase patterns text
    (fun pattern m =>
       if (0 <? ngroups pattern)%nat then strip (group1 m) else strip (m_text m)).

(** [for keyword in keywords: if keyword.lower() in text_lower: return value] *)
Fixpoint keyword_loop (keywords : list str) (text_lower : str) (value : Z) : option Z :=
  match keywords with
  | [] => None
  | keyword :: rest =>
    if contains (lower keyword) text_lower then Some value
    else keyword_loop rest text_lower value
  end.

Definition _evaluate_priority (text language : str) : Z :=
  let text_lower := lower text in
  match keyword_loop (by_language high_priority_keywords_zh high_priority_keywords_en language)
          text_lower 3 with
  | Some p => p
  | None =>
    match keyword_loop (by_language low_priority_keywords_zh low_priority_keywords_en language)
            text_lower 1 with
    | Some p => p
    | None => 2%Z
    end
  end.

(** The description of one element of [findall]: the text of the only
    group, or the non-empty groups joined with a space; stripped. *)
Definition description_of (f : found) : str :=
  match f with
  | FTuple l => strip (join (u " ") (filter (fun m => m ≠ []) l))
  | FStr s => strip s
  end.

(** The body of the inner loop: the item of one match, when its
    description is longer than 3 characters. *)
Definition todo_of_match (language : str) (f : found) : option Todo.item :=
  let description := description_of f in
  if (3 <? length description)%nat then
    Some {| Todo.description := description;
            Todo.assignee := _extract_assignee description language;
            Todo.priority := _evaluate_priority description language;
            Todo.due_date := _extract_due_date description language;
            Todo.status := u "pending";
            Todo.extracted_from := take 100 description |}
  else None.

(** [todo_items] after the two nested loops: patterns in table order,
    and for each pattern its matches from left to right. *)
Definition todo_candidates (text language : str) : list Todo.item :=
  by_language todo_patterns_zh todo_patterns_en language ≫=
    (fun pattern =>
       omap (todo_of_match language) (findall ignorecase_multiline pattern text)).

(** [item['description'].lower().strip()] *)
Definition desc_key (item : Todo.item) : str := strip (lower (Todo.description item)).

(** The de-duplication loop, with its [seen_descriptions] set. *)
Fixpoint unique_loop (todo_items : list Todo.item) (seen_descriptions : gset str)
    : list Todo.item :=
  match todo_items with
  | [] => []
  | item :: rest =>
    let desc_key := desc_key item in
    if bool_decide (desc_key ∈ seen_descriptions)
    then unique_loop rest seen_descriptions
    else item :: unique_loop rest ({[desc_key]} ∪ seen_descriptions)
  end.

Definition extract_todo_items (text language : str) : list Todo.item :=
  unique_loop (todo_candidates text language) ∅.

(** ** TimelineVisualizer *)

Module Timeline.
(** One timeline entry. *)
Record item := {
  time : str;
  event : str;
  description : str;
  sentence_index : nat;
  has_time : bool
}.
End Timeline.

Definition relative_unit : regex := words ["分钟"; "小时"; "天"; "周"; "月"; "年"].

(** [time_patterns]: a time, a range of times, a date and a time, a CJK
    date and a time, and two relative offsets:
    - [(\d{1,2}[:：]\d{1,2})\s*(?:左右|许|时|分)?]
    - [(\d{1,2}[:：]\d{1,2})[～~-](\d{1,2}[:：]\d{1,2})]
    - [(\d{4}[-/]\d{1,2}[-/]\d{1,2})\s+(\d{1,2}[:：]\d{1,2})]
    - [(\d{4}年\d{1,2}月\d{1,2}日)\s*(?:上午|下午)?\s*(\d{1,2}[:：]\d{1,2})]
    - [(?:接下来|随后|然后|接着)\s*(?:的)?\s*(\d+)\s*(?:分钟|小时|天|周|月|年)]
    - [(?:之前|以前|前)\s*(\d+)\s*(?:分钟|小时|天|周|月|年)] *)
Definition time_patterns : list regex :=
  [ seqs [RGroup 1 hh_mm; spaces; ROpt (words ["左右"; "许"; "时"; "分"])];
    seqs [RGroup 1 hh_mm; RChar (CIn (chars "～~-")); RGroup 2 hh_mm];
    seqs [RGroup 1 ymd_date; plus space; RGroup 2 hh_mm];
    seqs [RGroup 1 zh_full_date; spaces; ROpt (words ["上午"; "下午"]); spaces;
          RGroup 2 hh_mm];
    seqs [words ["接下来"; "随后"; "然后"; "接着"]; spaces; ROpt (lit (u "的")); spaces;
          RGroup 1 (plus digit); spaces; relative_unit];
    seqs [words ["之前"; "以前"; "前"]; spaces; RGroup 1 (plus digit); spaces;
          relative_unit] ].

(** The keyword table of [extract_timeline_data]. *)
Definition importance_keywords_zh : list str :=
  u <$> ["决定"; "决议"; "达成"; "同意"; "通过"; "确认"; "安排"; "计划"].
Definition importance_keywords_en : list str :=
  u <$> ["decide"; "resolution"; "agree"; "approve"; "confirm"; "arrange"; "plan"].

(** [sentences.index(sentence)]: the position of the first element
    equal to [sentence] (the callers look up members only). *)
Fixpoint list_index (sentence : str) (sentences : list str) : nat :=
  match sentences with
  | [] => O
  | s :: rest => if str_eqb s sentence then O else S (list_index sentence rest)
  end.

(** [str(t)] for a tuple of captured groups; the groups of
    [time_patterns] hold digits, colons, dashes, slashes and the
    characters of a CJK date, which [repr] prints between single
    quotes as they are. *)
Definition tuple_str (l : list str) : str :=
  u "(" ++ join (u ", ") ((fun g => u "'" ++ g ++ u "'") <$> l) ++ u ")".

Definition first_time (f : found) : str :=
  match f with
  | FStr s => s
  | FTuple l => tuple_str l
  end.

(** [for keyword in keywords: if keyword.lower() in sentence.lower(): ...; break] *)
Definition any_keyword (keywords : list str) (sentence : str) : bool :=
  existsb (fun keyword => contains (lower keyword) (lower sentence)) keywords.

(** Stable insertion by [sentence_index], for [list.sort(key=...)]. *)
Fixpoint insert_by_index (x : Timeline.item) (l : list Timeline.item) : list Timeline.item :=
  match l with
  | [] => [x]
  | y :: rest =>
    if (Timeline.sentence_index x <=? Timeline.sentence_index y)%nat
    then x :: l
    else y :: insert_by_index x rest
  end.

Definition sort_by_index (l : list Timeline.item) : list Timeline.item :=
  foldr insert_by_index [] l.

Section TimelineVisualizer.

Variable sent_tokenize : str → list str.

(** The event of one sentence, if any; [emitted] is
    [len(timeline_items)] when the sentence is visited. *)
Definition timeline_of_sentence (language : str) (sentences : list str)
    (emitted : nat) (sentence : str) : option Timeline.item :=
  let time_matches := time_patterns ≫= (fun pattern => findall no_flags pattern sentence) in
  match time_matches with
  | first :: _ =>
    let event_title := strip (take 50 sentence) in
    let event_title :=
      if (50 <? length event_title)%nat then take 47 event_title ++ u "..."
      else event_title in
    Some {| Timeline.time := first_time first;
            Timeline.event := event_title;
            Timeline.description := sentence;
            Timeline.sentence_index := list_index sentence sentences;
            Timeline.has_time := true |}
  | [] =>
    let keywords := by_language importance_keywords_zh importance_keywords_en language in
    if any_keyword keywords sentence then
      Some {| Timeline.time := u "事件_" ++ str_of_nat emitted;
              Timeline.event := strip (take 50 sentence);
              Timeline.description := sentence;
              Timeline.sentence_index := list_index sentence sentences;
              Timeline.has_time := false |}
    else None
  end.

(** The loop over the sentences; [timeline_items] is the list built
    so far, in order. *)
Fixpoint timeline_loop (language : str) (sentences todo : list str)
    (timeline_items : list Timeline.item) : list Timeline.item :=
  match todo with
  | [] => timeline_items
  | sentence :: rest =>
    match timeline_of_sentence language sentences (length timeline_items) sentence with
    | Some item => timeline_loop language sentences rest (timeline_items ++ [item])
    | None => timeline_loop language sentences rest timeline_items
    end
  end.

Definition extract_timeline_data (text language : str) : list Timeline.item :=
  let sentences := segment_text sent_tokenize language text mode_sentence in
  sort_by_index (timeline_loop language sentences sentences []).

End TimelineVisualizer.

Definition dict_str (items : list (string * pyval)) : pyval :=
  PDict (prod_map u id <$> items).

Definition pstr (s : string) : pyval := PStr (u s).

Definition axis_style : list (string * pyval) :=
  [ ("axisLabel", dict_str [("color", pstr "#666")]);
    ("axisLine", dict_str [("lineStyle", dict_str [("color", pstr "#666")])]) ].

Definition nat_num (n : nat) : pyval := PNum (Int (Z.of_nat n)).

(** One point of the scatter series. *)
Definition chart_point (i : nat) (item : Timeline.item) : pyval :=
  dict_str
    [ ("name", PStr (Timeline.event item));
      ("value", PList [ nat_num i; PStr (Timeline.time item);
                        PStr (take 100 (Timeline.description item));
                        pstr (if Timeline.has_time item then "有具体时间" else "无具体时间") ]);
      ("symbolSize", PNum (Int (if Timeline.has_time item then 10 else 6))) ].

(** The ECharts configuration; the [symbolSize] of the series is the
    [lambda] of the source. *)
Definition create_timeline_chart (timeline_data : list Timeline.item) (language : str)
    : pyval :=
  let categories := PStr ∘ Timeline.time <$> timeline_data in
  let data := imap chart_point timeline_data in
  dict_str
    [ ("title", dict_str [ ("text", pstr (if is_zh language then "会议时间线"
                                          else "Meeting Timeline"));
                           ("left", pstr "center") ]);
      ("tooltip", dict_str [ ("trigger", pstr "item");
                             ("formatter", pstr "{b}<br/>{c}") ]);
      ("grid", dict_str [ ("left", pstr "6%"); ("right", pstr "6%");
                          ("bottom", pstr "3%"); ("containLabel", PBool true) ]);
      ("xAxis", dict_str ([ ("type", pstr "category"); ("data", PList categories) ]
                          ++ axis_style));
      ("yAxis", dict_str ([ ("type", pstr "value") ] ++ axis_style));
      ("series", PList [ dict_str
         [ ("type", pstr "scatter");
           ("data", PList data);
           ("symbolSize", PFunction);
           ("itemStyle", dict_str [("color", pstr "#5470c6")]);
           ("emphasis", dict_str [("itemStyle", dict_str [("color", pstr "#ee6666")])]) ] ]) ].

(** ** json.dumps *)

Section Json.

(** [float.__repr__], which [json] uses for a [float]. *)
Variable float_repr : Q → str.

Definition hex_digit (n : N) : cp := if n <? 10 then 48 + n else 87 + n.

(** The escapes of [json.encoder.ESCAPE_DCT] (with
    [ensure_ascii=False]). *)
Definition escape_char (c : cp) : str :=
  let backslash : cp := 92 in
  if c =? 34 then [backslash; 34]
  else if c =? 92 then [backslash; backslash]
  else if c =? 8 then backslash :: u "b"
  else if c =? 12 then backslash :: u "f"
  else if c =? 10 then backslash :: u "n"
  else if c =? 13 then backslash :: u "r"
  else if c =? 9 then backslash :: u "t"
  else if c <? 32 then backslash :: u "u00" ++ [hex_digit (c / 16); hex_digit (c mod 16)]
  else [c].

Definition encode_string (s : str) : str := [34] ++ (s ≫= escape_char) ++ [34].

Definition int_str (z : Z) : str :=
  if (z <? 0)%Z then u "-" ++ str_of_N (Z.abs_N z) else str_of_N (Z.abs_N z).

(** A line break followed by the indentation of [level]
    ([indent=2]). *)
Definition newline_indent (level : nat) : str := nl ++ replicate (2 * level) 32.

Definition bracket (open close : string) (level : nat) (items : list str) : str :=
  u open ++ newline_indent (S level)
  ++ join (u "," ++ newline_indent (S level)) items
  ++ newline_indent level ++ u close.

(** The chunks of the items of a container, in order; the first item
    that cannot be encoded raises. *)
Definition encode_items {A} (f : A → outcome str) : list A → outcome (list str) :=
  fix each (l : list A) : outcome (list str) :=
    match l with
    | [] => mret []
    | x :: rest =>
      chunk ← f x;
      chunks ← each rest;
      mret (chunk :: chunks)
    end.

(** The encoder; a value of a type it does not know makes [default]
    raise [TypeError]. *)
Fixpoint encode (level : nat) (v : pyval) : outcome str :=
  match v with
  | PNone => mret (u "null")
  | PBool true => mret (u "true")
  | PBool false => mret (u "false")
  | PNum (Int z) => mret (int_str z)
  | PNum (Float q) => mret (float_repr q)
  | PStr s => mret (encode_string s)
  | PList [] => mret (u "[]")
  | PList l =>
    items ← encode_items (encode (S level)) l;
    mret (bracket "[" "]" level items)
  | PDict [] => mret (u "{}")
  | PDict kvs =>
    items ← encode_items
              (fun kv => chunk ← encode (S level) kv.2;
                         mret (encode_string kv.1 ++ u ": " ++ chunk)) kvs;
    mret (bracket "{" "}" level items)
  | PFunction => raise TypeError
  end.

(** [json.dumps(obj, ensure_ascii=False, indent=2)] *)
Definition json_dumps (obj : pyval) : outcome str := encode 0 obj.

End Json.

(** Whether a value holds a function somewhere. *)
Fixpoint has_function (v : pyval) : bool :=
  match v with
  | PFunction => true
  | PList l => existsb has_function l
  | PDict kvs => existsb (fun kv => has_function kv.2) kvs
  | _ => false
  end.

(** ** MeetingMinutesAssistant *)

Module Minutes.
Record text_processing_dict := {
  raw_text_sample : str;
  processed_text_sample : str;
  quality_report : Quality.report
}.

Record timeline_dict := {
  data : list Timeline.item;
  chart_config : pyval
}.

(** The dictionary returned by [process_meeting_text]. *)
Record result := {
  text_processing : text_processing_dict;
  summary : Summary.data;
  todo_items : list Todo.item;
  timeline : timeline_dict;
  processing_time : str;
  language : str
}.
End Minutes.

(** The dictionaries as Python values, key by key. *)
Definition str_list (l : list str) : pyval := PList (PStr <$> l).

Definition py_of_quality (q : Quality.report) : pyval :=
  dict_str
    [ ("char_count", nat_num (Quality.char_count q));
      ("word_count", nat_num (Quality.word_count q));
      ("sentence_count", nat_num (Quality.sentence_count q));
      ("paragraph_count", nat_num (Quality.paragraph_count q));
      ("readability_score", PNum (Quality.readability_score q));
      ("completeness_score", PNum (Int (Quality.completeness_score q)));
      ("language_detected", PStr (Quality.language_detected q));
      ("summary", PStr (Quality.summary q)) ].

Definition py_of_structure (st : Summary.structure) : pyval :=
  dict_str
    [ ("meeting_topic", PStr (Summary.meeting_topic st));
      ("discussion_issues", str_list (Summary.discussion_issues st));
      ("discussion_points", str_list (Summary.discussion_points st));
      ("decisions", str_list (Summary.decisions st));
      ("action_items", str_list (Summary.action_items st)) ].

Definition py_of_key_info (k : Summary.key_info) : pyval :=
  dict_str
    [ ("persons", str_list (elements (Summary.persons k)));
      ("times", str_list (Summary.times k));
      ("locations", str_list (Summary.locations k));
      ("numbers", PList (PNum <$> Summary.numbers k));
      ("dates", str_list (Summary.dates k)) ].

Definition py_of_summary (d : Summary.data) : pyval :=
  dict_str
    [ ("summary_text", PStr (Summary.summary_text d));
      ("structured_data", py_of_structure (Summary.structured_data d));
      ("key_information", py_of_key_info (Summary.key_information d));
      ("language", PStr (Summary.language d));
      ("timestamp", PStr (Summary.timestamp d)) ].

Definition py_of_todo (t : Todo.item) : pyval :=
  dict_str
    [ ("description", PStr (Todo.description t));
      ("assignee", PStr (Todo.assignee t));
      ("priority", PNum (Int (Todo.priority t)));
      ("due_date", from_option PStr PNone (Todo.due_date t));
      ("status", PStr (Todo.status t));
      ("extracted_from", PStr (Todo.extracted_from t)) ].

Definition py_of_event (e : Timeline.item) : pyval :=
  dict_str
    [ ("time", PStr (Timeline.time e));
      ("event", PStr (Timeline.event e));
      ("description", PStr (Timeline.description e));
      ("sentence_index", nat_num (Timeline.sentence_index e));
      ("has_time", PBool (Timeline.has_time e)) ].

Definition py_of_result (r : Minutes.result) : pyval :=
  dict_str
    [ ("text_processing", dict_str
         [ ("raw_text_sample", PStr (Minutes.raw_text_sample (Minutes.text_processing r)));
           ("processed_text_sample", PStr (Minutes.processed_text_sample (Minutes.text_processing r)));
           ("quality_report", py_of_quality (Minutes.quality_report (Minutes.text_processing r))) ]);
      ("summary", py_of_summary (Minutes.summary r));
      ("todo_items", PList (py_of_todo <$> Minutes.todo_items r));
      ("timeline", dict_str
         [ ("data", PList (py_of_event <$> Minutes.data (Minutes.timeline r)));
           ("chart_config", Minutes.chart_config (Minutes.timeline r)) ]);
      ("processing_time", PStr (Minutes.processing_time r));
      ("language", PStr (Minutes.language r)) ].

(** ** Exports of the timeline *)

(** *** csv.writer *)

(** The characters that make [csv.writer] quote a field under the
    default dialect: the delimiter, the quote character and the
    characters of the line terminator. *)
Definition csv_special (c : cp) : bool :=
  (c =? 44) || (c =? 34) || (c =? 13) || (c =? 10).

(** A field as it is written: between quotes, with its quotes doubled,
    when it holds a special character. *)
Definition csv_field (field : str) : str :=
  if existsb csv_special field
  then [34] ++ (field ≫= (fun c => if c =? 34 then [34; 34] else [c])) ++ [34]
  else field.

(** [writer.writerow(fields)]; a row that is one empty field is written
    as a pair of quotes. *)
Definition writerow (fields : list str) : str :=
  match fields with
  | [[]] => [34; 34]
  | _ => join (u ",") (csv_field <$> fields)
  end ++ [13; 10].

(** *** export_timeline *)

Definition html_header : str :=
  u "<!DOCTYPE html>
<html>
<head>
    <meta charset=" ++ [34] ++ u "UTF-8" ++ [34] ++ u ">
    <title>会议时间线</title>
    <style>
        body { font-family: Arial, sans-serif; margin: 20px; }
        table { border-collapse: collapse; width: 100%; }
        th, td { border: 1px solid #ddd; padding: 8px; text-align: left; }
        th { background-color: #f2f2f2; }
        tr:nth-child(even) { background-color: #f9f9f9; }
        .has-time { color: green; }
        .no-time { color: gray; }
    </style>
</head>
<body>
    <h1>会议时间线</h1>
    <table>
        <tr>
            <th>时间</th>
            <th>事件</th>
            <th>描述</th>
            <th>时间明确</th>
        </tr>
".

Definition html_footer : str :=
  u "
    </table>
</body>
</html>
".

Section ExportTimeline.

Variable float_repr : Q → str.

Definition timeline_csv_row (item : Timeline.item) : str :=
  writerow [ Timeline.time item; Timeline.event item;
             take 200 (Timeline.description item);
             u (if Timeline.has_time item then "Yes" else "No") ].

Definition timeline_html_row (item : Timeline.item) : str :=
  let time_class := u (if Timeline.has_time item then "has-time" else "no-time") in
  let time_text := Timeline.time item in
  let event_text := Timeline.event item in
  let desc_text := take 100 (Timeline.description item) in
  u "
        <tr>
            <td>" ++ time_text
  ++ u "</td>
            <td>" ++ event_text
  ++ u "</td>
            <td>" ++ desc_text
  ++ u "</td>
            <td class=" ++ [34] ++ time_class ++ [34] ++ u ">"
  ++ u (if Timeline.has_time item then "是" else "否")
  ++ u "</td>
        </tr>
".

Definition export_timeline (timeline_data : list Timeline.item) (format_type : str)
    : outcome str :=
  if str_eqb format_type (u "json") then
    json_dumps float_repr (PList (py_of_event <$> timeline_data))
  else if str_eqb format_type (u "csv") then
    mret (writerow (u <$> ["Time"; "Event"; "Description"; "Has Time"])
          ++ concat (timeline_csv_row <$> timeline_data))
  else if str_eqb format_type (u "html") then
    mret (html_header ++ concat (timeline_html_row <$> timeline_data) ++ html_footer)
  else raise ValueError.

End ExportTimeline.

(** [os.path.splitext(path)[1]] *)
Definition splitext_ext (path : str) : str :=
  let rbase := before 47 (rev path) in
  if bool_decide (46 ∈ rbase) then
    let rext := before 46 rbase in
    let stem := drop (S (length rext)) rbase in
    if forallb (fun c => c =? 46) stem then [] else 46 :: rev rext
  else [].

(** The language of the [TextProcessor()] built by [__init__]: the
    default of its constructor. *)
Definition text_processor_language : str := u "zh".

Section MeetingMinutesAssistant.

Variable sent_tokenize : str → list str.
Variable word_tokenize : str → list str.
Variable jieba_cut : option (str → list str).
Variable requests_post : request → post_outcome.
Variable api_key : option str.
Variable float_repr : Q → str.

(** The file system: the text of a file opened as UTF-8, and the
    paragraph texts of a .docx document; [None] when reading raises. *)
Variable read_text : str → option str.
Variable docx_paragraphs : str → option (list str).

Definition parse_text_file (file_path : str) : outcome str :=
  let ext := lower (splitext_ext file_path) in
  if str_eqb ext (u ".txt") then
    from_option mret (raise IOError) (read_text file_path)
  else if str_eqb ext (u ".docx") then
    from_option (fun ps => mret (join nl ps)) (raise IOError) (docx_paragraphs file_path)
  else raise ValueError.

(** [summary_time] and [processing_time] are the two readings of
    [datetime.now().isoformat()]. *)
Definition process_meeting_text (summary_time processing_time : str)
    (file_path language : str) : outcome Minutes.result :=
  raw_text ← parse_text_file file_path;
  let processed_text := preprocess_text text_processor_language raw_text in
  let quality_report :=
    evaluate_text_quality sent_tokenize word_tokenize jieba_cut
      text_processor_language processed_text in
  summary_data ←
    generate_summary requests_post api_key sent_tokenize summary_time processed_text language;
  let todo_items := extract_todo_items processed_text language in
  let timeline_data := extract_timeline_data sent_tokenize processed_text language in
  let timeline_chart := create_timeline_chart timeline_data language in
  mret {| Minutes.text_processing :=
            {| Minutes.raw_text_sample := take 500 raw_text;
               Minutes.processed_text_sample := take 500 processed_text;
               Minutes.quality_report := quality_report |};
          Minutes.summary := summary_data;
          Minutes.todo_items := todo_items;
          Minutes.timeline :=
            {| Minutes.data := timeline_data; Minutes.chart_config := timeline_chart |};
          Minutes.processing_time := processing_time;
          Minutes.language := language |}.

(** [export_results(result, 'json')] *)
Definition export_results_json (r : Minutes.result) : outcome str :=
  json_dumps float_repr (py_of_result r).

End MeetingMinutesAssistant.

(** ** Statements of the specification *)

(** *** Quality *)

(** The completeness score the specification gives for a character
    count: 30 below 50, 90 above 10000, 100 otherwise. *)
Definition completeness_of (char_count : nat) : Z :=
  if decide (Z.of_nat char_count < 50)%Z then 30%Z
  else if decide (10000 < Z.of_nat char_count)%Z then 90%Z
  else 100%Z.

(** The readability of a text of the CJK profile:
    [clamp(0, 100, 100 - avgCharsPerSentence / 10)], rounded to two
    places; 0 without sentences or tokens. *)
Definition cjk_readability (char_count sentence_count word_count : nat) : number :=
  if decide (sentence_count = 0 ∨ word_count = 0)%nat then Int 0
  else round2 (py_max (Int 0) (py_min (Int 100)
                 (Float (100 - true_div char_count sentence_count / 10)))).

(** *** Action items *)

(** [a] occurs in [b]. *)
Definition substring (a b : str) : Prop := ∃ pre post, b = pre ++ a ++ post.

(** Some keyword of the list occurs in the text, case-insensitively. *)
Definition mentions (keywords : list str) (text : str) : Prop :=
  ∃ keyword, keyword ∈ keywords ∧ substring (lower keyword) (lower text).

Definition high_priority_keywords (language : str) : list str :=
  by_language high_priority_keywords_zh high_priority_keywords_en language.

Definition low_priority_keywords (language : str) : list str :=
  by_language low_priority_keywords_zh low_priority_keywords_en language.

(** Scenario A and scenario B of the specification. *)
Definition scenario_A : str := u "需要张三负责完成报告，截止12月30日".
Definition scenario_B : str := u "URGENT: John must submit the report by 2024-12-30.".

(** What the specification says of scenario A: one item, whose assignee
    contains the name, whose due date contains the date, of medium
    priority. *)
Definition scenario_A_claim : Prop :=
  ∃ item, extract_todo_items scenario_A (u "zh") = [item]
    ∧ Todo.assignee item ≠ []
    ∧ substring (u "张三") (Todo.assignee item)
    ∧ (∃ due, Todo.due_date item = Some due ∧ due ≠ [] ∧ substring (u "12月30日") due)
    ∧ Todo.priority item = 2%Z.

(** What the specification says of scenario B: one item, of high
    priority. *)
Definition scenario_B_claim : Prop :=
  ∃ item, extract_todo_items scenario_B (u "en") = [item] ∧ Todo.priority item = 3%Z.

(** All matches of the obligation patterns of a language, pattern by
    pattern. *)
Definition obligation_matches (text language : str) : list found :=
  by_language todo_patterns_zh todo_patterns_en language ≫=
    (fun pattern => findall ignorecase_multiline pattern text).

(** *** Timeline *)

(** Strictly increasing indices: a later position holds a larger
    index. *)
Definition strictly_increasing (l : list nat) : Prop :=
  ∀ i j x y, l !! i = Some x → l !! j = Some y → (i < j)%nat → (x < y)%nat.

(** Ascending order of two timeline entries. *)
Definition index_le (x y : Timeline.item) : Prop :=
  (Timeline.sentence_index x ≤ Timeline.sentence_index y)%nat.

(** Two identical sentences, each carrying an importance keyword. *)
Definition repeated_sentences : str := u "决定A。决定A。".

(** A sentence of more than 50 characters that names a time. *)
Definition long_sentence : str :=
  u "会议将于10:30在三楼会议室召开，届时将讨论下一季度的预算分配方案、人员招聘计划和市场推广策略的调整，请各部门负责人提前准备材料".

(** *** The generation service *)

(** The failures of the service call: [requests.post] raises (time-out,
    connection error); the status is an error status; the body is not
    JSON; the body lacks the path to the completion. *)
Inductive service_failure : post_outcome → Prop :=
| transport_failure :
    service_failure PostRaises
| error_status (status_code : Z) (json_body : option pyval) :
    (400 ≤ status_code < 600)%Z → service_failure (PostResponse status_code json_body)
| undecodable_body (status_code : Z) :
    service_failure (PostResponse status_code None)
| malformed_body (status_code : Z) (body : pyval) (e : exn) :
    content_of body = inl e → service_failure (PostResponse status_code (Some body)).

(** The fallback summary in the words of the specification: the first
    three paragraphs (all of them when there are fewer), joined with a
    blank line, and the omission marker when paragraphs were left
    out. *)
Definition first_paragraphs (text : str) : str :=
  join (nl ++ nl) (take 3 (paragraphs text))
  ++ (if decide (3 < length (paragraphs text))%nat then omission_marker else []).

(** The body of a chat completion with the given content, and a
    response with status 200 whose completion is [null]. *)
Definition completion (content : pyval) : pyval :=
  dict_str [("choices", PList [dict_str [("message", dict_str [("content", content)])]])].

Definition null_completion : post_outcome := PostResponse 200 (Some (completion PNone)).

(** *** A sample environment *)

(** Tokenizers that cut at spaces, no jieba, a service that times out,
    a file system with one file. *)
Fixpoint split_spaces (s : str) (word : str) : list str :=
  match s with
  | [] => if bool_decide (word = []) then [] else [rev word]
  | c :: rest =>
    if c =? 32
    then (if bool_decide (word = []) then [] else [rev word]) ++ split_spaces rest []
    else split_spaces rest (c :: word)
  end.

Definition sample_tokenize (s : str) : list str := split_spaces s [].

Definition sample_post (r : request) : post_outcome := PostRaises.

Definition sample_text : str :=
  u "First paragraph." ++ nl ++ nl ++ u "Second one." ++ nl ++ u "   " ++ nl
  ++ u "Third." ++ nl ++ nl ++ u "Fourth." ++ nl ++ nl ++ u "Fifth.".

Definition sample_read_text (path : str) : option str :=
  if str_eqb path (u "minutes.txt") then Some (u "Hello world. Bye.") else None.

Definition sample_docx (path : str) : option (list str) := None.

(** A stand-in for [float.__repr__]: the integer part and two decimal
    places. *)
Definition sample_float_repr (q : Q) : str :=
  let hundredths := Z.abs_N (round_half_even (q * 100)) in
  str_of_N (hundredths / 100) ++ u "."
  ++ [48 + (hundredths / 10) mod 10; 48 + hundredths mod 10].

(** A run on the sample file with the language ['en']. *)
Definition sample_run : outcome Minutes.result :=
  process_meeting_text sample_tokenize sample_tokenize None sample_post None
    sample_read_text sample_docx (u "2024-12-27T10:30:00") (u "2024-12-27T10:30:01")
    (u "minutes.txt") (u "en").

(** Closing a goal on concrete data by evaluation. *)
Ltac by_evaluation := vm_compute; reflexivity.

(** ** Statements of further properties *)

(** *** Pieces of a text *)

(** Every captured group is a piece of the text. *)
Definition captures_in (text : str) (g : groups) : Prop :=
  Forall (fun o : option str => ∀ t, o = Some t → substring t text) g.

(** A match that is a piece of the text, with groups that are pieces of
    the text, one per group of the pattern. *)
Definition match_in (text : str) (r : regex) (m : match_obj) : Prop :=
  substring (m_text m) text ∧ captures_in text (m_groups m)
  ∧ length (m_groups m) = ngroups r.

(** What [findall] returns is made of pieces of the text. *)
Definition found_in (text : str) (f : found) : Prop :=
  match f with
  | FStr t => substring t text
  | FTuple l => Forall (fun t => substring t text) l
  end.

(** A piece of a text without white space around it. *)
Definition stripped_piece (text x : str) : Prop := substring x text ∧ strip x = x.

(** *** Cleaning *)

(** The allow-list of a processor language. *)
Definition allowed (language : str) : list citem :=
  if is_zh language then zh_allowed else en_allowed.

(** A character that is not white space. *)
Definition visible (c : cp) : Prop := is_space c = false.

#[global] Instance visible_dec (c : cp) : Decision (visible c) :=
  bool_eq_dec (is_space c) false.

(** A character that the processor of a language keeps. *)
Definition kept (language : str) (c : cp) : Prop := in_items (allowed language) c = true.

#[global] Instance kept_dec (language : str) (c : cp) : Decision (kept language c) :=
  bool_eq_dec (in_items (allowed language) c) true.

(** *** Shapes of patterns *)

(** A pattern without capturing group. *)
Fixpoint group_free (r : regex) : bool :=
  match r with
  | RSeq a b | RAlt a b => group_free a && group_free b
  | RGroup _ _ => false
  | ROpt a | RLookahead a => group_free a
  | _ => true
  end.

(** A pattern that ends with a lazy group over one class in front of
    an optional closing without group: [...(x+?)(?:...)?]. *)
Definition lazy_capture_pattern (r : regex) : Prop :=
  ∃ pre cs a, r = seqs (pre ++ [RGroup 1 (lazy_plus cs); ROpt a])
    ∧ forallb group_free pre = true ∧ group_free a = true.

(** A time [hh:mm] can be read at a position of a text. *)
Definition hh_mm_at (prev : option cp) (s : str) : Prop :=
  is_Some (rmatch no_flags hh_mm prev s [] (fun _ _ _ => Some tt)).

(** *** Further samples *)

(** A file system whose files hold white space only: spaces, a line
    break, a tab and a wide space. *)
Definition blank_read_text (path : str) : option str :=
  Some (u "  " ++ nl ++ [9; 12288]).

(** A text with two deadlines, and a text with one. *)
Definition two_deadlines : str := u "截止：12月30日，期限：周五".
Definition one_deadline : str := u "deadline: 2024-12-30".

(** A line that states an action item, and the item of the whole
    line. *)
Definition action_line : str := u "行动项：由李明负责尽快提交预算报告，截止12月30日".

Definition action_item : Todo.item :=
  {| Todo.description := u "由李明负责尽快提交预算报告，截止12月30日";
     Todo.assignee := u "李明";
     Todo.priority := 3;
     Todo.due_date := Some (u "12月30日");
     Todo.status := u "pending";
     Todo.extracted_from := u "由李明负责尽快提交预算报告，截止12月30日" |}.

(** The event of the second of the two repeated sentences, and the
    event of the long sentence. *)
Definition second_decision : Timeline.item :=
  {| Timeline.time := u "事件_1";
     Timeline.event := u "决定A";
     Timeline.description := u "决定A";
     Timeline.sentence_index := 0;
     Timeline.has_time := false |}.

Definition long_sentence_event : Timeline.item :=
  {| Timeline.time := u "10:30";
     Timeline.event := take 50 long_sentence;
     Timeline.description := long_sentence;
     Timeline.sentence_index := 0;
     Timeline.has_time := true |}.

(** A service that answers with a completion. *)
Definition answering_post (r : request) : post_outcome :=
  PostResponse 200 (Some (completion (pstr "会议主题：预算"))).

(** The notes of a meeting, a file system whose files hold them, and a
    run on them with the language ['zh']. *)
Definition meeting_notes : str :=
  u "行动项：由李明负责尽快提交预算报告，截止12月30日。会议决定下周启动招聘。10：30 讨论预算".

Definition notes_read_text (path : str) : option str := Some meeting_notes.

Definition notes_run : outcome Minutes.result :=
  process_meeting_text sample_tokenize sample_tokenize None sample_post None
    notes_read_text sample_docx (u "2024-12-27T10:30:00") (u "2024-12-27T10:30:01")
    (u "notes.txt") (u "zh").

(** ** Properties *)

(** *** Strings *)

Lemma is_prefix_spec (p s : str) : is_prefix p s = true ↔ ∃ post, s = p ++ post.
Proof.
  revert s. induction p as [|a p IH]; intros s; simpl.
  - split; [intros _; by exists s | done].
  - destruct s as [|b s].
    + split; [done | intros [post H]; discriminate].
    + rewrite andb_true_iff, N.eqb_eq, IH. split.
      * intros [-> [post ->]]. by exists post.
      * intros [post H]. injection H as -> ->. eauto.
Qed.

Lemma contains_spec (a b : str) : contains a b = true ↔ substring a b.
Proof.
  unfold substring. induction b as [|c b IH].
  - simpl. rewrite orb_false_r, is_prefix_spec. split.
    + intros [post H]. exists [], post. done.
    + intros [pre [post H]]. destruct pre; [by exists post|discriminate].
  - cbn [contains]. rewrite orb_true_iff, is_prefix_spec, IH. split.
    + intros [[post H] | [pre [post H]]].
      * exists [], post. done.
      * exists (c :: pre), post. by rewrite H.
    + intros [pre [post H]]. destruct pre as [|c' pre].
      * left. by exists post.
      * right. injection H as -> ->. eauto.
Qed.

Lemma keyword_loop_hit (keywords : list str) (text : str) (value : Z) :
  mentions keywords text → keyword_loop keywords (lower text) value = Some value.
Proof.
  intros [keyword [Hin Hsub]]. apply contains_spec in Hsub.
  induction keywords as [|k ks IH]; [by apply elem_of_nil in Hin|].
  simpl. destruct (contains (lower k) (lower text)) eqn:Hk; [done|].
  apply elem_of_cons in Hin as [-> | Hin]; [congruence | by apply IH].
Qed.

Lemma keyword_loop_miss (keywords : list str) (text : str) (value : Z) :
  ¬ mentions keywords text → keyword_loop keywords (lower text) value = None.
Proof.
  intros Hno. induction keywords as [|k ks IH]; [done|].
  simpl. destruct (contains (lower k) (lower text)) eqn:Hk.
  - exfalso. apply Hno. exists k. split; [by left | by apply contains_spec].
  - apply IH. intros [k' [Hin Hsub]]. apply Hno. exists k'. split; [by right | done].
Qed.

(** *** The quality report *)

(** C4: the completeness score of every quality report is determined
    by the character count of the text alone: it is 30 when the count
    is below 50, 90 when it is above 10000, and 100 otherwise. *)
Theorem completeness_score_by_char_count
    (sent_tokenize word_tokenize : str → list str)
    (jieba_cut : option (str → list str)) (language text : str) :
  let report := evaluate_text_quality sent_tokenize word_tokenize jieba_cut language text in
  Quality.char_count report = length text
  ∧ Quality.completeness_score report = completeness_of (Quality.char_count report)
  ∧ ((Z.of_nat (length text) < 50)%Z → Quality.completeness_score report = 30%Z)
  ∧ ((10000 < Z.of_nat (length text))%Z → Quality.completeness_score report = 90%Z)
  ∧ ((50 ≤ Z.of_nat (length text) ≤ 10000)%Z → Quality.completeness_score report = 100%Z).
Proof.
  cbn zeta. unfold evaluate_text_quality, completeness_of.
  cbn [Quality.char_count Quality.completeness_score].
  repeat split.
  - repeat case_decide; repeat case_match; lia.
  - intros H. repeat case_match; lia.
  - intros H. repeat case_match; lia.
  - intros H. repeat case_match; lia.
Qed.

(** *** Priorities *)

(** C5: the priority of a candidate text is high (3) as soon as a
    high-priority keyword of the language occurs in it, whatever
    low-priority keywords occur as well; it is low (1) when a
    low-priority keyword occurs and no high-priority keyword does;
    it is medium (2) otherwise.  Occurrence ignores case. *)
Theorem evaluate_priority_precedence (text language : str) :
  (mentions (high_priority_keywords language) text →
     _evaluate_priority text language = 3%Z)
  ∧ (¬ mentions (high_priority_keywords language) text →
     mentions (low_priority_keywords language) text →
     _evaluate_priority text language = 1%Z)
  ∧ (¬ mentions (high_priority_keywords language) text →
     ¬ mentions (low_priority_keywords language) text →
     _evaluate_priority text language = 2%Z).
Proof.
  unfold _evaluate_priority, high_priority_keywords, low_priority_keywords.
  split; [|split].
  - intros Hhigh. by rewrite (keyword_loop_hit _ _ _ Hhigh).
  - intros Hhigh Hlow.
    by rewrite (keyword_loop_miss _ _ _ Hhigh), (keyword_loop_hit _ _ _ Hlow).
  - intros Hhigh Hlow.
    by rewrite (keyword_loop_miss _ _ _ Hhigh), (keyword_loop_miss _ _ _ Hlow).
Qed.

Lemma priority_examples :
  _evaluate_priority (u "URGENT, though optional for later") (u "en") = 3%Z
  ∧ _evaluate_priority (u "optional, for later") (u "en") = 1%Z
  ∧ _evaluate_priority (u "write the report") (u "en") = 2%Z
  ∧ _evaluate_priority (u "尽快处理，后续可选") (u "zh") = 3%Z
  ∧ _evaluate_priority (u "urgent") (u "fr") = 2%Z.
Proof. split_and!; by_evaluation. Qed.

(** *** De-duplication of to-do items *)

Lemma unique_loop_not_seen (l : list Todo.item) (seen : gset str) (x : Todo.item) :
  x ∈ unique_loop l seen → desc_key x ∉ seen.
Proof.
  revert seen. induction l as [|a l IH]; intros seen; simpl.
  - by intros ?%elem_of_nil.
  - case_bool_decide as Ha.
    + apply IH.
    + intros [-> | Hin]%elem_of_cons; [done|].
      apply IH in Hin. set_solver.
Qed.

Lemma unique_loop_NoDup (l : list Todo.item) (seen : gset str) :
  NoDup (desc_key <$> unique_loop l seen).
Proof.
  revert seen. induction l as [|a l IH]; intros seen; simpl.
  - constructor.
  - case_bool_decide as Ha; [apply IH|].
    rewrite fmap_cons. constructor; [|apply IH].
    intros [y [Hy Hin]]%list_elem_of_fmap.
    apply unique_loop_not_seen in Hin. rewrite <- Hy in Hin. set_solver.
Qed.

Lemma unique_loop_sublist (l : list Todo.item) (seen : gset str) :
  sublist (unique_loop l seen) l.
Proof.
  revert seen. induction l as [|a l IH]; intros seen; simpl; [constructor|].
  case_bool_decide; by constructor.
Qed.

Lemma unique_loop_keeps_first (seen : gset str) (pre : list Todo.item)
    (x : Todo.item) (post : list Todo.item) :
  desc_key x ∉ seen → desc_key x ∉ desc_key <$> pre →
  x ∈ unique_loop (pre ++ x :: post) seen.
Proof.
  revert seen. induction pre as [|a pre IH]; intros seen Hseen Hpre; simpl.
  - case_bool_decide; [done | by left].
  - rewrite fmap_cons, not_elem_of_cons in Hpre. destruct Hpre as [Hne Hpre].
    case_bool_decide.
    + by apply IH.
    + right. apply IH; [|done].
      rewrite not_elem_of_union, not_elem_of_singleton. done.
Qed.

Lemma unique_loop_is_first (l : list Todo.item) (seen : gset str) (x : Todo.item) :
  x ∈ unique_loop l seen →
  ∃ pre post, l = pre ++ x :: post ∧ desc_key x ∉ desc_key <$> pre.
Proof.
  revert seen. induction l as [|a l IH]; intros seen; simpl.
  - by intros ?%elem_of_nil.
  - case_bool_decide as Ha.
    + intros Hin. pose proof (unique_loop_not_seen _ _ _ Hin) as Hx.
      destruct (IH _ Hin) as (pre & post & -> & Hpre).
      exists (a :: pre), post. split; [done|].
      rewrite fmap_cons, not_elem_of_cons. split; [congruence | done].
    + intros [-> | Hin]%elem_of_cons.
      * exists [], l. split; [done|]. apply not_elem_of_nil.
      * pose proof (unique_loop_not_seen _ _ _ Hin) as Hx.
        destruct (IH _ Hin) as (pre & post & -> & Hpre).
        exists (a :: pre), post. split; [done|].
        rewrite fmap_cons, not_elem_of_cons. split; [set_solver | done].
Qed.


(** Two spellings of one description give one item, the first. *)
Lemma dedup_example :
  Todo.description
    <$> extract_todo_items (u "TODO: Write Docs" ++ nl ++ u "todo: write docs  ") (u "en")
  = [u "Write Docs"].
Proof. by_evaluation. Qed.

(** *** The timeline *)

Lemma length_lstrip (s : str) : (length (lstrip s) ≤ length s)%nat.
Proof.
  induction s as [|c s IH]; simpl; [done|]. destruct (is_space c); simpl; lia.
Qed.

Lemma length_strip (s : str) : (length (strip s) ≤ length s)%nat.
Proof.
  unfold strip, rstrip. rewrite length_rev.
  etrans; [apply length_lstrip|]. rewrite length_rev. apply length_lstrip.
Qed.

Lemma timeline_of_sentence_fields (language : str) (sentences : list str)
    (emitted : nat) (sentence : str) (item : Timeline.item) :
  timeline_of_sentence language sentences emitted sentence = Some item →
  Timeline.event item = strip (take 50 sentence)
  ∧ Timeline.description item = sentence
  ∧ Timeline.sentence_index item = list_index sentence sentences.
Proof.
  unfold timeline_of_sentence.
  destruct (time_patterns ≫= _) as [|first rest].
  - destruct (any_keyword _ _); [|done]. by intros [= <-].
  - intros [= <-].
    cbn [Timeline.event Timeline.description Timeline.sentence_index].
    split; [|done].
    pose proof (length_strip (take 50 sentence)) as Hlen.
    rewrite length_take in Hlen.
    destruct (50 <? length (strip (take 50 sentence)))%nat eqn:Hlt; [|done].
    apply Nat.ltb_lt in Hlt. lia.
Qed.

Lemma timeline_loop_elem (language : str) (sentences todo : list str)
    (acc : list Timeline.item) (item : Timeline.item) :
  item ∈ timeline_loop language sentences todo acc →
  item ∈ acc ∨ ∃ emitted sentence, sentence ∈ todo ∧
    timeline_of_sentence language sentences emitted sentence = Some item.
Proof.
  revert acc. induction todo as [|s todo IH]; intros acc; simpl; [by left|].
  destruct (timeline_of_sentence language sentences (length acc) s) as [new|] eqn:Hs.
  - intros [Hin | (n & s' & Hs' & Hitem)]%IH.
    + apply elem_of_app in Hin as [Hin | ->%list_elem_of_singleton]; [by left|].
      right. exists (length acc), s. split; [by left | done].
    + right. exists n, s'. split; [by right | done].
  - intros [Hin | (n & s' & Hs' & Hitem)]%IH; [by left|].
    right. exists n, s'. split; [by right | done].
Qed.

Lemma insert_by_index_elem (x y : Timeline.item) (l : list Timeline.item) :
  y ∈ insert_by_index x l ↔ y = x ∨ y ∈ l.
Proof.
  induction l as [|z l IH]; simpl.
  - rewrite list_elem_of_singleton, elem_of_nil. tauto.
  - destruct (_ <=? _)%nat.
    + rewrite !elem_of_cons. tauto.
    + rewrite !elem_of_cons, IH. tauto.
Qed.

Lemma sort_by_index_elem (y : Timeline.item) (l : list Timeline.item) :
  y ∈ sort_by_index l ↔ y ∈ l.
Proof.
  induction l as [|x l IH]; simpl; [done|].
  rewrite insert_by_index_elem, IH, elem_of_cons. tauto.
Qed.

(** Every title is the stripped first 50 characters of its sentence;
    the branch that would shorten it to 47 characters and append an
    ellipsis is never taken. *)
Lemma timeline_titles (sent_tokenize : str → list str) (text language : str)
    (item : Timeline.item) :
  item ∈ extract_timeline_data sent_tokenize text language →
  Timeline.event item = strip (take 50 (Timeline.description item)).
Proof.
  unfold extract_timeline_data. rewrite sort_by_index_elem.
  intros [Hin | (n & s & _ & Hitem)]%timeline_loop_elem.
  - by apply elem_of_nil in Hin.
  - apply timeline_of_sentence_fields in Hitem as (-> & -> & _). done.
Qed.

Lemma insert_by_index_sorted (x : Timeline.item) (l : list Timeline.item) :
  Sorted index_le l → Sorted index_le (insert_by_index x l).
Proof.
  induction 1 as [|y l Hl IH Hy]; simpl.
  - by repeat constructor.
  - destruct (_ <=? _)%nat eqn:Hle.
    + apply Nat.leb_le in Hle. by repeat constructor.
    + apply Nat.leb_gt in Hle. constructor; [done|].
      destruct Hy as [|z l Hyz]; simpl.
      * constructor. unfold index_le. lia.
      * destruct (_ <=? _)%nat; constructor; unfold index_le in *; lia.
Qed.

(** The extracted events are in ascending order of [sentence_index]
    (not necessarily strictly). *)
Lemma extract_timeline_data_sorted (sent_tokenize : str → list str) (text language : str) :
  Sorted index_le (extract_timeline_data sent_tokenize text language).
Proof.
  unfold extract_timeline_data.
  generalize (timeline_loop language
    (segment_text sent_tokenize language text mode_sentence)
    (segment_text sent_tokenize language text mode_sentence) []).
  induction l as [|x l IH]; simpl; [constructor | by apply insert_by_index_sorted].
Qed.

Lemma list_index_middle (pre : list str) (s : str) (post : list str) :
  s ∉ pre → list_index s (pre ++ s :: post) = length pre.
Proof.
  induction pre as [|a pre IH]; simpl; unfold str_eqb.
  - intros _. by rewrite bool_decide_eq_true_2.
  - intros [Hne Hpre]%not_elem_of_cons.
    rewrite bool_decide_eq_false_2 by done. by rewrite IH.
Qed.

Lemma StronglySorted_lt_snoc (l : list nat) (x : nat) :
  StronglySorted lt l → Forall (fun i => i < x)%nat l → StronglySorted lt (l ++ [x]).
Proof.
  induction 1 as [|y l Hl IH Hy]; simpl; intros Hx.
  - repeat constructor.
  - apply Forall_cons in Hx as [Hyx Hx]. constructor; [by apply IH|].
    apply Forall_app. split; [done | by constructor].
Qed.

Lemma StronglySorted_lt_increasing (l : list nat) :
  StronglySorted lt l → strictly_increasing l.
Proof.
  induction 1 as [|a l Hl IH Ha]; intros i j x y Hi Hj Hij.
  - by rewrite lookup_nil in Hi.
  - destruct j as [|j]; [lia|]. simpl in Hj. destruct i as [|i]; simpl in Hi.
    + injection Hi as ->. rewrite Forall_forall in Ha.
      apply Ha, list_elem_of_lookup. eauto.
    + eapply IH; [exact Hi | exact Hj | lia].
Qed.

Lemma timeline_loop_strict (language : str) (seen todo : list str)
    (acc : list Timeline.item) :
  NoDup (seen ++ todo) →
  Forall (fun i => i < length seen)%nat (Timeline.sentence_index <$> acc) →
  StronglySorted lt (Timeline.sentence_index <$> acc) →
  StronglySorted lt
    (Timeline.sentence_index <$> timeline_loop language (seen ++ todo) todo acc).
Proof.
  revert seen acc. induction todo as [|s todo IH]; intros seen acc Hnodup Hbound Hsorted.
  - done.
  - assert (s ∉ seen) as Hs.
    { apply NoDup_app in Hnodup as (_ & Hdisj & _). intros Hin.
      apply (Hdisj s Hin). by left. }
    assert (seen ++ s :: todo = (seen ++ [s]) ++ todo) as Heq by by rewrite <- app_assoc.
    assert (Forall (fun i => i < length (seen ++ [s]))%nat
              (Timeline.sentence_index <$> acc)) as Hbound'.
    { eapply Forall_impl; [exact Hbound|]. intros i Hi. cbv beta in Hi.
      rewrite length_app. simpl. lia. }
    cbn [timeline_loop].
    destruct (timeline_of_sentence language (seen ++ s :: todo) (length acc) s)
      as [item|] eqn:Hitem.
    + apply timeline_of_sentence_fields in Hitem as (_ & _ & Hindex).
      rewrite list_index_middle in Hindex by done.
      rewrite Heq. apply IH.
      * by rewrite <- Heq.
      * rewrite fmap_app. apply Forall_app. split; [done|].
        constructor; [|constructor]. cbn. rewrite Hindex, length_app. simpl. lia.
      * rewrite fmap_app. cbn. rewrite Hindex. by apply StronglySorted_lt_snoc.
    + rewrite Heq. apply IH; [by rewrite <- Heq | done | done].
Qed.

Lemma sort_by_index_sorted (l : list Timeline.item) :
  StronglySorted lt (Timeline.sentence_index <$> l) → sort_by_index l = l.
Proof.
  induction l as [|x l IH]; [done|]. rewrite fmap_cons.
  intros [Hl Hx]%StronglySorted_inv. cbn [sort_by_index foldr].
  change (foldr insert_by_index [] l) with (sort_by_index l). rewrite IH by done.
  destruct l as [|y l]; [done|]. cbn [insert_by_index].
  apply Forall_cons in Hx as [Hxy _].
  destruct (Nat.leb_spec (Timeline.sentence_index x) (Timeline.sentence_index y)); [done|lia].
Qed.

(** When the sentences of the text are pairwise distinct, the events
    come out in scan order and their indices are strictly increasing. *)
Lemma distinct_sentences_strictly_increasing (sent_tokenize : str → list str)
    (text language : str) :
  NoDup (segment_text sent_tokenize language text mode_sentence) →
  strictly_increasing
    (Timeline.sentence_index <$> extract_timeline_data sent_tokenize text language).
Proof.
  intros Hnodup. unfold extract_timeline_data.
  pose proof (timeline_loop_strict language []
                (segment_text sent_tokenize language text mode_sentence) []
                Hnodup (Forall_nil_2 _) (SSorted_nil _)) as Hsorted.
  cbn [app] in Hsorted.
  rewrite sort_by_index_sorted by done. by apply StronglySorted_lt_increasing.
Qed.

(** C2: on a text with two identical sentences that both produce an
    event, both events carry the index of the first of the two (the
    value of [sentences.index]), so the indices are not strictly
    increasing. *)
Theorem repeated_sentences_share_index (sent_tokenize : str → list str) :
  let events := extract_timeline_data sent_tokenize repeated_sentences (u "zh") in
  segment_text sent_tokenize (u "zh") repeated_sentences mode_sentence
    = [u "决定A"; u "决定A"]
  ∧ Timeline.time <$> events = [u "事件_0"; u "事件_1"]
  ∧ Timeline.sentence_index <$> events = [0%nat; 0%nat]
  ∧ ¬ strictly_increasing (Timeline.sentence_index <$> events).
Proof.
  cbn zeta.
  assert (Timeline.sentence_index
            <$> extract_timeline_data sent_tokenize repeated_sentences (u "zh")
          = [0%nat; 0%nat]) as Hindex by by_evaluation.
  split_and!; [by_evaluation | by_evaluation | exact Hindex |].
  rewrite Hindex. intros Hinc.
  specialize (Hinc 0%nat 1%nat 0%nat 0%nat eq_refl eq_refl). lia.
Qed.

(** C9: the title of the event of a sentence of more than 50
    characters is its first 50 characters, with no ellipsis marker
    appended; the description is the whole sentence. *)
Theorem long_sentence_title_has_no_ellipsis (sent_tokenize : str → list str) :
  (50 < length long_sentence)%nat
  ∧ extract_timeline_data sent_tokenize long_sentence (u "zh")
    = [ {| Timeline.time := u "10:30";
           Timeline.event := take 50 long_sentence;
           Timeline.description := long_sentence;
           Timeline.sentence_index := 0;
           Timeline.has_time := true |} ]
  ∧ ¬ u "..." `suffix_of` take 50 long_sentence.
Proof.
  split_and!; [vm_compute; lia | by_evaluation |].
  apply (bool_decide_eq_false_1 _). by_evaluation.
Qed.

(** *** Scenarios of action-item extraction *)

(** C6, as stated, fails: the extraction yields no item on scenario A. *)
Lemma scenario_A_refuted : ¬ scenario_A_claim.
Proof. intros (item & Hitems & _). vm_compute in Hitems. discriminate. Qed.

(** C6 (amended): on scenario A the extraction yields no item: the
    only match of the obligation patterns captures the two characters
    of the name, and a description of at most 3 characters is
    dropped.  On the whole text, the assignee derivation returns a
    text that contains the name, the due-date derivation returns the
    date, and the priority is medium. *)
Theorem scenario_A_yields_no_item :
  extract_todo_items scenario_A (u "zh") = []
  ∧ obligation_matches scenario_A (u "zh") = [FStr (u "张三")]
  ∧ length (u "张三") = 2%nat
  ∧ _extract_assignee scenario_A (u "zh") = u "需要张三"
  ∧ _extract_due_date scenario_A (u "zh") = Some (u "12月30日")
  ∧ _evaluate_priority scenario_A (u "zh") = 2%Z.
Proof. split_and!; by_evaluation. Qed.

(** C7, as stated, fails: the extraction yields no item on scenario B. *)
Lemma scenario_B_refuted : ¬ scenario_B_claim.
Proof. intros (item & Hitems & _). vm_compute in Hitems. discriminate. Qed.

(** C7 (amended): on scenario B the extraction yields no item, because
    no obligation pattern of the English table matches the text; the
    priority of the text itself is high. *)
Theorem scenario_B_yields_no_item :
  extract_todo_items scenario_B (u "en") = []
  ∧ obligation_matches scenario_B (u "en") = []
  ∧ _evaluate_priority scenario_B (u "en") = 3%Z.
Proof. split_and!; by_evaluation. Qed.

(** *** The fallback summary *)

Lemma fallback_is_first_paragraphs (sent_tokenize : str → list str) (text language : str) :
  _generate_fallback_summary sent_tokenize text language = first_paragraphs text.
Proof.
  unfold _generate_fallback_summary, first_paragraphs, segment_text.
  destruct (length (paragraphs text) <=? 3)%nat eqn:Hlen.
  - apply Nat.leb_le in Hlen. rewrite take_ge by done.
    rewrite decide_False by lia. by rewrite app_nil_r.
  - apply Nat.leb_gt in Hlen. by rewrite decide_True by lia.
Qed.

Lemma service_failure_raises (requests_post : request → post_outcome)
    (api_key : option str) (text language : str) :
  service_failure (requests_post (build_request api_key text language)) →
  ∃ e, call_service requests_post api_key text language = inl e.
Proof.
  unfold call_service. intros Hfail.
  destruct Hfail as [ | status body Hstatus | status | status body e Hbody ].
  - by eexists.
  - unfold raise_for_status.
    replace ((400 <=? status)%Z && (status <? 600)%Z) with true
      by (symmetry; apply andb_true_iff; split; [apply Z.leb_le | apply Z.ltb_lt]; lia).
    by eexists.
  - unfold raise_for_status. destruct (_ && _); by eexists.
  - unfold raise_for_status. destruct (_ && _); [by eexists|].
    cbn. rewrite Hbody. by eexists.
Qed.


(** A completion that is present but is not a string is not a failure
    of the call: it is returned as it is, and parsing it raises. *)
Lemma null_completion_raises (api_key : option str) (sent_tokenize : str → list str)
    (now text language : str) :
  generate_summary (fun _ => null_completion) api_key sent_tokenize now text language
  = inl TypeError.
Proof. reflexivity. Qed.

(** The summary text for some outcomes of the request: a time-out, an
    error status, a body that is not JSON and a body without
    completion give the fallback; a completion is returned as it is. *)
Lemma service_outcome_examples :
  let summary_of (response : post_outcome) :=
    Summary.summary_text
      <$> generate_summary (fun _ => response) None sample_tokenize
            (u "2024-12-27T10:30:00") sample_text (u "zh") in
  summary_of PostRaises = inr (first_paragraphs sample_text)
  ∧ summary_of (PostResponse 503 (Some (completion (pstr "会议主题：预算"))))
    = inr (first_paragraphs sample_text)
  ∧ summary_of (PostResponse 200 None) = inr (first_paragraphs sample_text)
  ∧ summary_of (PostResponse 200 (Some (dict_str [("error", pstr "overloaded")])))
    = inr (first_paragraphs sample_text)
  ∧ summary_of (PostResponse 200 (Some (completion (pstr "会议主题：预算"))))
    = inr (u "会议主题：预算").
Proof. split_and!; by_evaluation. Qed.


(** *** Serialization *)

Lemma pyval_ind' (P : pyval → Prop) :
  P PNone → (∀ b, P (PBool b)) → (∀ x, P (PNum x)) → (∀ s, P (PStr s)) →
  (∀ l, Forall P l → P (PList l)) →
  (∀ kvs, Forall (fun kv => P kv.2) kvs → P (PDict kvs)) →
  P PFunction → ∀ v, P v.
Proof.
  intros HNone HBool HNum HStr HList HDict HFun.
  fix IH 1. intros [ | b | x | s | l | kvs | ].
  - apply HNone.
  - apply HBool.
  - apply HNum.
  - apply HStr.
  - apply HList. induction l as [|v l IHl]; constructor; [apply IH | apply IHl].
  - apply HDict. induction kvs as [|[k v] kvs IHl]; constructor; [apply IH | apply IHl].
  - apply HFun.
Qed.

Lemma has_function_PList (l : list pyval) :
  has_function (PList l) = existsb has_function l.
Proof. reflexivity. Qed.

Lemma has_function_PDict (kvs : list (str * pyval)) :
  has_function (PDict kvs) = existsb (fun kv => has_function kv.2) kvs.
Proof. reflexivity. Qed.

Lemma has_function_dict_str (pre : list (string * pyval)) (k : string) (v : pyval)
    (post : list (string * pyval)) :
  has_function v = true → has_function (dict_str (pre ++ (k, v) :: post)) = true.
Proof.
  intros Hv. unfold dict_str. rewrite has_function_PDict, fmap_app, fmap_cons.
  rewrite existsb_app. cbn [existsb prod_map fst snd id]. cbn.
  rewrite Hv. by rewrite orb_true_r.
Qed.

Lemma encode_items_raises {A} (f : A → outcome str) (l : list A) :
  Forall (fun x => ∀ e, f x = inl e → e = TypeError) l →
  (∀ e, encode_items f l = inl e → e = TypeError)
  ∧ (Exists (fun x => f x = inl TypeError) l → encode_items f l = inl TypeError).
Proof.
  induction 1 as [|x l Hx Hl [IHe IHf]]; simpl.
  - split; [done | by intros ?%Exists_nil].
  - destruct (f x) as [e|chunk] eqn:Hfx; cbn.
    + rewrite (Hx e eq_refl). split; [by intros ? [= <-] | done].
    + destruct (encode_items f l) as [e|chunks]; cbn.
      * rewrite (IHe e eq_refl). split; [by intros ? [= <-] | done].
      * split; [done|]. intros [Hbad | Hbad]%Exists_cons; [congruence | by apply IHf in Hbad].
Qed.

(** The encoder raises nothing but [TypeError], and it raises on every
    value that holds a function. *)
Lemma encode_raises (float_repr : Q → str) (v : pyval) : ∀ level,
  (∀ e, encode float_repr level v = inl e → e = TypeError)
  ∧ (has_function v = true → encode float_repr level v = inl TypeError).
Proof.
  induction v as [ | b | x | s | l IH | kvs IH | ] using pyval_ind'; intros level.
  - done.
  - by destruct b.
  - by destruct x.
  - done.
  - destruct l as [|v l]; [done|]. rewrite has_function_PList.
    cbn [encode].
    destruct (encode_items_raises (encode float_repr (S level)) (v :: l)) as [He Hf].
    { eapply Forall_impl; [exact IH|]. intros y Hy. apply Hy. }
    destruct (encode_items _ (v :: l)) as [e|items] eqn:Hitems; cbn.
    + rewrite (He e eq_refl). split; [by intros ? [= <-] | done].
    + split; [done|]. intros Hex. exfalso.
      assert (@inr exn (list str) items = inl TypeError) as Habs; [|discriminate].
      apply Hf. apply (existsb_exists has_function (v :: l)) in Hex as (y & Hy & Hfun).
      apply Exists_exists. exists y. split; [by apply list_elem_of_In|].
      rewrite Forall_forall in IH. by apply IH; [apply list_elem_of_In|].
  - destruct kvs as [|kv kvs]; [done|]. rewrite has_function_PDict.
    cbn [encode].
    set (f := fun kv : str * pyval =>
                chunk ← encode float_repr (S level) kv.2;
                mret (encode_string kv.1 ++ u ": " ++ chunk)).
    assert (∀ y : str * pyval,
      (∀ e, encode float_repr (S level) y.2 = inl e → e = TypeError) →
      ∀ e, f y = inl e → e = TypeError) as Hferr.
    { intros y Hy e. unfold f. destruct (encode float_repr (S level) y.2) eqn:Hy2; cbn.
      - intros [= <-]. by apply Hy.
      - done. }
    destruct (encode_items_raises f (kv :: kvs)) as [He Hf].
    { eapply Forall_impl; [exact IH|]. intros y Hy. apply Hferr, Hy. }
    destruct (encode_items _ (kv :: kvs)) as [e|items] eqn:Hitems; cbn.
    + rewrite (He e eq_refl). split; [by intros ? [= <-] | done].
    + split; [done|]. intros Hex. exfalso.
      assert (@inr exn (list str) items = inl TypeError) as Habs; [|discriminate].
      apply Hf.
      apply (existsb_exists (fun kv => has_function kv.2) (kv :: kvs)) in Hex
        as (y & Hy & Hfun).
      apply Exists_exists. exists y. split; [by apply list_elem_of_In|].
      rewrite Forall_forall in IH. unfold f.
      rewrite (proj2 (IH y ltac:(by apply list_elem_of_In) (S level)) Hfun). done.
  - split; [by intros ? [= <-] | done].
Qed.

Lemma encode_items_returns {A} (f : A → outcome str) (l : list A) :
  Forall (fun x => ∃ s, f x = inr s) l → ∃ ss, encode_items f l = inr ss.
Proof.
  induction 1 as [|x l [s Hs] _ [ss Hss]]; simpl.
  - by eexists.
  - rewrite Hs. cbn. rewrite Hss. cbn. by eexists.
Qed.

(** On a value without functions the encoder returns a rendering. *)
Lemma encode_returns (float_repr : Q → str) (v : pyval) : ∀ level,
  has_function v = false → ∃ s, encode float_repr level v = inr s.
Proof.
  induction v as [ | b | x | s | l IH | kvs IH | ] using pyval_ind'; intros level Hv.
  - by eexists.
  - destruct b; by eexists.
  - destruct x; by eexists.
  - by eexists.
  - destruct l as [|v l]; [by eexists|]. rewrite has_function_PList in Hv.
    cbn [encode].
    destruct (encode_items_returns (encode float_repr (S level)) (v :: l)) as [ss Hss].
    { rewrite Forall_forall in IH |- *. intros y Hy. apply IH; [done|].
      destruct (has_function y) eqn:Hfun; [|done].
      rewrite <- Hv. symmetry. apply existsb_exists. exists y.
      split; [by apply list_elem_of_In | done]. }
    rewrite Hss. cbn. by eexists.
  - destruct kvs as [|kv kvs]; [by eexists|]. rewrite has_function_PDict in Hv.
    cbn [encode].
    match goal with
    | |- context [encode_items ?f (kv :: kvs)] =>
      destruct (encode_items_returns f (kv :: kvs)) as [ss Hss]
    end.
    { rewrite Forall_forall in IH |- *. intros y Hy.
      destruct (IH y Hy (S level)) as [s Hs].
      - destruct (has_function y.2) eqn:Hfun; [|done].
        rewrite <- Hv. symmetry.
        apply (existsb_exists (fun kv => has_function kv.2)). exists y.
        split; [by apply list_elem_of_In | done].
      - rewrite Hs. cbn. by eexists. }
    rewrite Hss. cbn. by eexists.
  - discriminate.
Qed.

Lemma chart_has_function (timeline_data : list Timeline.item) (language : str) :
  has_function (create_timeline_chart timeline_data language) = true.
Proof.
  unfold create_timeline_chart.
  match goal with
  | |- has_function (dict_str [?a; ?b; ?c; ?d; ?e; (?k, ?v)]) = true =>
    apply (has_function_dict_str [a; b; c; d; e] k v [])
  end.
  rewrite has_function_PList. cbn [existsb]. rewrite orb_false_r.
  match goal with
  | |- has_function (dict_str [?a; ?b; (?k, ?v); ?d; ?e]) = true =>
    apply (has_function_dict_str [a; b] k v [d; e])
  end.
  done.
Qed.

Lemma result_has_function (r : Minutes.result) :
  has_function (Minutes.chart_config (Minutes.timeline r)) = true →
  has_function (py_of_result r) = true.
Proof.
  intros Hchart. unfold py_of_result.
  match goal with
  | |- has_function (dict_str [?a; ?b; ?c; (?k, ?v); ?e; ?f]) = true =>
    apply (has_function_dict_str [a; b; c] k v [e; f])
  end.
  match goal with
  | |- has_function (dict_str [?a; (?k, ?v)]) = true =>
    apply (has_function_dict_str [a] k v [])
  end.
  done.
Qed.

Lemma process_meeting_text_inv
    (sent_tokenize word_tokenize : str → list str) (jieba_cut : option (str → list str))
    (requests_post : request → post_outcome) (api_key : option str)
    (read_text : str → option str) (docx_paragraphs : str → option (list str))
    (summary_time processing_time file_path language : str) (r : Minutes.result) :
  process_meeting_text sent_tokenize word_tokenize jieba_cut requests_post api_key
    read_text docx_paragraphs summary_time processing_time file_path language = inr r →
  ∃ raw_text summary_data,
    parse_text_file read_text docx_paragraphs file_path = inr raw_text
    ∧ let processed_text := preprocess_text text_processor_language raw_text in
      generate_summary requests_post api_key sent_tokenize summary_time
        processed_text language = inr summary_data
      ∧ Minutes.text_processing r =
          {| Minutes.raw_text_sample := take 500 raw_text;
             Minutes.processed_text_sample := take 500 processed_text;
             Minutes.quality_report :=
               evaluate_text_quality sent_tokenize word_tokenize jieba_cut
                 text_processor_language processed_text |}
      ∧ Minutes.summary r = summary_data
      ∧ Minutes.todo_items r = extract_todo_items processed_text language
      ∧ Minutes.timeline r =
          {| Minutes.data := extract_timeline_data sent_tokenize processed_text language;
             Minutes.chart_config :=
               create_timeline_chart
                 (extract_timeline_data sent_tokenize processed_text language) language |}
      ∧ Minutes.language r = language.
Proof.
  unfold process_meeting_text.
  destruct (parse_text_file _ _ _) as [e|raw_text]; [done|]. cbn.
  destruct (generate_summary _ _ _ _ _ _) as [e|summary_data] eqn:Hsummary; [done|]. cbn.
  intros [= <-]. exists raw_text, summary_data. cbn zeta.
  cbn [Minutes.text_processing Minutes.summary Minutes.todo_items Minutes.timeline
       Minutes.language].
  done.
Qed.

(** C1: the canonical rendering of the result of a run does not
    exist: the chart configuration of every result holds a function
    (the [symbolSize] of the series), on which [json.dumps] raises
    [TypeError]; there is nothing to parse back. *)
Theorem export_results_json_raises
    (sent_tokenize word_tokenize : str → list str) (jieba_cut : option (str → list str))
    (requests_post : request → post_outcome) (api_key : option str)
    (float_repr : Q → str)
    (read_text : str → option str) (docx_paragraphs : str → option (list str))
    (summary_time processing_time file_path language : str) (r : Minutes.result) :
  process_meeting_text sent_tokenize word_tokenize jieba_cut requests_post api_key
    read_text docx_paragraphs summary_time processing_time file_path language = inr r →
  export_results_json float_repr r = inl TypeError.
Proof.
  intros (raw_text & summary_data & _ & _ & _ & _ & _ & Htimeline & _)%process_meeting_text_inv.
  unfold export_results_json, json_dumps.
  apply encode_raises, result_has_function.
  rewrite Htimeline. apply chart_has_function.
Qed.

(** C1 on the sample run. *)
Lemma export_results_json_raises_witness :
  ∃ r, sample_run = inr r ∧ export_results_json sample_float_repr r = inl TypeError.
Proof.
  assert (∃ r, sample_run = inr r) as [r Hr] by (vm_compute; eexists; reflexivity).
  exists r. split; [exact Hr|].
  exact (export_results_json_raises sample_tokenize sample_tokenize None sample_post None
           sample_float_repr sample_read_text sample_docx _ _ _ _ r Hr).
Defined.

(** *** The processor of the assistant *)

Lemma evaluate_text_quality_zh (sent_tokenize word_tokenize : str → list str)
    (jieba_cut : option (str → list str)) (text : str) :
  let report := evaluate_text_quality sent_tokenize word_tokenize jieba_cut (u "zh") text in
  Quality.char_count report = length text
  ∧ Quality.word_count report
    = length (from_option (fun cut => cut text) ((fun c => [c]) <$> text) jieba_cut)
  ∧ Quality.sentence_count report
    = length (stripped_nonempty (split no_flags (plus (CIn (chars "。！？；"))) text))
  ∧ Quality.language_detected report = u "zh"
  ∧ Quality.readability_score report
    = cjk_readability (Quality.char_count report) (Quality.sentence_count report)
        (Quality.word_count report).
Proof.
  cbn zeta. unfold evaluate_text_quality.
  cbn [Quality.char_count Quality.word_count Quality.sentence_count
       Quality.language_detected Quality.readability_score].
  unfold tokenize_words, segment_text.
  replace (is_zh (u "zh")) with true by by_evaluation.
  replace (is_en (u "zh")) with false by by_evaluation.
  replace (str_eqb (u "zh") (u "auto")) with false by by_evaluation.
  split_and!; [done | by destruct jieba_cut | done | done |].
  unfold cjk_readability.
  match goal with
  | |- context [(0 <? ?sc)%nat && (0 <? ?wc)%nat] =>
    destruct (Nat.ltb_spec 0 sc) as [Hs|Hs]; [destruct (Nat.ltb_spec 0 wc) as [Hw|Hw]|]
  end; cbn [andb].
  - rewrite decide_False by lia. done.
  - rewrite decide_True by lia. done.
  - rewrite decide_True by lia. done.
Qed.



(** On the sample run, with the language ['en'], the 15 characters
    left by the Chinese allow-list form one sentence, and the
    readability is 100 - 15 / 10. *)
Lemma sample_run_readability :
  (Minutes.processed_text_sample ∘ Minutes.text_processing) <$> sample_run
    = inr (u "Hello world Bye")
  ∧ (Quality.readability_score ∘ Minutes.quality_report ∘ Minutes.text_processing)
      <$> sample_run = inr (Float 98.50)
  ∧ (Quality.language_detected ∘ Minutes.quality_report ∘ Minutes.text_processing)
      <$> sample_run = inr (u "zh").
Proof. split_and!; by_evaluation. Qed.


(** ** Further properties *)

(** *** The matcher *)

Lemma substring_refl (s : str) : substring s s.
Proof. exists [], []. by rewrite app_nil_r. Qed.

Lemma substring_nil (s : str) : substring [] s.
Proof. by exists [], s. Qed.

Lemma substring_trans (a b c : str) : substring a b → substring b c → substring a c.
Proof.
  intros (p1 & q1 & ->) (p2 & q2 & ->). exists (p2 ++ p1), (q1 ++ q2).
  by rewrite <- !app_assoc.
Qed.

Lemma suffix_substring (a b : str) : a `suffix_of` b → substring a b.
Proof. intros [k ->]. exists k, []. by rewrite app_nil_r. Qed.

Lemma prefix_substring (a b : str) : a `prefix_of` b → substring a b.
Proof. intros [k ->]. by exists [], k. Qed.

Lemma rep_max_inv {A} (p : cp → bool) (s : str) :
  ∀ (lo : nat) (hi : option nat) (prev : option cp) (k : option cp → str → option A) (x : A),
  rep_max p lo hi prev s k = Some x →
  ∃ w p' s', s = w ++ s' ∧ (lo ≤ length w)%nat ∧ Forall (fun c => p c = true) w
             ∧ k p' s' = Some x.
Proof.
  induction s as [|c s IH]; intros lo hi prev k x H.
  - assert (match lo with O => k prev [] | S _ => None end = Some x) as Hstop.
    { destruct hi as [[|h]|]; exact H. }
    destruct lo; [|done]. exists [], prev, []. by split_and!.
  - assert (match lo with O => k prev (c :: s) | S _ => None end = Some x
            ∨ (p c = true
               ∧ rep_max p (Nat.pred lo) (pred_bound hi) (Some c) s k = Some x)) as [Hstop|[Hc Hrec]].
    { cbn [rep_max] in H. revert H. destruct hi as [[|h]|]; [by left| |].
      - destruct (p c); [|by left].
        destruct (rep_max p (Nat.pred lo) (pred_bound (Some (S h))) (Some c) s k) eqn:Hr;
          [by right | by left].
      - destruct (p c); [|by left].
        destruct (rep_max p (Nat.pred lo) (pred_bound None) (Some c) s k) eqn:Hr;
          [by right | by left]. }
    + destruct lo; [|done]. exists [], prev, (c :: s). by split_and!.
    + apply IH in Hrec as (w & p' & s' & -> & Hlo & Hw & Hk).
      exists (c :: w), p', s'. split_and!; [done | simpl; lia | by constructor | done].
Qed.

Lemma rep_min_inv {A} (p : cp → bool) (s : str) :
  ∀ (lo : nat) (hi : option nat) (prev : option cp) (k : option cp → str → option A) (x : A),
  rep_min p lo hi prev s k = Some x →
  ∃ w p' s', s = w ++ s' ∧ (lo ≤ length w)%nat ∧ Forall (fun c => p c = true) w
             ∧ k p' s' = Some x.
Proof.
  induction s as [|c s IH]; intros lo hi prev k x H.
  - assert (lo = O ∧ k prev [] = Some x) as [-> Hk].
    { cbn [rep_min] in H. destruct lo.
      - destruct (k prev []) eqn:Hk; [by simplify_eq|]. by destruct hi as [[|h]|].
      - by destruct hi as [[|h]|]. }
    exists [], prev, []. by split_and!.
  - assert ((lo = O ∧ k prev (c :: s) = Some x)
            ∨ (p c = true
               ∧ rep_min p (Nat.pred lo) (pred_bound hi) (Some c) s k = Some x)) as [[-> Hk]|[Hc Hrec]].
    { cbn [rep_min] in H.
      assert (match hi with
              | Some O => None
              | _ => if p c then rep_min p (Nat.pred lo) (pred_bound hi) (Some c) s k else None
              end = Some x → p c = true
               ∧ rep_min p (Nat.pred lo) (pred_bound hi) (Some c) s k = Some x) as Hmore.
      { destruct hi as [[|h]|]; [done| |]; by destruct (p c). }
      destruct lo.
      - destruct (k prev (c :: s)) eqn:Hk; [left; by simplify_eq|]. right. by apply Hmore.
      - right. by apply Hmore. }
    + exists [], prev, (c :: s). by split_and!.
    + apply IH in Hrec as (w & p' & s' & -> & Hlo & Hw & Hk).
      exists (c :: w), p', s'. split_and!; [done | simpl; lia | by constructor | done].
Qed.

Lemma captures_in_insert (text : str) (g : groups) (i : nat) (t : str) :
  captures_in text g → substring t text → captures_in text (<[i := Some t]> g).
Proof.
  intros Hg Ht. apply Forall_insert; [done|]. by intros ? [= <-].
Qed.

Lemma take_consumed (w s' : str) : take (length (w ++ s') - length s') (w ++ s') = w.
Proof.
  rewrite length_app. replace (length w + length s' - length s')%nat with (length w) by lia.
  by rewrite take_app_length.
Qed.

(** The matcher hands to the rest of the pattern a suffix of its
    input, and groups that are pieces of the text. *)
Lemma rmatch_inv (fl : flags) (text : str) (r : regex) :
  ∀ (A : Set) (prev : option cp) (s : str) (g : groups)
    (k : option cp → str → groups → option A) (x : A),
  s `suffix_of` text → captures_in text g →
  rmatch fl r prev s g k = Some x →
  ∃ p' s' g', k p' s' g' = Some x ∧ s' `suffix_of` s ∧ captures_in text g'
              ∧ length g' = length g.
Proof.
  induction r as [ | cs | a IHa b IHb | a IHa b IHb | n a IHa | greedy lo hi cs
                   | a IHa | a IHa | | ];
    intros A prev s g k x Hs Hg H; cbn [rmatch] in H.
  - by exists prev, s, g.
  - destruct s as [|c s]; [done|]. destruct (cset_match fl cs c); [|done].
    exists (Some c), s, g. split_and!; [done | by apply suffix_cons_r | done | done].
  - apply IHa in H as (p1 & s1 & g1 & H & Hs1 & Hg1 & Hl1); [|done..].
    apply IHb in H as (p2 & s2 & g2 & H & Hs2 & Hg2 & Hl2); [|by etrans|done].
    exists p2, s2, g2. split_and!; [done | by etrans | done | congruence].
  - destruct (rmatch fl a prev s g k) eqn:Ha.
    + injection H as ->. by apply IHa in Ha.
    + by apply IHb in H.
  - apply IHa in H as (p1 & s1 & g1 & H & Hs1 & Hg1 & Hl1); [|done..].
    exists p1, s1, (<[Nat.pred n := Some (take (length s - length s1) s)]> g1).
    split_and!; [done | done | | rewrite <- Hl1; apply length_insert].
    apply captures_in_insert; [done|].
    destruct Hs1 as [w ->]. rewrite take_consumed.
    eapply substring_trans; [|by apply suffix_substring].
    by apply prefix_substring, prefix_app_r.
  - destruct greedy.
    + apply rep_max_inv in H as (w & p' & s' & -> & _ & _ & H).
      exists p', s', g. split_and!; [done | by apply suffix_app_r | done | done].
    + apply rep_min_inv in H as (w & p' & s' & -> & _ & _ & H).
      exists p', s', g. split_and!; [done | by apply suffix_app_r | done | done].
  - destruct (rmatch fl a prev s g k) eqn:Ha.
    + injection H as ->. by apply IHa in Ha.
    + by exists prev, s, g.
  - destruct (rmatch fl a prev s g (fun _ _ g' => Some g')) as [g1|] eqn:Ha; [|done].
    apply IHa in Ha as (p1 & s1 & g1' & [= ->] & _ & Hg1 & Hl1); [|done..].
    by exists prev, s, g1.
  - destruct (at_end fl s); [|done]. by exists prev, s, g.
  - destruct (at_word_boundary prev s); [|done]. by exists prev, s, g.
Qed.

(** A match at a position: its text is the front of the input there,
    its groups are pieces of the text, one per group of the pattern. *)
Lemma match_here_inv (fl : flags) (text : str) (r : regex) (must_advance : bool)
    (prev : option cp) (s : str) (n : nat) (m : match_obj) :
  s `suffix_of` text → match_here fl r must_advance prev s = Some (n, m) →
  ∃ s', s = m_text m ++ s' ∧ length (m_text m) = n
        ∧ captures_in text (m_groups m) ∧ length (m_groups m) = ngroups r
        ∧ (must_advance = true → n ≠ O).
Proof.
  intros Hs H. unfold match_here in H.
  apply (rmatch_inv fl text) in H as (p' & s' & g' & H & [w ->] & Hg & Hl); [|done|].
  - rewrite take_consumed in H.
    replace (length (w ++ s') - length s')%nat with (length w) in H
      by (rewrite length_app; lia).
    destruct (must_advance && (length w =? 0)%nat) eqn:Hadv; [done|].
    injection H as <- <-. exists s'. cbn. split_and!; [done | done | done | |].
    + by rewrite Hl, length_replicate.
    + intros ->. cbn in Hadv. by apply Nat.eqb_neq in Hadv.
  - apply Forall_replicate. by intros t [=].
Qed.

Lemma search_from_unfold (fl : flags) (r : regex) (prev : option cp) (s : str) :
  search_from fl r prev s =
  match match_here fl r false prev s with
  | Some (_, m) => Some m
  | None =>
    match s with
    | [] => None
    | c :: s' => search_from fl r (Some c) s'
    end
  end.
Proof. by destruct s. Qed.

(** What [re.search] returns is a piece of the text, and so are its
    groups. *)
Lemma search_inv (fl : flags) (r : regex) (text : str) (m : match_obj) :
  search fl r text = Some m →
  substring (m_text m) text ∧ captures_in text (m_groups m)
  ∧ length (m_groups m) = ngroups r.
Proof.
  unfold search.
  assert (∀ s prev, s `suffix_of` text → search_from fl r prev s = Some m →
            substring (m_text m) text ∧ captures_in text (m_groups m)
            ∧ length (m_groups m) = ngroups r) as Hgen; [|by apply Hgen].
  induction s as [|c s IH]; intros prev Hs; rewrite search_from_unfold;
    destruct (match_here fl r false prev _) as [[n m']|] eqn:Hm; try done.
  - intros [= ->]. apply (match_here_inv fl text) in Hm as (s' & Hs' & _ & Hg & Hl & _); [|done].
    split_and!; [|done..]. eapply substring_trans; [|by apply suffix_substring].
    rewrite Hs'. by apply prefix_substring, prefix_app_r.
  - intros [= ->]. apply (match_here_inv fl text) in Hm as (s' & Hs' & _ & Hg & Hl & _); [|done].
    split_and!; [|done..]. eapply substring_trans; [|by apply suffix_substring].
    rewrite Hs'. by apply prefix_substring, prefix_app_r.
  - apply IH. by eapply suffix_cons_l.
Qed.

Lemma match_here_in (fl : flags) (text : str) (r : regex) (must_advance : bool)
    (prev : option cp) (s : str) (n : nat) (m : match_obj) :
  s `suffix_of` text → match_here fl r must_advance prev s = Some (n, m) →
  match_in text r m.
Proof.
  intros Hs Hm. apply (match_here_inv fl text) in Hm as (s' & Hs' & _ & Hg & Hl & _); [|done].
  split_and!; [|done..]. eapply substring_trans; [|by apply suffix_substring].
  rewrite Hs'. by apply prefix_substring, prefix_app_r.
Qed.

(** Every match found by the scanner is a piece of the text. *)
Lemma scan_matches (fl : flags) (text : str) (r : regex) :
  ∀ (s : str) (prev : option cp) (skip : nat) (gap : str)
    (ms : list (str * match_obj)) (tl : str),
  s `suffix_of` text → scan fl r s prev skip gap = (ms, tl) →
  Forall (fun gm : str * match_obj => match_in text r gm.2) ms.
Proof.
  induction s as [|c s IH]; intros prev skip gap ms tl Hs H;
    destruct skip as [|skip]; cbn [scan] in H.
  - destruct (match_here fl r false prev []) as [[[|n] m]|] eqn:Hm.
    + injection H as <- <-. apply Forall_cons_2; [|constructor].
      eapply match_here_in; [exact Hs | exact Hm].
    + injection H as <- <-. apply Forall_cons_2; [|constructor].
      eapply match_here_in; [exact Hs | exact Hm].
    + injection H as <- <-. constructor.
  - simplify_eq. constructor.
  - assert (s `suffix_of` text) as Hs' by by eapply suffix_cons_l.
    destruct (match_here fl r false prev (c :: s)) as [[[|n] m]|] eqn:Hm.
    + destruct (match_here fl r true prev (c :: s)) as [[n2 m2]|] eqn:Hm2.
      * destruct (scan fl r s (Some c) (Nat.pred n2) []) as [ms' tl'] eqn:Hscan.
        simplify_eq.
        apply Forall_cons_2; [eapply match_here_in; [exact Hs | exact Hm]|].
        apply Forall_cons_2; [eapply match_here_in; [exact Hs | exact Hm2] | by eapply IH].
      * destruct (scan fl r s (Some c) O [c]) as [ms' tl'] eqn:Hscan.
        simplify_eq.
        apply Forall_cons_2; [eapply match_here_in; [exact Hs | exact Hm] | by eapply IH].
    + destruct (scan fl r s (Some c) n []) as [ms' tl'] eqn:Hscan.
      simplify_eq.
        apply Forall_cons_2; [eapply match_here_in; [exact Hs | exact Hm] | by eapply IH].
    + by eapply IH.
  - eapply IH; [|exact H]. by eapply suffix_cons_l.
Qed.

Lemma finditer_in (fl : flags) (r : regex) (text : str) :
  Forall (match_in text r) (finditer fl r text).
Proof.
  unfold finditer. destruct (scan fl r text None O []) as [ms tl] eqn:Hscan.
  apply (scan_matches fl text) in Hscan; [|done]. cbn.
  induction Hscan; constructor; done.
Qed.

(** The scanner loses nothing: the unmatched pieces and the matches, in
    order, followed by the rest, are the text. *)
Lemma scan_reconstruct (fl : flags) (r : regex) :
  ∀ (s : str) (prev : option cp) (skip : nat) (gap : str)
    (ms : list (str * match_obj)) (tl : str),
  (skip ≤ length s)%nat → scan fl r s prev skip gap = (ms, tl) →
  concat ((fun gm : str * match_obj => gm.1 ++ m_text gm.2) <$> ms) ++ tl
  = rev gap ++ drop skip s.
Proof.
  induction s as [|c s IH]; intros prev skip gap ms tl Hskip H;
    destruct skip as [|skip]; cbn [scan] in H.
  - destruct (match_here fl r false prev []) as [[n m]|] eqn:Hm.
    + apply (match_here_inv fl []) in Hm as (s' & Hs' & Hn & _); [|done].
      symmetry in Hs'. apply app_eq_nil in Hs' as [Hm ->].
      destruct n; simplify_eq; cbn; by rewrite Hm, !app_nil_r.
    + simplify_eq. cbn. by rewrite app_nil_r.
  - simpl in Hskip. lia.
  - destruct (match_here fl r false prev (c :: s)) as [[[|n] m]|] eqn:Hm.
    + apply (match_here_inv fl (c :: s)) in Hm as (s' & Hs' & Hn & _); [|done].
      apply length_zero_iff_nil in Hn.
      destruct (match_here fl r true prev (c :: s)) as [[n2 m2]|] eqn:Hm2.
      * apply (match_here_inv fl (c :: s)) in Hm2 as (s2 & Hs2 & Hn2 & _ & _ & Hadv); [|done].
        destruct n2 as [|n2]; [by destruct Hadv|].
        destruct (scan fl r s (Some c) (Nat.pred (S n2)) []) as [ms' tl'] eqn:Hscan.
        apply IH in Hscan.
        2:{ apply (f_equal length) in Hs2. rewrite length_app in Hs2. simpl in *. lia. }
        simplify_eq. cbn. rewrite Hn. cbn in Hscan.
        rewrite app_nil_r, <- !app_assoc, Hscan. f_equal.
        destruct (m_text m2) as [|c2 w2]; [done|]. injection Hs2 as -> ->.
        simpl in Hn2. injection Hn2 as <-. by rewrite drop_app_length.
      * destruct (scan fl r s (Some c) O [c]) as [ms' tl'] eqn:Hscan.
        apply IH in Hscan; [|lia]. simplify_eq. cbn. rewrite Hn, !app_nil_r.
        rewrite <- app_assoc. f_equal. exact Hscan.
    + apply (match_here_inv fl (c :: s)) in Hm as (s' & Hs' & Hn & _); [|done].
      destruct (scan fl r s (Some c) n []) as [ms' tl'] eqn:Hscan.
      apply IH in Hscan.
      2:{ apply (f_equal length) in Hs'. rewrite length_app in Hs'. simpl in *. lia. }
      simplify_eq. cbn. cbn in Hscan. rewrite <- !app_assoc, Hscan. f_equal.
      destruct (m_text m) as [|c2 w2]; [done|]. injection Hs' as -> ->.
      injection Hn as <-. by rewrite drop_app_length.
    + apply IH in H; [|lia]. rewrite H. cbn. by rewrite <- app_assoc.
  - apply IH in H; [done | simpl in Hskip; lia].
Qed.

Lemma scan_Forall (fl : flags) (r : regex) (Q : match_obj → Prop) :
  (∀ must_advance prev s n m, match_here fl r must_advance prev s = Some (n, m) → Q m) →
  ∀ (s : str) (prev : option cp) (skip : nat) (gap : str)
    (ms : list (str * match_obj)) (tl : str),
  scan fl r s prev skip gap = (ms, tl) → Forall (fun gm : str * match_obj => Q gm.2) ms.
Proof.
  intros HQ. induction s as [|c s IH]; intros prev skip gap ms tl H;
    destruct skip as [|skip]; cbn [scan] in H.
  - destruct (match_here fl r false prev []) as [[[|n] m]|] eqn:Hm;
      injection H as <- <-; repeat first [apply Forall_nil_2 | apply Forall_cons_2];
      by eapply HQ.
  - injection H as <- <-. constructor.
  - destruct (match_here fl r false prev (c :: s)) as [[[|n] m]|] eqn:Hm.
    + destruct (match_here fl r true prev (c :: s)) as [[n2 m2]|] eqn:Hm2.
      * destruct (scan fl r s (Some c) (Nat.pred n2) []) as [ms' tl'] eqn:Hscan.
        injection H as <- <-.
        apply Forall_cons_2; [by eapply HQ|]. apply Forall_cons_2; [by eapply HQ|by eapply IH].
      * destruct (scan fl r s (Some c) O [c]) as [ms' tl'] eqn:Hscan.
        injection H as <- <-. apply Forall_cons_2; [by eapply HQ | by eapply IH].
    + destruct (scan fl r s (Some c) n []) as [ms' tl'] eqn:Hscan.
      injection H as <- <-. apply Forall_cons_2; [by eapply HQ | by eapply IH].
    + by eapply IH.
  - by eapply IH.
Qed.

(** The unmatched pieces hold only characters at which no match
    starts, when the pattern has no empty match. *)
Lemma scan_gaps (fl : flags) (r : regex) (G : cp → Prop) :
  (∀ prev c s, match_here fl r false prev (c :: s) = None → G c) →
  (∀ prev s m, match_here fl r false prev s ≠ Some (O, m)) →
  ∀ (s : str) (prev : option cp) (skip : nat) (gap : str)
    (ms : list (str * match_obj)) (tl : str),
  Forall G gap → scan fl r s prev skip gap = (ms, tl) →
  Forall (fun gm : str * match_obj => Forall G gm.1) ms ∧ Forall G tl.
Proof.
  intros HG Hne. induction s as [|c s IH]; intros prev skip gap ms tl Hgap H;
    destruct skip as [|skip]; cbn [scan] in H.
  - destruct (match_here fl r false prev []) as [[[|n] m]|] eqn:Hm.
    + by apply Hne in Hm.
    + injection H as <- <-. split; [|constructor].
      apply Forall_cons_2; [by apply Forall_rev | constructor].
    + injection H as <- <-. split; [constructor | by apply Forall_rev].
  - injection H as <- <-. split; [constructor | by apply Forall_rev].
  - destruct (match_here fl r false prev (c :: s)) as [[[|n] m]|] eqn:Hm.
    + by apply Hne in Hm.
    + destruct (scan fl r s (Some c) n []) as [ms' tl'] eqn:Hscan.
      injection H as <- <-. apply IH in Hscan as [Hms Htl]; [|constructor].
      split; [|done]. apply Forall_cons_2; [by apply Forall_rev | done].
    + apply IH in H; [done|]. apply Forall_cons_2; [by eapply HG | done].
  - by eapply IH.
Qed.

(** *** Stripping *)

Lemma lstrip_suffix (s : str) : lstrip s `suffix_of` s.
Proof.
  induction s as [|c s IH]; simpl; [done|].
  destruct (is_space c); [by apply suffix_cons_r | done].
Qed.

Lemma rstrip_prefix (s : str) : rstrip s `prefix_of` s.
Proof.
  unfold rstrip. destruct (lstrip_suffix (rev s)) as [k Hk].
  exists (rev k). rewrite <- rev_app_distr, <- Hk. by rewrite rev_involutive.
Qed.

Lemma strip_substring (s : str) : substring (strip s) s.
Proof.
  unfold strip. eapply substring_trans.
  - apply prefix_substring, rstrip_prefix.
  - apply suffix_substring, lstrip_suffix.
Qed.

Lemma lstrip_head (s : str) (c : cp) : head (lstrip s) = Some c → visible c.
Proof.
  induction s as [|a s IH]; simpl; [done|].
  destruct (is_space a) eqn:Ha; [done|]. by intros [= <-].
Qed.

Lemma lstrip_visible (s : str) : (∀ c, head s = Some c → visible c) → lstrip s = s.
Proof.
  destruct s as [|a s]; [done|]. intros Hs. simpl. by rewrite (Hs a eq_refl).
Qed.

Lemma strip_head (s : str) (c : cp) : head (strip s) = Some c → visible c.
Proof.
  unfold strip. destruct (rstrip_prefix (lstrip s)) as [k Hk].
  destruct (rstrip (lstrip s)) as [|a w]; [done|]. intros [= ->].
  apply (lstrip_head s). by rewrite Hk.
Qed.

Lemma head_rev {A} (l : list A) : head (rev l) = last l.
Proof.
  induction l as [|a l IH] using rev_ind; [done|].
  by rewrite rev_app_distr, last_snoc.
Qed.

Lemma strip_last (s : str) (c : cp) : last (strip s) = Some c → visible c.
Proof.
  unfold strip, rstrip. rewrite <- head_rev, rev_involutive. apply lstrip_head.
Qed.

(** Stripping a stripped text changes nothing. *)
Lemma strip_strip (s : str) : strip (strip s) = strip s.
Proof.
  unfold strip at 1. rewrite (lstrip_visible (strip s)) by apply strip_head.
  unfold rstrip. rewrite lstrip_visible.
  - apply rev_involutive.
  - intros c. rewrite head_rev. apply strip_last.
Qed.

Lemma Forall_strip (P : cp → Prop) (s : str) : Forall P s → Forall P (strip s).
Proof.
  intros Hs. destruct (strip_substring s) as (pre & post & Heq).
  rewrite Heq in Hs. by apply Forall_app in Hs as [_ [Hs _]%Forall_app].
Qed.

Lemma lstrip_spaces (s : str) : Forall (fun c => is_space c = true) s → lstrip s = [].
Proof. induction 1 as [|c s Hc _ IH]; simpl; [done|]. by rewrite Hc. Qed.

Lemma strip_spaces (s : str) : Forall (fun c => is_space c = true) s → strip s = [].
Proof. intros Hs. unfold strip. by rewrite lstrip_spaces. Qed.

Lemma filter_lstrip (s : str) : filter visible (lstrip s) = filter visible s.
Proof.
  induction s as [|c s IH]; cbn [lstrip]; [done|]. destruct (is_space c) eqn:Hc; [|done].
  rewrite (filter_cons_False _ c); [done|]. unfold visible. congruence.
Qed.

Lemma filter_rev {A} (P : A → Prop) `{∀ x, Decision (P x)} (l : list A) :
  filter P (rev l) = rev (filter P l).
Proof.
  induction l as [|a l IH]; [done|]. cbn [rev]. rewrite filter_app, IH, !filter_cons.
  destruct (decide (P a)); cbn [rev]; [done|]. by rewrite filter_nil, app_nil_r.
Qed.

(** Stripping removes white space only. *)
Lemma filter_strip (s : str) : filter visible (strip s) = filter visible s.
Proof.
  unfold strip, rstrip, str.
  rewrite (filter_rev visible), filter_lstrip, (filter_rev visible), rev_involutive.
  apply filter_lstrip.
Qed.

(** *** Patterns of one repeated class *)

Lemma match_here_char (fl : flags) (cs : cset) (must_advance : bool) (prev : option cp)
    (c : cp) (s : str) :
  match_here fl (RChar cs) must_advance prev (c :: s)
  = if cset_match fl cs c then Some (1%nat, {| m_text := [c]; m_groups := [] |}) else None.
Proof.
  unfold match_here. cbn [rmatch ngroups replicate]. destruct (cset_match fl cs c); [|done].
  replace (length (c :: s) - length s)%nat with 1%nat by (simpl; lia).
  by rewrite andb_false_r.
Qed.

Lemma match_here_char_nil (fl : flags) (cs : cset) (must_advance : bool) (prev : option cp) :
  match_here fl (RChar cs) must_advance prev [] = None.
Proof. done. Qed.

(** A match of a repeated class is a run of characters of the class, of
    at least the lower bound. *)
Lemma match_here_repeat (fl : flags) (greedy : bool) (lo : nat) (hi : option nat)
    (cs : cset) (must_advance : bool) (prev : option cp) (s : str) (n : nat) (m : match_obj) :
  match_here fl (RRepeat greedy lo hi cs) must_advance prev s = Some (n, m) →
  (lo ≤ length (m_text m))%nat
  ∧ Forall (fun c => cset_match fl cs c = true) (m_text m)
  ∧ n = length (m_text m).
Proof.
  unfold match_here. cbn [rmatch]. intros H.
  assert (∃ (w : str) (p' : option cp) (s' : str), s = w ++ s' ∧ (lo ≤ length w)%nat
            ∧ Forall (fun c => cset_match fl cs c = true) w
            ∧ (let n := (length s - length s')%nat in
               if must_advance && (n =? 0)%nat then None
               else Some (n, {| m_text := take n s;
                                m_groups := replicate (ngroups (RRepeat greedy lo hi cs)) None |}))
              = Some (n, m)) as (w & p' & s' & -> & Hlo & Hw & Hk).
  { destruct greedy; [apply rep_max_inv in H | apply rep_min_inv in H];
      destruct H as (w & p' & s' & ? & ? & ? & ?); by exists w, p', s'. }
  cbv zeta in Hk. rewrite take_consumed in Hk.
  replace (length (w ++ s') - length s')%nat with (length w) in Hk
    by (rewrite length_app; lia).
  destruct (must_advance && (length w =? 0)%nat); [done|]. by simplify_eq.
Qed.

(** A greedy run that may be empty succeeds when what follows it
    does. *)
Lemma rep_max_zero_some {A} (p : cp → bool) (hi : option nat) (prev : option cp) (s : str)
    (k : option cp → str → option A) :
  (∀ p' s', is_Some (k p' s')) → is_Some (rep_max p 0 hi prev s k).
Proof.
  intros Hk. destruct s as [|c s]; cbn [rep_max].
  - destruct hi as [[|h]|]; apply Hk.
  - destruct hi as [[|h]|]; [apply Hk| |]; (destruct (p c); [|apply Hk]);
      match goal with |- is_Some (match ?x with _ => _ end) => destruct x end;
      try done; apply Hk.
Qed.

(** Where a greedy run of one or more fails to start, the character is
    not of the class. *)
Lemma match_here_plus_none (fl : flags) (cs : cset) (prev : option cp) (c : cp) (s : str) :
  match_here fl (plus cs) false prev (c :: s) = None → cset_match fl cs c = false.
Proof.
  unfold match_here, plus. cbn [rmatch rep_max Nat.pred pred_bound fmap option_fmap option_map].
  destruct (cset_match fl cs c); [|done]. intros H. exfalso. revert H.
  match goal with |- match ?x with _ => _ end = None → _ =>
    assert (is_Some x) as [y ->]; [|done] end.
  by apply rep_max_zero_some.
Qed.

Lemma match_here_plus_nil (fl : flags) (cs : cset) (must_advance : bool) (prev : option cp) :
  match_here fl (plus cs) must_advance prev [] = None.
Proof. done. Qed.

(** *** Substitution *)

(** [re.sub] cuts the text into unmatched pieces and matches, and puts
    the replacement in the place of each match. *)
Lemma sub_spec (fl : flags) (r : regex) (repl text : str) :
  ∃ ms tl, scan fl r text None O [] = (ms, tl)
    ∧ text = concat ((fun gm : str * match_obj => gm.1 ++ m_text gm.2) <$> ms) ++ tl
    ∧ sub fl r repl text = concat ((fun gm : str * match_obj => gm.1 ++ repl) <$> ms) ++ tl.
Proof.
  unfold sub. destruct (scan fl r text None O []) as [ms tl] eqn:Hscan.
  exists ms, tl. split_and!; [done| |done].
  apply scan_reconstruct in Hscan; [|lia]. by rewrite Hscan.
Qed.

(** Deleting the matches of a one-character class keeps the characters
    that are not of the class. *)
Lemma scan_class (fl : flags) (cs : cset) :
  ∀ (s : str) (prev : option cp) (gap : str) (ms : list (str * match_obj)) (tl : str),
  scan fl (RChar cs) s prev O gap = (ms, tl) →
  concat ((fun gm : str * match_obj => gm.1 ++ []) <$> ms) ++ tl
  = rev gap ++ filter (fun c => cset_match fl cs c = false) s.
Proof.
  induction s as [|c s IH]; intros prev gap ms tl H; cbn [scan] in H.
  - rewrite match_here_char_nil in H. simplify_eq. cbn. by rewrite app_nil_r.
  - rewrite match_here_char in H.
    rewrite (filter_cons (fun c => cset_match fl cs c = false)).
    destruct (cset_match fl cs c) eqn:Hc.
    + destruct (scan fl (RChar cs) s (Some c) O []) as [ms' tl'] eqn:Hscan.
      apply IH in Hscan. simplify_eq. cbn [fmap list_fmap concat fst rev] in *.
      rewrite decide_False by done. by rewrite app_nil_r, <- app_assoc, Hscan.
    + apply IH in H. rewrite H. cbn [rev]. rewrite decide_True by done.
      by rewrite <- app_assoc.
Qed.

Lemma sub_class (fl : flags) (cs : cset) (text : str) :
  sub fl (RChar cs) [] text = filter (fun c => cset_match fl cs c = false) text.
Proof.
  unfold sub. destruct (scan fl (RChar cs) text None O []) as [ms tl] eqn:Hscan.
  by apply scan_class in Hscan.
Qed.

(** *** Cleaning of the text *)

Lemma cset_match_space (c : cp) : cset_match no_flags space c = is_space c.
Proof. cbn. apply orb_false_r. Qed.

(** The normalisation of white space, as the scanner cuts the text:
    pieces of visible characters, each followed by a run of white space
    that a single space replaces. *)
Lemma normalise_spec (text : str) :
  ∃ (ms : list (str * match_obj)) (tl : str),
    text = concat ((fun gm : str * match_obj => gm.1 ++ m_text gm.2) <$> ms) ++ tl
    ∧ sub no_flags (plus space) (u " ") text
      = concat ((fun gm : str * match_obj => gm.1 ++ [32]) <$> ms) ++ tl
    ∧ Forall (fun gm : str * match_obj => Forall visible gm.1) ms
    ∧ Forall (fun gm : str * match_obj =>
                (1 ≤ length (m_text gm.2))%nat
                ∧ Forall (fun c => is_space c = true) (m_text gm.2)) ms
    ∧ Forall visible tl.
Proof.
  destruct (sub_spec no_flags (plus space) (u " ") text) as (ms & tl & Hscan & Htext & Hsub).
  exists ms, tl. split_and!; [done | done | | |].
  - eapply (scan_gaps no_flags (plus space) visible) in Hscan; [apply Hscan | | |constructor].
    + intros prev c s H. apply match_here_plus_none in H. by rewrite cset_match_space in H.
    + intros prev s m H. apply match_here_repeat in H as (Hlo & _ & Hn). lia.
  - eapply (scan_Forall no_flags (plus space)
              (fun m => (1 ≤ length (m_text m))%nat
                        ∧ Forall (fun c => is_space c = true) (m_text m))) in Hscan;
      [exact Hscan|].
    intros adv prev s n m H. apply match_here_repeat in H as (Hlo & Hw & _).
    split; [done|]. eapply Forall_impl; [exact Hw|]. intros c Hc.
    rewrite <- cset_match_space. exact Hc.
  - eapply (scan_gaps no_flags (plus space) visible) in Hscan; [apply Hscan | | |constructor].
    + intros prev c s H. apply match_here_plus_none in H. by rewrite cset_match_space in H.
    + intros prev s m H. apply match_here_repeat in H as (Hlo & _ & Hn). lia.
Qed.

Lemma filter_visible_spaces (w : list cp) :
  Forall (fun c => is_space c = true) w → filter visible w = [].
Proof.
  induction 1 as [|c w Hc _ IH]; [done|].
  rewrite (filter_cons_False visible); [done|]. unfold visible. congruence.
Qed.

(** White-space normalisation keeps the visible characters. *)
Lemma normalise_visible (text : str) :
  filter visible (sub no_flags (plus space) (u " ") text) = filter visible text.
Proof.
  destruct (normalise_spec text) as (ms & tl & Htext & -> & _ & Hms & _).
  rewrite Htext at 1. clear Htext. rewrite !(filter_app visible). f_equal.
  induction Hms as [|[gap m] ms [_ Hw] _ IH]; [done|].
  cbn [fmap list_fmap concat fst snd] in *. rewrite !(filter_app visible), IH.
  by rewrite (filter_visible_spaces (m_text m)).
Qed.

(** After it, the only white space is the space character. *)
Lemma normalise_spaces (text : str) :
  Forall (fun c => is_space c = true → c = 32) (sub no_flags (plus space) (u " ") text).
Proof.
  destruct (normalise_spec text) as (ms & tl & _ & -> & Hgaps & _ & Htl).
  assert (∀ w, Forall visible w → Forall (fun c => is_space c = true → c = 32) w) as Hvis.
  { intros w Hw. eapply Forall_impl; [exact Hw|]. unfold visible. congruence. }
  apply Forall_app. split; [|by apply Hvis].
  induction Hgaps as [|[gap m] ms Hgap _ IH]; [constructor|].
  cbn [fmap list_fmap concat fst snd] in *. rewrite !Forall_app. split_and!; [by apply Hvis| |done].
  by repeat constructor.
Qed.

Lemma normalise_length (text : str) :
  (length (sub no_flags (plus space) (u " ") text) ≤ length text)%nat.
Proof.
  destruct (normalise_spec text) as (ms & tl & Htext & -> & _ & Hms & _).
  rewrite Htext at 1. clear Htext. rewrite !length_app. apply Nat.add_le_mono_r.
  induction Hms as [|[gap m] ms [Hlo _] _ IH]; [done|].
  cbn [fmap list_fmap concat fst snd] in *. rewrite !length_app. simpl. lia.
Qed.

Lemma preprocess_text_unfold (language text : str) :
  preprocess_text language text
  = filter (kept language) (strip (sub no_flags (plus space) (u " ") text)).
Proof.
  unfold preprocess_text. destruct (is_zh language) eqn:Hzh; rewrite sub_class;
    apply list_filter_iff; intros c; unfold kept, allowed; rewrite Hzh;
    cbn [cset_match no_flags IGNORECASE]; by destruct (in_items _ c).
Qed.

Lemma filter_filter_comm {A} (P Q : A → Prop) `{∀ x, Decision (P x)} `{∀ x, Decision (Q x)}
    (l : list A) :
  filter P (filter Q l) = filter Q (filter P l).
Proof. rewrite !list_filter_filter. apply list_filter_iff. tauto. Qed.

Lemma preprocess_text_kept (language text : str) :
  Forall (kept language) (preprocess_text language text).
Proof.
  rewrite preprocess_text_unfold. apply Forall_forall. intros c Hc.
  by apply list_elem_of_filter in Hc as [Hc _].
Qed.

(** X1: every character of a cleaned text is on the allow-list of the
    processor's language. *)
Theorem preprocess_text_allowed (language text : str) :
  Forall (kept language) (preprocess_text language text).
Proof. apply preprocess_text_kept. Qed.

Lemma preprocess_text_visible_or_space (language text : str) :
  Forall (fun c => visible c ∨ c = 32) (preprocess_text language text).
Proof.
  rewrite preprocess_text_unfold. apply Forall_forall. intros c Hc.
  apply list_elem_of_filter in Hc as [_ Hc].
  assert (Forall (fun c => is_space c = true → c = 32)
            (strip (sub no_flags (plus space) (u " ") text))) as Hall
    by apply Forall_strip, normalise_spaces.
  rewrite Forall_forall in Hall. specialize (Hall c Hc). unfold visible.
  destruct (is_space c); [right; by apply Hall | by left].
Qed.

(** X2: the only white space of a cleaned text is the space character
    U+0020: every other character of it is visible (tabs, line breaks and
    the wide space U+3000 are gone). *)
Theorem preprocess_text_spaces (language text : str) :
  Forall (fun c => visible c ∨ c = 32) (preprocess_text language text).
Proof. apply preprocess_text_visible_or_space. Qed.

(** X3: cleaning keeps the visible characters that are on the
    allow-list, all of them and in their order; it only removes the
    other characters and changes white space. *)
Theorem preprocess_text_visible (language text : str) :
  filter visible (preprocess_text language text)
  = filter visible (filter (kept language) text).
Proof.
  rewrite preprocess_text_unfold.
  rewrite (filter_filter_comm visible (kept language)).
  rewrite (filter_filter_comm visible (kept language) text). f_equal.
  unfold str. by rewrite filter_strip, normalise_visible.
Qed.

(** X4: a cleaned text is never longer than the text. *)
Theorem preprocess_text_length (language text : str) :
  (length (preprocess_text language text) ≤ length text)%nat.
Proof.
  rewrite preprocess_text_unfold.
  etrans; [apply length_filter|]. etrans; [apply length_strip|]. apply normalise_length.
Qed.

(** *** Texts of one line *)

(** [\n\s*\n] *)
Lemma blank_line_none (prev : option cp) (s : str) :
  Forall (fun c => c ≠ 10) s →
  match_here no_flags (seqs [RChar (CLit 10); spaces; RChar (CLit 10)]) false prev s = None.
Proof.
  intros Hs. destruct Hs as [|c s Hc _]; [done|].
  unfold match_here. cbn [seqs rmatch cset_match no_flags IGNORECASE].
  by apply N.eqb_neq in Hc as ->.
Qed.

Lemma scan_none (fl : flags) (r : regex) (s : str) :
  (∀ prev s', s' `suffix_of` s → match_here fl r false prev s' = None) →
  ∀ prev gap, scan fl r s prev O gap = ([], rev gap ++ s).
Proof.
  induction s as [|c s IH]; intros Hnone prev gap; cbn [scan].
  - rewrite Hnone by done. by rewrite app_nil_r.
  - rewrite Hnone by done. rewrite IH.
    + cbn [rev]. by rewrite <- app_assoc.
    + intros prev' s' Hs'. apply Hnone. by apply suffix_cons_r.
Qed.

Lemma stripped_nonempty_cons (p : str) (ps : list str) :
  stripped_nonempty (p :: ps)
  = if decide (strip p = []) then stripped_nonempty ps else strip p :: stripped_nonempty ps.
Proof.
  unfold stripped_nonempty, filter. cbn [list_filter].
  destruct (decide (strip p ≠ [])) as [Hne|He], (decide (strip p = [])) as [He'|Hne'];
    done.
Qed.

(** A text without line feed is one paragraph at most: itself,
    stripped. *)
Lemma paragraphs_one_line (text : str) :
  Forall (fun c => c ≠ 10) text →
  paragraphs text = if decide (strip text = []) then [] else [strip text].
Proof.
  intros Htext. unfold paragraphs, split. rewrite scan_none.
  - change (stripped_nonempty [text]
            = if decide (strip text = []) then [] else [strip text]).
    by rewrite stripped_nonempty_cons.
  - intros prev s' [k ->]. apply blank_line_none.
    by apply Forall_app in Htext as [_ Htext].
Qed.

Lemma preprocess_text_one_line (language text : str) :
  Forall (fun c => c ≠ 10) (preprocess_text language text).
Proof.
  eapply Forall_impl; [apply preprocess_text_visible_or_space|]. intros c [Hc| ->]; [|done].
  intros ->. by vm_compute in Hc.
Qed.

Lemma fallback_one_line (sent_tokenize : str → list str) (text language : str) :
  Forall (fun c => c ≠ 10) text →
  _generate_fallback_summary sent_tokenize text language = strip text.
Proof.
  intros Htext. unfold _generate_fallback_summary, segment_text.
  rewrite paragraphs_one_line by done. by destruct (decide (strip text = [])) as [->|].
Qed.

(** X5: for a text without line feed the fallback summary is the text,
    stripped: there is nothing to join and nothing is left out. *)
Theorem fallback_of_one_line (sent_tokenize : str → list str) (text language : str) :
  Forall (fun c => c ≠ 10) text →
  _generate_fallback_summary sent_tokenize text language = strip text.
Proof. apply fallback_one_line. Qed.

(** On a text of one line with spaces around it. *)
Lemma fallback_of_one_line_witness :
  Forall (fun c => c ≠ 10) (u " agenda, budget and hiring ")
  ∧ _generate_fallback_summary sample_tokenize (u " agenda, budget and hiring ") (u "en")
    = strip (u " agenda, budget and hiring ").
Proof.
  assert (Forall (fun c => c ≠ 10) (u " agenda, budget and hiring ")) as H
    by (apply (bool_decide_unpack _); vm_compute; reflexivity).
  split; [exact H|]. exact (fallback_of_one_line sample_tokenize _ (u "en") H).
Defined.

(** *** Runs of the assistant *)

(** X6: the report of a run counts one paragraph at most, whatever the
    file holds: cleaning has turned the line breaks into spaces before
    the paragraphs are counted. *)
Theorem run_counts_one_paragraph
    (sent_tokenize word_tokenize : str → list str) (jieba_cut : option (str → list str))
    (requests_post : request → post_outcome) (api_key : option str)
    (read_text : str → option str) (docx_paragraphs : str → option (list str))
    (summary_time processing_time file_path language : str) (r : Minutes.result) :
  process_meeting_text sent_tokenize word_tokenize jieba_cut requests_post api_key
    read_text docx_paragraphs summary_time processing_time file_path language = inr r →
  (Quality.paragraph_count (Minutes.quality_report (Minutes.text_processing r)) ≤ 1)%nat.
Proof.
  intros Hrun. apply process_meeting_text_inv in Hrun
    as (raw_text & summary_data & _ & _ & -> & _).
  cbn [Minutes.quality_report evaluate_text_quality Quality.paragraph_count segment_text].
  rewrite paragraphs_one_line by apply preprocess_text_one_line.
  destruct (decide _); simpl; lia.
Qed.

(** On the sample run. *)
Lemma run_counts_one_paragraph_witness :
  ∃ r, sample_run = inr r
    ∧ (Quality.paragraph_count (Minutes.quality_report (Minutes.text_processing r)) ≤ 1)%nat.
Proof.
  assert (∃ r, sample_run = inr r) as [r Hr] by (vm_compute; eexists; reflexivity).
  exists r. split; [exact Hr|].
  exact (run_counts_one_paragraph sample_tokenize sample_tokenize None sample_post None
           sample_read_text sample_docx _ _ _ _ r Hr).
Defined.



(** X8: a path whose extension, in lower case, is neither [.txt] nor
    [.docx] makes the parser raise [ValueError], and the run with it,
    whatever the file system holds and whatever the service answers. *)
Theorem unsupported_extension_raises
    (sent_tokenize word_tokenize : str → list str) (jieba_cut : option (str → list str))
    (requests_post : request → post_outcome) (api_key : option str)
    (read_text : str → option str) (docx_paragraphs : str → option (list str))
    (summary_time processing_time file_path language : str) :
  lower (splitext_ext file_path) ≠ u ".txt" →
  lower (splitext_ext file_path) ≠ u ".docx" →
  parse_text_file read_text docx_paragraphs file_path = inl ValueError
  ∧ process_meeting_text sent_tokenize word_tokenize jieba_cut requests_post api_key
      read_text docx_paragraphs summary_time processing_time file_path language
    = inl ValueError.
Proof.
  intros Htxt Hdocx.
  assert (parse_text_file read_text docx_paragraphs file_path = inl ValueError) as Hparse.
  { unfold parse_text_file, str_eqb. by rewrite !bool_decide_eq_false_2. }
  split; [done|]. unfold process_meeting_text. by rewrite Hparse.
Qed.

(** On a path that ends in [.PDF]. *)
Lemma unsupported_extension_raises_witness :
  lower (splitext_ext (u "notes/minutes.v2.PDF")) ≠ u ".txt"
  ∧ lower (splitext_ext (u "notes/minutes.v2.PDF")) ≠ u ".docx"
  ∧ parse_text_file sample_read_text sample_docx (u "notes/minutes.v2.PDF") = inl ValueError
  ∧ process_meeting_text sample_tokenize sample_tokenize None sample_post None
      sample_read_text sample_docx (u "2024-12-27T10:30:00") (u "2024-12-27T10:30:01")
      (u "notes/minutes.v2.PDF") (u "zh")
    = inl ValueError.
Proof.
  assert (lower (splitext_ext (u "notes/minutes.v2.PDF")) ≠ u ".txt") as Htxt
    by (apply (bool_decide_unpack _); vm_compute; reflexivity).
  assert (lower (splitext_ext (u "notes/minutes.v2.PDF")) ≠ u ".docx") as Hdocx
    by (apply (bool_decide_unpack _); vm_compute; reflexivity).
  split_and!; [exact Htxt | exact Hdocx | |];
    apply (unsupported_extension_raises sample_tokenize sample_tokenize None sample_post None
             sample_read_text sample_docx (u "2024-12-27T10:30:00") (u "2024-12-27T10:30:01")
             (u "notes/minutes.v2.PDF") (u "zh") Htxt Hdocx).
Defined.

Lemma filter_nil_Forall {A} (P : A → Prop) `{∀ x, Decision (P x)} (l : list A) :
  filter P l = [] → Forall (fun x => ¬ P x) l.
Proof.
  intros Hnil. apply Forall_forall. intros x Hx HP.
  by eapply (filter_nil_not_elem_of P l x).
Qed.

(** A text of white space only is cleaned to the empty text. *)
Lemma preprocess_text_blank (language text : str) :
  Forall (fun c => is_space c = true) text → preprocess_text language text = [].
Proof.
  intros Htext. rewrite preprocess_text_unfold.
  rewrite strip_spaces; [done|].
  pose proof (normalise_visible text) as Hvis. unfold str in Hvis.
  rewrite (filter_visible_spaces text Htext) in Hvis.
  apply filter_nil_Forall in Hvis. eapply Forall_impl; [exact Hvis|].
  intros c Hc. unfold visible in Hc. by destruct (is_space c).
Qed.

Lemma extract_todo_items_nil (language : str) : extract_todo_items [] language = [].
Proof.
  unfold extract_todo_items, todo_candidates, by_language.
  destruct (is_en language); by vm_compute.
Qed.

(** X9: a run on a file of white space only: the cleaned text is empty,
    the report counts nothing, scores 30 for completeness and 0 for
    readability and says that the text needs improvement; no action
    item is extracted, and no event when the language is ['zh']. *)
Theorem blank_file_run
    (sent_tokenize word_tokenize : str → list str) (jieba_cut : option (str → list str))
    (requests_post : request → post_outcome) (api_key : option str)
    (read_text : str → option str) (docx_paragraphs : str → option (list str))
    (summary_time processing_time file_path language raw_text : str) (r : Minutes.result) :
  parse_text_file read_text docx_paragraphs file_path = inr raw_text →
  Forall (fun c => is_space c = true) raw_text →
  process_meeting_text sent_tokenize word_tokenize jieba_cut requests_post api_key
    read_text docx_paragraphs summary_time processing_time file_path language = inr r →
  let report := Minutes.quality_report (Minutes.text_processing r) in
  Minutes.processed_text_sample (Minutes.text_processing r) = []
  ∧ Quality.char_count report = 0%nat
  ∧ Quality.sentence_count report = 0%nat
  ∧ Quality.paragraph_count report = 0%nat
  ∧ Quality.readability_score report = Int 0
  ∧ Quality.completeness_score report = 30%Z
  ∧ Quality.summary report = u "需要改进"
  ∧ Minutes.todo_items r = []
  ∧ (language = u "zh" → Minutes.data (Minutes.timeline r) = []).
Proof.
  intros Hparse Hblank Hrun. apply process_meeting_text_inv in Hrun
    as (raw & summary_data & Hparse' & _ & -> & _ & -> & -> & _).
  rewrite Hparse in Hparse'. injection Hparse' as <-.
  unfold text_processor_language. rewrite (preprocess_text_blank _ _ Hblank).
  cbn [Minutes.text_processing Minutes.processed_text_sample Minutes.quality_report
       Minutes.data].
  split_and!; [by vm_compute.. | apply extract_todo_items_nil | intros ->; by vm_compute].
Qed.

(** On a file of two spaces, a line break, a tab and a wide space. *)
Lemma blank_file_run_witness :
  parse_text_file blank_read_text sample_docx (u "blank.txt")
    = inr (u "  " ++ nl ++ [9; 12288])
  ∧ Forall (fun c => is_space c = true) (u "  " ++ nl ++ [9; 12288])
  ∧ ∃ r, process_meeting_text sample_tokenize sample_tokenize None sample_post None
           blank_read_text sample_docx (u "2024-12-27T10:30:00") (u "2024-12-27T10:30:01")
           (u "blank.txt") (u "zh") = inr r
    ∧ let report := Minutes.quality_report (Minutes.text_processing r) in
      Minutes.processed_text_sample (Minutes.text_processing r) = []
      ∧ Quality.char_count report = 0%nat
      ∧ Quality.sentence_count report = 0%nat
      ∧ Quality.paragraph_count report = 0%nat
      ∧ Quality.readability_score report = Int 0
      ∧ Quality.completeness_score report = 30%Z
      ∧ Quality.summary report = u "需要改进"
      ∧ Minutes.todo_items r = []
      ∧ (u "zh" = u "zh" → Minutes.data (Minutes.timeline r) = []).
Proof.
  assert (∃ r, process_meeting_text sample_tokenize sample_tokenize None sample_post None
                 blank_read_text sample_docx (u "2024-12-27T10:30:00")
                 (u "2024-12-27T10:30:01") (u "blank.txt") (u "zh") = inr r) as [r Hr]
    by (vm_compute; eexists; reflexivity).
  assert (parse_text_file blank_read_text sample_docx (u "blank.txt")
          = inr (u "  " ++ nl ++ [9; 12288])) as Hparse by (vm_compute; reflexivity).
  assert (Forall (fun c => is_space c = true) (u "  " ++ nl ++ [9; 12288])) as Hblank
    by (apply (bool_decide_unpack _); vm_compute; reflexivity).
  split_and!; [exact Hparse | exact Hblank |]. exists r. split; [exact Hr|].
  exact (blank_file_run sample_tokenize sample_tokenize None sample_post None
           blank_read_text sample_docx (u "2024-12-27T10:30:00") (u "2024-12-27T10:30:01")
           (u "blank.txt") (u "zh") _ r Hparse Hblank Hr).
Defined.

(** *** A lazy group in front of an optional closing *)

(** A pattern without group hands the groups on as they are. *)
Lemma rmatch_group_free (fl : flags) (r : regex) :
  group_free r = true →
  ∀ (A : Set) (prev : option cp) (s : str) (g : groups)
    (k : option cp → str → groups → option A) (x : A),
  rmatch fl r prev s g k = Some x →
  ∃ p' s', s' `suffix_of` s ∧ k p' s' g = Some x.
Proof.
  induction r as [ | cs | a IHa b IHb | a IHa b IHb | n a IHa | greedy lo hi cs
                   | a IHa | a IHa | | ];
    cbn [group_free]; intros Hfree A prev s g k x H; cbn [rmatch] in H.
  - by exists prev, s.
  - destruct s as [|c s]; [done|]. destruct (cset_match fl cs c); [|done].
    exists (Some c), s. split; [by apply suffix_cons_r | done].
  - apply andb_prop in Hfree as [Ha Hb].
    apply IHa in H as (p1 & s1 & Hs1 & H); [|done].
    apply IHb in H as (p2 & s2 & Hs2 & H); [|done].
    exists p2, s2. split; [by etrans | done].
  - apply andb_prop in Hfree as [Ha Hb].
    destruct (rmatch fl a prev s g k) eqn:Hm.
    + injection H as ->. by apply IHa in Hm.
    + by apply IHb in H.
  - done.
  - destruct greedy.
    + apply rep_max_inv in H as (w & p' & s' & -> & _ & _ & H).
      exists p', s'. split; [by apply suffix_app_r | done].
    + apply rep_min_inv in H as (w & p' & s' & -> & _ & _ & H).
      exists p', s'. split; [by apply suffix_app_r | done].
  - destruct (rmatch fl a prev s g k) eqn:Hm.
    + injection H as ->. by apply IHa in Hm.
    + by exists prev, s.
  - destruct (rmatch fl a prev s g (fun _ _ g' => Some g')) as [g1|] eqn:Hm; [|done].
    apply IHa in Hm as (p1 & s1 & _ & [= ->]); [|done]. by exists prev, s.
  - destruct (at_end fl s); [|done]. by exists prev, s.
  - destruct (at_word_boundary prev s); [|done]. by exists prev, s.
Qed.

(** A lazy run that may be empty stops at once when what follows it
    succeeds. *)
Lemma rep_min_zero {A} (p : cp → bool) (hi : option nat) (prev : option cp) (s : str)
    (k : option cp → str → option A) (x : A) :
  k prev s = Some x → rep_min p 0 hi prev s k = Some x.
Proof. intros Hk. destruct s; cbn [rep_min]; by rewrite Hk. Qed.

(** [(x+?)(?:...)?] at the end of a pattern: the optional closing
    never fails, so the lazy group stops after its first character. *)
Lemma lazy_capture_then_opt (fl : flags) (cs : cset) (a : regex) (must_advance : bool)
    (s0 : str) (prev : option cp) (s : str) (g : groups) (n : nat) (m : match_obj) :
  group_free a = true → s `suffix_of` s0 →
  rmatch fl (RSeq (RGroup 1 (lazy_plus cs)) (ROpt a)) prev s g
    (fun _ s' g' =>
       let n := (length s0 - length s')%nat in
       if must_advance && (n =? 0)%nat then None
       else Some (n, {| m_text := take n s0; m_groups := g' |}))
  = Some (n, m) →
  ∃ c, m_groups m = <[O := Some [c]]> g ∧ cset_match fl cs c = true.
Proof.
  intros Hfree Hs H. cbn [rmatch lazy_plus] in H.
  destruct s as [|c s]; [done|].
  cbn [rep_min Nat.pred pred_bound fmap option_fmap option_map] in H.
  destruct (cset_match fl cs c) eqn:Hc; [|done].
  exists c. split; [|done].
  assert (length s < length s0)%nat as Hlen.
  { destruct Hs as [w ->]. rewrite length_app. simpl. lia. }
  assert (must_advance && (length s0 - length s =? 0)%nat = false) as Hadv.
  { apply andb_false_intro2. apply Nat.eqb_neq. lia. }
  assert (take (length (c :: s) - length s) (c :: s) = [c]) as Htake.
  { replace (length (c :: s) - length s)%nat with 1%nat by (simpl; lia). done. }
  match type of H with rep_min _ _ _ _ _ ?K = _ =>
    assert (∃ n' m', K (Some c) s = Some (n', m') ∧ m_groups m' = <[O := Some [c]]> g)
      as (n' & m' & HK & Hg) end.
  { cbv beta. rewrite Htake.
    match goal with |- context [match ?x with _ => _ end] =>
      destruct x as [[n' m']|] eqn:Ha end.
    - exists n', m'. split; [done|].
      apply (rmatch_group_free fl a Hfree) in Ha as (p' & s' & _ & Ha).
      match type of Ha with (if ?b then _ else _) = _ => destruct b end; [done|].
      by simplify_eq.
    - rewrite Hadv. by eexists _, _. }
  rewrite (rep_min_zero _ _ _ _ _ _ HK) in H. by simplify_eq.
Qed.

Lemma group_free_ngroups (r : regex) : group_free r = true → ngroups r = O.
Proof.
  induction r as [ | | a IHa b IHb | a IHa b IHb | | | a IHa | a IHa | | ];
    cbn [group_free ngroups]; intros Hr; try done.
  - apply andb_prop in Hr as [Ha Hb]. by rewrite IHa, IHb.
  - apply andb_prop in Hr as [Ha Hb]. by rewrite IHa, IHb.
  - by apply IHa.
  - by apply IHa.
Qed.

Lemma seqs_cons_app (p : regex) (pre : list regex) (a b : regex) :
  seqs ((p :: pre) ++ [a; b]) = RSeq p (seqs (pre ++ [a; b])).
Proof. by destruct pre. Qed.

Lemma match_here_lazy_capture (fl : flags) (pre : list regex) (cs : cset) (a : regex)
    (must_advance : bool) (prev : option cp) (s : str) (n : nat) (m : match_obj) :
  forallb group_free pre = true → group_free a = true →
  match_here fl (seqs (pre ++ [RGroup 1 (lazy_plus cs); ROpt a])) must_advance prev s
    = Some (n, m) →
  ∃ c, m_groups m = [Some [c]] ∧ cset_match fl cs c = true.
Proof.
  intros Hpre Hfree. unfold match_here.
  assert (ngroups (seqs (pre ++ [RGroup 1 (lazy_plus cs); ROpt a])) = 1%nat) as ->.
  { clear -Hpre Hfree. induction pre as [|p pre IH].
    - cbn [app seqs ngroups lazy_plus]. by rewrite (group_free_ngroups a Hfree).
    - cbn [forallb] in Hpre. apply andb_prop in Hpre as [Hp Hpre].
      rewrite seqs_cons_app. cbn [ngroups]. by rewrite (group_free_ngroups p Hp), IH. }
  cbn [replicate].
  assert (∀ prev' s', s' `suffix_of` s →
            rmatch fl (seqs (pre ++ [RGroup 1 (lazy_plus cs); ROpt a])) prev' s' [None]
              (fun _ s'' g' =>
                 let n := (length s - length s'')%nat in
                 if must_advance && (n =? 0)%nat then None
                 else Some (n, {| m_text := take n s; m_groups := g' |}))
            = Some (n, m) →
            ∃ c, m_groups m = [Some [c]] ∧ cset_match fl cs c = true) as Hgen;
    [|by apply Hgen].
  induction pre as [|p pre IH]; intros prev' s' Hs' H.
  - cbn [app seqs] in H. by eapply (lazy_capture_then_opt fl cs a must_advance s) in H.
  - cbn [forallb] in Hpre. apply andb_prop in Hpre as [Hp Hpre].
    rewrite seqs_cons_app in H. cbn [rmatch] in H.
    apply (rmatch_group_free fl p Hp) in H as (p1 & s1 & Hs1 & H).
    eapply IH; [done | | exact H]. by etrans.
Qed.

Lemma lazy_capture_ngroups (r : regex) : lazy_capture_pattern r → ngroups r = 1%nat.
Proof.
  intros (pre & cs & a & -> & Hpre & Hfree). induction pre as [|p pre IH].
  - cbn [app seqs ngroups lazy_plus]. by rewrite (group_free_ngroups a Hfree).
  - cbn [forallb] in Hpre. apply andb_prop in Hpre as [Hp Hpre].
    rewrite seqs_cons_app. cbn [ngroups]. by rewrite (group_free_ngroups p Hp), IH.
Qed.

(** Every match of such a pattern captures one character. *)
Lemma findall_lazy_capture (fl : flags) (r : regex) (text : str) :
  lazy_capture_pattern r →
  Forall (fun f => ∃ c, f = FStr [c]) (findall fl r text).
Proof.
  intros Hr. pose proof (lazy_capture_ngroups r Hr) as Hn.
  destruct Hr as (pre & cs & a & -> & Hpre & Hfree).
  unfold findall, finditer.
  destruct (scan fl _ text None O []) as [ms tl] eqn:Hscan. cbn [fst].
  apply (scan_Forall fl _ (fun m => ∃ c, m_groups m = [Some [c]])) in Hscan.
  - apply Forall_fmap, Forall_fmap. eapply Forall_impl; [exact Hscan|].
    intros [gap m] [c Hc]. exists c. cbn [snd] in *. unfold found_of. rewrite Hn.
    unfold group. cbn [Nat.pred]. by rewrite Hc.
  - intros adv prev s n m Hm.
    apply match_here_lazy_capture in Hm as (c & Hc & _); [by exists c | done..].
Qed.

Lemma todo_deadline_pattern (language : str) (pattern : regex) :
  by_language todo_patterns_zh todo_patterns_en language !! 2%nat = Some pattern →
  lazy_capture_pattern pattern.
Proof.
  unfold by_language. destruct (is_en language); intros [= <-].
  - exists [words ["deadline"; "due date"]; colon; spaces]. by eexists _, _.
  - exists [words ["截止"; "截至"; "期限"]; colon; spaces]. by eexists _, _.
Qed.

(** X10: the third obligation pattern of either table (a deadline label,
    a colon and a lazy group in front of an optional closing) never
    yields an action item: each of its matches captures exactly one
    character, and a description of at most 3 characters is dropped. *)
Theorem deadline_pattern_yields_no_item (text language : str) (pattern : regex) :
  by_language todo_patterns_zh todo_patterns_en language !! 2%nat = Some pattern →
  Forall (fun f => ∃ c, f = FStr [c]) (findall ignorecase_multiline pattern text)
  ∧ omap (todo_of_match language) (findall ignorecase_multiline pattern text) = [].
Proof.
  intros Hp. apply todo_deadline_pattern in Hp.
  pose proof (findall_lazy_capture ignorecase_multiline pattern text Hp) as Hall.
  split; [done|]. induction Hall as [|f fs [c ->] _ IH]; [done|].
  cbn [omap list_omap]. rewrite IH.
  unfold todo_of_match, description_of.
  pose proof (length_strip [c]) as Hlen. simpl in Hlen.
  by destruct (Nat.ltb_spec 3 (length (strip [c]))); [lia|].
Qed.

(** On a text with two deadlines: the two matches capture one character
    each. *)
Lemma deadline_pattern_yields_no_item_witness :
  by_language todo_patterns_zh todo_patterns_en (u "zh") !! 2%nat
    = Some (seqs [words ["截止"; "截至"; "期限"]; colon; spaces;
                  RGroup 1 (lazy_plus not_zh_stop); zh_closing])
  ∧ findall ignorecase_multiline
      (seqs [words ["截止"; "截至"; "期限"]; colon; spaces;
             RGroup 1 (lazy_plus not_zh_stop); zh_closing]) two_deadlines
    = [FStr (u "1"); FStr (u "周")]
  ∧ Forall (fun f => ∃ c, f = FStr [c])
      (findall ignorecase_multiline
         (seqs [words ["截止"; "截至"; "期限"]; colon; spaces;
                RGroup 1 (lazy_plus not_zh_stop); zh_closing]) two_deadlines)
  ∧ omap (todo_of_match (u "zh"))
      (findall ignorecase_multiline
         (seqs [words ["截止"; "截至"; "期限"]; colon; spaces;
                RGroup 1 (lazy_plus not_zh_stop); zh_closing]) two_deadlines) = [].
Proof.
  assert (by_language todo_patterns_zh todo_patterns_en (u "zh") !! 2%nat
          = Some (seqs [words ["截止"; "截至"; "期限"]; colon; spaces;
                        RGroup 1 (lazy_plus not_zh_stop); zh_closing])) as Hp
    by (vm_compute; reflexivity).
  split_and!; [exact Hp | vm_compute; reflexivity | |];
    apply (deadline_pattern_yields_no_item two_deadlines (u "zh") _ Hp).
Defined.

(** *** Assignee and due date *)

Lemma first_search_inv {A} (fl : flags) (patterns : list regex) (text : str)
    (f : regex → match_obj → A) (x : A) :
  first_search fl patterns text f = Some x →
  ∃ pattern m, pattern ∈ patterns ∧ search fl pattern text = Some m ∧ x = f pattern m.
Proof.
  induction patterns as [|p ps IH]; [done|]. cbn [first_search].
  destruct (search fl p text) as [m|] eqn:Hm.
  - intros [= <-]. exists p, m. split_and!; [left | done | done].
  - intros H. apply IH in H as (pattern & m & Hin & Hs & ->).
    exists pattern, m. split_and!; [by right | done | done].
Qed.

Lemma group1_in (text : str) (m : match_obj) :
  captures_in text (m_groups m) → substring (group1 m) text.
Proof.
  intros Hg. unfold group1, group.
  destruct (m_groups m !! Nat.pred 1) as [[t|]|] eqn:Hl; cbn [default];
    [|apply substring_nil..].
  unfold captures_in in Hg. rewrite Forall_lookup in Hg. by eapply Hg.
Qed.

Lemma extract_assignee_in (text language : str) :
  substring (_extract_assignee text language) text
  ∧ strip (_extract_assignee text language) = _extract_assignee text language.
Proof.
  unfold _extract_assignee.
  destruct (first_search _ _ _ _) as [a|] eqn:Hf; cbn [default];
    [|by split; [apply substring_nil|]].
  apply first_search_inv in Hf as (pattern & m & _ & Hs & ->).
  apply search_inv in Hs as (_ & Hg & _). split; [|apply strip_strip].
  eapply substring_trans; [apply strip_substring | by apply group1_in].
Qed.

Lemma extract_due_date_in (text language due : str) :
  _extract_due_date text language = Some due →
  substring due text ∧ strip due = due.
Proof.
  unfold _extract_due_date. intros Hf.
  apply first_search_inv in Hf as (pattern & m & _ & Hs & ->).
  apply search_inv in Hs as (Hm & Hg & _).
  destruct (0 <? ngroups pattern)%nat; (split; [|apply strip_strip]).
  - eapply substring_trans; [apply strip_substring | by apply group1_in].
  - eapply substring_trans; [apply strip_substring | done].
Qed.

(** X11: the assignee of a text is a piece of the text, taken as it is
    and stripped (or the empty text). *)
Theorem extract_assignee_verbatim (text language : str) :
  substring (_extract_assignee text language) text
  ∧ strip (_extract_assignee text language) = _extract_assignee text language.
Proof. apply extract_assignee_in. Qed.

(** X12: the due date of a text, when there is one, is a piece of the
    text, taken as it is and stripped. *)
Theorem extract_due_date_verbatim (text language due : str) :
  _extract_due_date text language = Some due →
  substring due text ∧ strip due = due.
Proof. apply extract_due_date_in. Qed.

(** On scenario A. *)
Lemma extract_due_date_verbatim_witness :
  _extract_due_date scenario_A (u "zh") = Some (u "12月30日")
  ∧ substring (u "12月30日") scenario_A ∧ strip (u "12月30日") = u "12月30日".
Proof.
  assert (_extract_due_date scenario_A (u "zh") = Some (u "12月30日")) as H
    by (vm_compute; reflexivity).
  split; [exact H|]. exact (extract_due_date_verbatim scenario_A (u "zh") _ H).
Defined.

Lemma date_deadline_pattern (language : str) (pattern : regex) :
  by_language date_patterns_zh date_patterns_en language !! 0%nat = Some pattern →
  lazy_capture_pattern pattern.
Proof.
  unfold by_language. destruct (is_en language); intros [= <-].
  - exists [words ["deadline"; "due date"]; colon; spaces]. by eexists _, _.
  - exists [words ["截止"; "截至"; "期限"]; colon; spaces]. by eexists _, _.
Qed.

Lemma search_lazy_capture (fl : flags) (r : regex) (text : str) (m : match_obj) :
  lazy_capture_pattern r → search fl r text = Some m → ∃ c, m_groups m = [Some [c]].
Proof.
  intros (pre & cs & a & -> & Hpre & Hfree). unfold search. generalize (@None cp).
  induction text as [|c text IH]; intros prev; rewrite search_from_unfold;
    destruct (match_here fl _ false prev _) as [[n m']|] eqn:Hm; try done.
  - intros [= ->]. apply match_here_lazy_capture in Hm as (c & Hc & _); [by exists c|done..].
  - intros [= ->]. apply match_here_lazy_capture in Hm as (c' & Hc & _); [by exists c'|done..].
  - apply IH.
Qed.

(** X13: when the first date pattern of the table matches (a deadline
    label followed by a colon), the due date is one character of the
    text at most: the lazy group in front of the optional closing
    stops after its first character. *)
Theorem deadline_label_due_date (text language : str) (pattern : regex) (m : match_obj) :
  by_language date_patterns_zh date_patterns_en language !! 0%nat = Some pattern →
  search ignorecase pattern text = Some m →
  ∃ c, m_groups m = [Some [c]]
    ∧ _extract_due_date text language = Some (strip [c])
    ∧ (length (strip [c]) ≤ 1)%nat.
Proof.
  intros Hp Hs. pose proof (date_deadline_pattern language pattern Hp) as Hlazy.
  destruct (search_lazy_capture _ _ _ _ Hlazy Hs) as [c Hc]. exists c.
  split_and!; [done| |apply (length_strip [c])].
  unfold _extract_due_date.
  destruct (by_language date_patterns_zh date_patterns_en language) as [|p ps]; [done|].
  injection Hp as ->. cbn [first_search]. rewrite Hs.
  rewrite (lazy_capture_ngroups pattern Hlazy). cbn [Nat.ltb Nat.leb].
  unfold group1, group. by rewrite Hc.
Qed.

(** On a deadline in English: the due date is the first digit of the
    year. *)
Lemma deadline_label_due_date_witness :
  by_language date_patterns_zh date_patterns_en (u "en") !! 0%nat
    = Some (seqs [words ["deadline"; "due date"]; colon; spaces;
                  RGroup 1 (lazy_plus not_en_stop); en_closing])
  ∧ search ignorecase
      (seqs [words ["deadline"; "due date"]; colon; spaces;
             RGroup 1 (lazy_plus not_en_stop); en_closing]) one_deadline
    = Some {| m_text := u "deadline: 20"; m_groups := [Some (u "2")] |}
  ∧ ∃ c, [Some (u "2")] = [Some [c]]
      ∧ _extract_due_date one_deadline (u "en") = Some (strip [c])
      ∧ (length (strip [c]) ≤ 1)%nat.
Proof.
  assert (by_language date_patterns_zh date_patterns_en (u "en") !! 0%nat
          = Some (seqs [words ["deadline"; "due date"]; colon; spaces;
                        RGroup 1 (lazy_plus not_en_stop); en_closing])) as Hp
    by (vm_compute; reflexivity).
  assert (search ignorecase
            (seqs [words ["deadline"; "due date"]; colon; spaces;
                   RGroup 1 (lazy_plus not_en_stop); en_closing]) one_deadline
          = Some {| m_text := u "deadline: 20"; m_groups := [Some (u "2")] |}) as Hs
    by (vm_compute; reflexivity).
  split_and!; [exact Hp | exact Hs |].
  exact (deadline_label_due_date one_deadline (u "en") _ _ Hp Hs).
Defined.

(** *** Extracted items *)

Lemma todo_of_match_inv (language : str) (f : found) (item : Todo.item) :
  todo_of_match language f = Some item →
  Todo.description item = description_of f
  ∧ (3 < length (Todo.description item))%nat
  ∧ Todo.assignee item = _extract_assignee (Todo.description item) language
  ∧ Todo.priority item = _evaluate_priority (Todo.description item) language
  ∧ Todo.due_date item = _extract_due_date (Todo.description item) language
  ∧ Todo.status item = u "pending"
  ∧ Todo.extracted_from item = take 100 (Todo.description item).
Proof.
  unfold todo_of_match. destruct (Nat.ltb_spec 3 (length (description_of f))); [|done].
  intros [= <-]. by cbn.
Qed.

Lemma description_of_stripped (f : found) : strip (description_of f) = description_of f.
Proof. destruct f; apply strip_strip. Qed.

Lemma evaluate_priority_range (text language : str) :
  _evaluate_priority text language ∈ [1%Z; 2%Z; 3%Z].
Proof.
  unfold _evaluate_priority.
  destruct (keyword_loop _ _ 3) as [p|] eqn:Hhigh.
  - assert (p = 3%Z) as ->; [|set_solver].
    revert Hhigh.
    generalize (by_language high_priority_keywords_zh high_priority_keywords_en language).
    induction l as [|k l IH]; [done|]. cbn [keyword_loop].
    destruct (contains _ _); [by intros [= <-] | done].
  - destruct (keyword_loop _ _ 1) as [p|] eqn:Hlow; [|set_solver].
    assert (p = 1%Z) as ->; [|set_solver].
    revert Hlow.
    generalize (by_language low_priority_keywords_zh low_priority_keywords_en language).
    induction l as [|k l IH]; [done|]. cbn [keyword_loop].
    destruct (contains _ _); [by intros [= <-] | done].
Qed.

Lemma extract_todo_items_elem (text language : str) (item : Todo.item) :
  item ∈ extract_todo_items text language →
  ∃ pattern f, pattern ∈ by_language todo_patterns_zh todo_patterns_en language
    ∧ f ∈ findall ignorecase_multiline pattern text
    ∧ todo_of_match language f = Some item.
Proof.
  intros Hin. unfold extract_todo_items in Hin.
  eapply elem_of_sublist in Hin; [|apply unique_loop_sublist].
  unfold todo_candidates in Hin. apply list_elem_of_bind in Hin as (pattern & Hin & Hp).
  apply list_elem_of_omap in Hin as (f & Hf & Hitem). by exists pattern, f.
Qed.

(** X14: every extracted item has a description of more than 3
    characters without white space around it, the status ['pending'],
    a priority of 1, 2 or 3, and as source the first 100 characters of
    its description. *)
Theorem todo_items_wellformed (text language : str) (item : Todo.item) :
  item ∈ extract_todo_items text language →
  (3 < length (Todo.description item))%nat
  ∧ strip (Todo.description item) = Todo.description item
  ∧ Todo.status item = u "pending"
  ∧ Todo.priority item ∈ [1%Z; 2%Z; 3%Z]
  ∧ Todo.extracted_from item = take 100 (Todo.description item).
Proof.
  intros Hin. apply extract_todo_items_elem in Hin as (pattern & f & _ & _ & Hitem).
  apply todo_of_match_inv in Hitem as (Hd & Hlen & _ & Hp & _ & Hs & He).
  split_and!; [done | rewrite Hd; apply description_of_stripped | done | | done].
  rewrite Hp. apply evaluate_priority_range.
Qed.

(** The item of the whole line is extracted from the line. *)
Lemma action_item_extracted : action_item ∈ extract_todo_items action_line (u "zh").
Proof.
  assert (∃ first, extract_todo_items action_line (u "zh") = [first; action_item])
    as [first ->] by (vm_compute; eexists; reflexivity).
  right. left.
Defined.

(** On the item of a labelled line. *)
Lemma todo_items_wellformed_witness :
  action_item ∈ extract_todo_items action_line (u "zh")
  ∧ (3 < length (Todo.description action_item))%nat
  ∧ strip (Todo.description action_item) = Todo.description action_item
  ∧ Todo.status action_item = u "pending"
  ∧ Todo.priority action_item ∈ [1%Z; 2%Z; 3%Z]
  ∧ Todo.extracted_from action_item = take 100 (Todo.description action_item).
Proof.
  split; [exact action_item_extracted|].
  exact (todo_items_wellformed action_line (u "zh") action_item action_item_extracted).
Defined.

(** X15: the assignee, the due date and the priority of an extracted
    item are derived from its description alone, not from the text
    around it: the assignee and the due date are pieces of the
    description. *)
Theorem todo_item_fields_from_description (text language : str) (item : Todo.item) :
  item ∈ extract_todo_items text language →
  Todo.assignee item = _extract_assignee (Todo.description item) language
  ∧ Todo.due_date item = _extract_due_date (Todo.description item) language
  ∧ Todo.priority item = _evaluate_priority (Todo.description item) language
  ∧ substring (Todo.assignee item) (Todo.description item)
  ∧ from_option (fun due => substring due (Todo.description item)) True (Todo.due_date item).
Proof.
  intros Hin. apply extract_todo_items_elem in Hin as (pattern & f & _ & _ & Hitem).
  apply todo_of_match_inv in Hitem as (_ & _ & Ha & Hp & Hdue & _).
  split_and!; [done | done | done | rewrite Ha; apply extract_assignee_in |].
  destruct (Todo.due_date item) as [due|] eqn:Hd; [|done]. cbn.
  symmetry in Hdue. by apply extract_due_date_in in Hdue as [Hsub _].
Qed.

(** On the item of a labelled line. *)
Lemma todo_item_fields_from_description_witness :
  action_item ∈ extract_todo_items action_line (u "zh")
  ∧ Todo.assignee action_item = _extract_assignee (Todo.description action_item) (u "zh")
  ∧ Todo.due_date action_item = _extract_due_date (Todo.description action_item) (u "zh")
  ∧ Todo.priority action_item = _evaluate_priority (Todo.description action_item) (u "zh")
  ∧ substring (Todo.assignee action_item) (Todo.description action_item)
  ∧ from_option (fun due => substring due (Todo.description action_item)) True
      (Todo.due_date action_item).
Proof.
  split; [exact action_item_extracted|].
  exact (todo_item_fields_from_description action_line (u "zh") action_item
           action_item_extracted).
Defined.

(** *** Key information *)

Lemma found_of_in (text : str) (r : regex) (m : match_obj) :
  match_in text r m → found_in text (found_of r m).
Proof.
  intros (Hm & Hg & _). unfold found_of.
  destruct (ngroups r) as [|[|n]]; cbn [found_in]; [done | by apply group1_in |].
  apply Forall_fmap. eapply Forall_impl; [exact Hg|]. intros [t|] Ht; cbn [default].
  - by apply Ht.
  - apply substring_nil.
Qed.

Lemma findall_in (fl : flags) (r : regex) (text : str) :
  Forall (found_in text) (findall fl r text).
Proof.
  unfold findall. apply Forall_fmap. eapply Forall_impl; [apply finditer_in|].
  intros m. apply found_of_in.
Qed.

Lemma found_str_in (text : str) (r : regex) (f : found) :
  ngroups r = O → f ∈ findall no_flags r text → substring (found_str f) text.
Proof.
  intros Hn Hf. unfold findall in Hf. apply list_elem_of_fmap in Hf as (m & -> & Hm).
  pose proof (finditer_in no_flags r text) as Hall. rewrite Forall_forall in Hall.
  apply Hall in Hm as (Hm & _). unfold found_of. by rewrite Hn.
Qed.

Lemma all_matches_in (patterns : list regex) (text : str) :
  Forall (fun r => ngroups r = O) patterns →
  Forall (fun t => substring t text)
    (patterns ≫= (fun pattern => found_str <$> findall no_flags pattern text)).
Proof.
  intros Hall. apply Forall_forall. intros t Ht.
  apply list_elem_of_bind in Ht as (pattern & Ht & Hp).
  apply list_elem_of_fmap in Ht as (f & -> & Hf).
  rewrite Forall_forall in Hall. apply (found_str_in text pattern); [by apply Hall | done].
Qed.

Lemma int_of_digits_nonneg (ds : str) : (0 ≤ int_of_digits ds)%Z.
Proof.
  unfold int_of_digits.
  assert (∀ acc, (0 ≤ acc)%Z →
            (0 ≤ fold_left (fun acc d => (acc * 10 + Z.of_N (d - 48))%Z) ds acc)%Z) as Hgen;
    [|by apply Hgen].
  induction ds as [|d ds IH]; intros acc Hacc; cbn [fold_left]; [done|]. apply IH. lia.
Qed.

(** A number read from a match is not negative. *)
Lemma parse_number_nonneg (num : str) : (0 <= number_value (parse_number num))%Q.
Proof.
  unfold parse_number. destruct (bool_decide (46 ∈ num)); cbn [number_value].
  - pose proof (int_of_digits_nonneg (before_point num)) as Hw.
    pose proof (int_of_digits_nonneg (drop (S (length (before_point num))) num)) as Hf.
    apply Qle_trans with (inject_Z (int_of_digits (before_point num)) + 0)%Q.
    + rewrite Qplus_0_r. change 0%Q with (inject_Z 0). by rewrite <- Zle_Qle.
    + apply Qplus_le_r. unfold Qle. simpl. lia.
  - change 0%Q with (inject_Z 0). rewrite <- Zle_Qle. apply int_of_digits_nonneg.
Qed.


(** *** Events *)

Lemma list_index_lookup (sentence : str) (sentences : list str) :
  sentence ∈ sentences → sentences !! list_index sentence sentences = Some sentence.
Proof.
  induction sentences as [|s rest IH]; intros Hin; [by apply elem_of_nil in Hin|].
  cbn [list_index]. unfold str_eqb. destruct (bool_decide_reflect (s = sentence)) as [->|Hne].
  - done.
  - apply elem_of_cons in Hin as [->|Hin]; [done|]. by apply IH.
Qed.

Lemma length_insert_by_index (x : Timeline.item) (l : list Timeline.item) :
  length (insert_by_index x l) = S (length l).
Proof.
  induction l as [|y l IH]; [done|]. cbn [insert_by_index].
  destruct (_ <=? _)%nat; [done|]. cbn [length]. by rewrite IH.
Qed.

Lemma length_sort_by_index (l : list Timeline.item) : length (sort_by_index l) = length l.
Proof.
  induction l as [|x l IH]; [done|]. unfold sort_by_index in *. cbn [foldr].
  rewrite length_insert_by_index. cbn [length]. by rewrite IH.
Qed.

Lemma insert_by_index_perm (x : Timeline.item) (l : list Timeline.item) :
  insert_by_index x l ≡ₚ x :: l.
Proof.
  induction l as [|y l IH]; [done|]. cbn [insert_by_index].
  destruct (_ <=? _)%nat; [done|]. rewrite IH. apply Permutation_swap.
Qed.

Lemma sort_by_index_perm (l : list Timeline.item) : sort_by_index l ≡ₚ l.
Proof.
  induction l as [|x l IH]; [done|]. unfold sort_by_index in *. cbn [foldr].
  rewrite insert_by_index_perm. by f_equiv.
Qed.

Lemma length_timeline_loop (language : str) (sentences todo : list str)
    (acc : list Timeline.item) :
  (length acc ≤ length (timeline_loop language sentences todo acc)
   ≤ length acc + length todo)%nat.
Proof.
  revert acc. induction todo as [|s todo IH]; intros acc; cbn [timeline_loop]; [simpl; lia|].
  destruct (timeline_of_sentence language sentences (length acc) s) as [item|].
  - specialize (IH (acc ++ [item])). rewrite length_app in IH. simpl in *. lia.
  - specialize (IH acc). simpl. lia.
Qed.

(** An event of the loop is one of the list built so far, or the event
    of a later sentence, made when fewer events than the loop returns
    had been made. *)
Lemma timeline_loop_elem_bound (language : str) (sentences todo : list str)
    (acc : list Timeline.item) (item : Timeline.item) :
  item ∈ timeline_loop language sentences todo acc →
  item ∈ acc ∨ ∃ emitted sentence, sentence ∈ todo
    ∧ (emitted < length (timeline_loop language sentences todo acc))%nat
    ∧ timeline_of_sentence language sentences emitted sentence = Some item.
Proof.
  revert acc. induction todo as [|s todo IH]; intros acc; cbn [timeline_loop]; [by left|].
  destruct (timeline_of_sentence language sentences (length acc) s) as [item'|] eqn:Hs.
  - intros Hin. apply IH in Hin as [Hin|(emitted & sentence & Hin & Hlt & Hitem)].
    + apply elem_of_app in Hin as [Hin|Hin]; [by left|].
      apply list_elem_of_singleton in Hin as ->. right. exists (length acc), s.
      split_and!; [left | | done].
      pose proof (length_timeline_loop language sentences todo (acc ++ [item'])) as Hlen.
      rewrite length_app in Hlen. simpl in Hlen. lia.
    + right. exists emitted, sentence. split_and!; [by right | done | done].
  - intros Hin. apply IH in Hin as [Hin|(emitted & sentence & Hin & Hlt & Hitem)]; [by left|].
    right. exists emitted, sentence. split_and!; [by right | done | done].
Qed.

Lemma list_index_first (sentence : str) (sentences : list str) (i : nat) :
  sentences !! i = Some sentence → (list_index sentence sentences ≤ i)%nat.
Proof.
  revert i. induction sentences as [|s rest IH]; intros i Hi; [done|].
  cbn [list_index]. unfold str_eqb. destruct (bool_decide_reflect (s = sentence)) as [->|Hne].
  - lia.
  - destruct i as [|i]; simpl in Hi; [congruence|]. apply IH in Hi. lia.
Qed.

Lemma extract_timeline_data_elem (sent_tokenize : str → list str) (text language : str)
    (item : Timeline.item) :
  item ∈ extract_timeline_data sent_tokenize text language →
  let sentences := segment_text sent_tokenize language text mode_sentence in
  ∃ emitted sentence, sentence ∈ sentences
    ∧ (emitted < length (extract_timeline_data sent_tokenize text language))%nat
    ∧ timeline_of_sentence language sentences emitted sentence = Some item.
Proof.
  intros Hin. cbv zeta. unfold extract_timeline_data in *.
  rewrite length_sort_by_index. apply (proj1 (sort_by_index_elem _ _)) in Hin.
  apply timeline_loop_elem_bound in Hin as [Hin|Hin]; [by apply elem_of_nil in Hin | done].
Qed.

(** X17: every event is the event of a sentence of the text: its
    description is a sentence, and its index is the position of the
    first sentence equal to it. *)
Theorem timeline_event_sentence (sent_tokenize : str → list str) (text language : str)
    (item : Timeline.item) :
  item ∈ extract_timeline_data sent_tokenize text language →
  let sentences := segment_text sent_tokenize language text mode_sentence in
  sentences !! Timeline.sentence_index item = Some (Timeline.description item)
  ∧ ∀ i, sentences !! i = Some (Timeline.description item) →
         (Timeline.sentence_index item ≤ i)%nat.
Proof.
  intros Hin. apply extract_timeline_data_elem in Hin
    as (emitted & sentence & Hin & _ & Hitem). cbv zeta.
  apply timeline_of_sentence_fields in Hitem as (_ & -> & ->).
  split; [by apply list_index_lookup | apply list_index_first].
Qed.

(** X18: the events are the events of the loop over the sentences,
    sorted by sentence index: the same events, in ascending order of
    index, and not more of them than sentences. *)
Theorem timeline_is_sorted_loop (sent_tokenize : str → list str) (text language : str) :
  let sentences := segment_text sent_tokenize language text mode_sentence in
  let events := extract_timeline_data sent_tokenize text language in
  events ≡ₚ timeline_loop language sentences sentences []
  ∧ Sorted index_le events
  ∧ (length events ≤ length sentences)%nat.
Proof.
  cbv zeta. split_and!.
  - apply sort_by_index_perm.
  - apply extract_timeline_data_sorted.
  - unfold extract_timeline_data. rewrite length_sort_by_index.
    pose proof (length_timeline_loop language
                  (segment_text sent_tokenize language text mode_sentence)
                  (segment_text sent_tokenize language text mode_sentence) []) as Hlen.
    cbn [length] in Hlen. lia.
Qed.

Lemma timeline_of_sentence_inv (language : str) (sentences : list str) (emitted : nat)
    (sentence : str) (item : Timeline.item) :
  timeline_of_sentence language sentences emitted sentence = Some item →
  let time_matches := time_patterns ≫= (fun pattern => findall no_flags pattern sentence) in
  if Timeline.has_time item
  then ∃ first, head time_matches = Some first ∧ Timeline.time item = first_time first
  else time_matches = []
       ∧ Timeline.time item = u "事件_" ++ str_of_nat emitted
       ∧ any_keyword (by_language importance_keywords_zh importance_keywords_en language)
           sentence = true.
Proof.
  unfold timeline_of_sentence. cbv zeta.
  destruct (time_patterns ≫= _) as [|first rest] eqn:Hm.
  - destruct (any_keyword _ sentence) eqn:Hk; [|done]. intros [= <-]. by cbn.
  - intros [= <-]. cbn. by exists first.
Qed.


(** The second of the two repeated sentences gives an event. *)
Lemma second_decision_extracted :
  second_decision ∈ extract_timeline_data sample_tokenize repeated_sentences (u "zh").
Proof.
  assert (∃ first, extract_timeline_data sample_tokenize repeated_sentences (u "zh")
                   = [first; second_decision])
    as [first ->] by (vm_compute; eexists; reflexivity).
  right. left.
Defined.

(** On the second of two repeated sentences: its index is that of the
    first. *)
Lemma timeline_event_sentence_witness :
  second_decision ∈ extract_timeline_data sample_tokenize repeated_sentences (u "zh")
  ∧ let sentences := segment_text sample_tokenize (u "zh") repeated_sentences mode_sentence in
    sentences !! Timeline.sentence_index second_decision
      = Some (Timeline.description second_decision)
    ∧ ∀ i, sentences !! i = Some (Timeline.description second_decision) →
           (Timeline.sentence_index second_decision ≤ i)%nat.
Proof.
  split; [exact second_decision_extracted|].
  exact (timeline_event_sentence sample_tokenize repeated_sentences (u "zh") second_decision
           second_decision_extracted).
Defined.


(** *** Scores *)

Lemma Qle_bool_cases (a b : Q) : if Qle_bool a b then (a <= b)%Q else (b < a)%Q.
Proof.
  destruct (Qle_bool a b) eqn:H; [by apply Qle_bool_iff|].
  apply Qnot_le_lt. intros H'. apply Qle_bool_iff in H'. congruence.
Qed.

(** [max(0, min(100, x))] lies between 0 and 100. *)
Lemma clamp_bounds (x : number) :
  (0 <= number_value (py_max (Int 0) (py_min (Int 100) x)) <= 100)%Q.
Proof.
  unfold py_max, py_min. cbn [number_value].
  pose proof (Qle_bool_cases (inject_Z 100) (number_value x)) as H1.
  destruct (Qle_bool (inject_Z 100) (number_value x)); cbn [number_value].
  - by vm_compute.
  - pose proof (Qle_bool_cases (number_value x) (inject_Z 0)) as H2.
    destruct (Qle_bool (number_value x) (inject_Z 0)); cbn [number_value].
    + by vm_compute.
    + split; [by apply Qlt_le_weak | by apply Qlt_le_weak].
Qed.

(** Rounding to the nearest integer stays within integer bounds. *)
Lemma round_half_even_bounds (q : Q) (lo hi : Z) :
  (inject_Z lo <= q <= inject_Z hi)%Q → (lo ≤ round_half_even q ≤ hi)%Z.
Proof.
  intros [Hlo Hhi]. unfold Qle in Hlo, Hhi. simpl in Hlo, Hhi.
  unfold round_half_even. cbv zeta.
  pose proof (Z.div_mod (Qnum q) (Z.pos (Qden q)) ltac:(done)) as Hdm.
  pose proof (Z.mod_pos_bound (Qnum q) (Z.pos (Qden q)) ltac:(done)) as Hm.
  set (f := (Qnum q / Z.pos (Qden q))%Z) in *.
  set (m := (Qnum q mod Z.pos (Qden q))%Z) in *.
  set (d := Z.pos (Qden q)) in *.
  assert (0 < d)%Z as Hd by done.
  destruct (Z.ltb_spec (2 * m) d); [nia|].
  destruct (Z.ltb_spec d (2 * m)); [nia|].
  destruct (Z.even f); nia.
Qed.

Lemma round2_bounds (x : number) :
  (0 <= number_value x <= 100)%Q → (0 <= number_value (round2 x) <= 100)%Q.
Proof.
  destruct x as [z|q]; [done|]. cbn [round2 number_value]. intros [Hlo Hhi].
  assert (0 ≤ round_half_even (q * 100) ≤ 10000)%Z as [H1 H2].
  { apply round_half_even_bounds. unfold Qle in *. simpl in *. lia. }
  unfold Qle. simpl. lia.
Qed.

(** X20: the readability score of every report lies between 0 and
    100. *)
Theorem readability_bounds (sent_tokenize word_tokenize : str → list str)
    (jieba_cut : option (str → list str)) (language text : str) :
  let report := evaluate_text_quality sent_tokenize word_tokenize jieba_cut language text in
  (0 <= number_value (Quality.readability_score report) <= 100)%Q.
Proof.
  cbv zeta. unfold evaluate_text_quality. cbn [Quality.readability_score].
  apply round2_bounds. destruct (_ && _); [|by vm_compute].
  destruct (is_en language); apply clamp_bounds.
Qed.

Lemma clamp_above_50 (x : Q) :
  Qle_bool (number_value (py_max (Int 0) (py_min (Int 100) (Float x)))) 50 = false
  ↔ (50 < x)%Q.
Proof.
  unfold py_max, py_min. cbn [number_value].
  pose proof (Qle_bool_cases (inject_Z 100) x) as H1.
  destruct (Qle_bool (inject_Z 100) x); cbn [number_value].
  - split; [intros _ | by vm_compute].
    eapply Qlt_le_trans; [|exact H1]. by vm_compute.
  - pose proof (Qle_bool_cases x (inject_Z 0)) as H2.
    destruct (Qle_bool x (inject_Z 0)); cbn [number_value].
    + split; [by vm_compute|]. intros H. exfalso.
      apply (Qlt_irrefl 50). eapply Qlt_le_trans; [exact H|].
      eapply Qle_trans; [exact H2|]. by vm_compute.
    + pose proof (Qle_bool_cases x 50) as H3. destruct (Qle_bool x 50).
      * split; [done|]. intros H. exfalso. apply (Qlt_irrefl 50).
        by eapply Qlt_le_trans.
      * done.
Qed.

Lemma true_div_below (a s k : nat) :
  (0 < s)%nat →
  (50 < 100 - true_div a s / inject_Z (Z.of_nat (S k)))%Q ↔ (a < 50 * S k * s)%nat.
Proof.
  intros Hs. unfold true_div, Qlt, Qminus, Qplus, Qopp, Qdiv, Qmult, Qinv, inject_Z.
  cbn [Qnum Qden]. rewrite !Pos2Z.inj_mul.
  assert (Z.pos (Pos.of_nat s) = Z.of_nat s) as -> by (destruct s; [lia|]; lia).
  destruct (Z.of_nat (S k)) as [|p|p] eqn:Hk; [lia| |lia]. cbn [Qnum Qden Z.sgn Z.abs Z.to_pos].
  assert (Z.pos p = Z.of_nat (S k)) as Hp by lia. nia.
Qed.

Lemma completeness_above_70 (n : nat) :
  (70 <? (if (Z.of_nat n <? 50)%Z then 30
          else if (10000 <? Z.of_nat n)%Z then 90 else 100))%Z = true
  ↔ (50 ≤ n)%nat.
Proof.
  destruct (Z.ltb_spec (Z.of_nat n) 50); [split; [done|lia]|].
  destruct (Z.ltb_spec 10000 (Z.of_nat n)); (split; [lia|done]).
Qed.

(** X21: the verdict of a report is ['良好'] exactly when the text has at
    least 50 characters and some token, and its sentences are short on
    average: fewer than 50 tokens per sentence for the language ['en'],
    fewer than 500 characters per sentence otherwise.  In every other
    case it is ['需要改进']. *)
Theorem quality_verdict (sent_tokenize word_tokenize : str → list str)
    (jieba_cut : option (str → list str)) (language text : str) :
  let report := evaluate_text_quality sent_tokenize word_tokenize jieba_cut language text in
  let short_sentences :=
    if is_en language
    then (Quality.word_count report < 50 * Quality.sentence_count report)%nat
    else (Quality.char_count report < 500 * Quality.sentence_count report)%nat in
  (Quality.summary report = u "良好"
   ↔ (50 ≤ Quality.char_count report)%nat ∧ (0 < Quality.word_count report)%nat
     ∧ short_sentences)
  ∧ (Quality.summary report ≠ u "良好" → Quality.summary report = u "需要改进").
Proof.
  cbv zeta. unfold evaluate_text_quality.
  cbn [Quality.summary Quality.char_count Quality.word_count Quality.sentence_count].
  set (chars := length text).
  set (words := length (tokenize_words word_tokenize jieba_cut language text)).
  set (sentences := length (segment_text sent_tokenize language text mode_sentence)).
  assert (u "需要改进" ≠ u "良好") as Hne by by vm_compute.
  pose proof (completeness_above_70 chars) as Hc.
  destruct (70 <? _)%Z; [|split; [split; [done | intros [H _]; by apply Hc in H] | done]].
  assert (50 ≤ chars)%nat as Hchars by by apply Hc.
  cbn [andb].
  destruct (Nat.ltb_spec 0 sentences) as [Hs|Hs]; cbn [andb].
  2:{ replace (Qle_bool (number_value (Int 0)) 50) with true by by vm_compute.
      cbn [negb]. split; [|done]. split; [done|]. intros (_ & _ & H).
      destruct (is_en language); lia. }
  destruct (Nat.ltb_spec 0 words) as [Hw|Hw]; cbn [andb].
  2:{ replace (Qle_bool (number_value (Int 0)) 50) with true by by vm_compute.
      cbn [negb]. split; [|done]. split; [done|]. intros (_ & H & _). lia. }
  destruct (is_en language).
  - pose proof (true_div_below words sentences 0 Hs) as Hdiv.
    assert (true_div words sentences / inject_Z (Z.of_nat 1) == true_div words sentences)%Q
      as Hone by (unfold Qdiv; change (/ inject_Z (Z.of_nat 1))%Q with 1%Q; apply Qmult_1_r).
    assert (Qle_bool (number_value (py_max (Int 0) (py_min (Int 100)
              (Float (100 - true_div words sentences))))) 50 = false
            ↔ (words < 50 * sentences)%nat) as Hiff.
    { rewrite clamp_above_50. rewrite <- Hone. rewrite Hdiv. lia. }
    destruct (Qle_bool _ 50); cbn [negb].
    + split; [|done]. split; [done|]. intros (_ & _ & H). by apply Hiff in H.
    + split; [|done]. split; [|done]. intros _. split_and!; [done..|]. by apply Hiff.
  - pose proof (true_div_below chars sentences 9 Hs) as Hdiv.
    assert (Qle_bool (number_value (py_max (Int 0) (py_min (Int 100)
              (Float (100 - true_div chars sentences / 10))))) 50 = false
            ↔ (chars < 500 * sentences)%nat) as Hiff.
    { rewrite clamp_above_50. change 10%Q with (inject_Z (Z.of_nat 10)). rewrite Hdiv. lia. }
    destruct (Qle_bool _ 50); cbn [negb].
    + split; [|done]. split; [done|]. intros (_ & _ & H). by apply Hiff in H.
    + split; [|done]. split; [|done]. intros _. split_and!; [done..|]. by apply Hiff.
Qed.

(** *** The generation service *)





(** *** The structure of a summary *)

Lemma section_line_ngroups (label : regex) :
  ngroups label = O → ngroups (section_line label) = 1%nat.
Proof. intros H. unfold section_line. cbn [seqs ngroups]. by rewrite H. Qed.

Lemma lines_of_in (label : regex) (summary_text : str) :
  ngroups label = O → Forall (stripped_piece summary_text) (lines_of label summary_text).
Proof.
  intros Hl. unfold lines_of, findall. apply Forall_fmap, Forall_fmap.
  eapply Forall_impl; [apply finditer_in|]. intros m (_ & Hg & _).
  unfold compose, found_of. rewrite (section_line_ngroups label Hl). cbn [found_str].
  split; [|apply strip_strip].
  eapply substring_trans; [apply strip_substring | by apply group1_in].
Qed.

Lemma topic_of_in (label : regex) (summary_text : str) :
  stripped_piece summary_text (topic_of label summary_text).
Proof.
  unfold topic_of. destruct (search _ _ _) as [m|] eqn:Hs.
  - apply search_inv in Hs as (_ & Hg & _). split; [|apply strip_strip].
    eapply substring_trans; [apply strip_substring | by apply group1_in].
  - split; [apply substring_nil | done].
Qed.

(** X24: every entry of the structure parsed from a summary (the topic
    and each issue, point, decision and action item) is a piece of the
    summary, taken as it is and stripped. *)
Theorem summary_structure_verbatim (summary_text language : str) :
  let structure := _parse_summary_to_structure summary_text language in
  stripped_piece summary_text (Summary.meeting_topic structure)
  ∧ Forall (stripped_piece summary_text) (Summary.discussion_issues structure)
  ∧ Forall (stripped_piece summary_text) (Summary.discussion_points structure)
  ∧ Forall (stripped_piece summary_text) (Summary.decisions structure)
  ∧ Forall (stripped_piece summary_text) (Summary.action_items structure).
Proof.
  cbv zeta. unfold _parse_summary_to_structure.
  destruct (is_zh language);
    cbn [Summary.meeting_topic Summary.discussion_issues Summary.discussion_points
         Summary.decisions Summary.action_items];
    split_and!; first [apply topic_of_in | by apply lines_of_in].
Qed.

(** *** Sentences and paragraphs *)

Lemma concat_elem_substring (x : str) (xs : list str) :
  x ∈ xs → substring x (concat xs).
Proof.
  intros Hin. apply list_elem_of_split in Hin as (pre & post & ->).
  exists (concat pre), (concat post). by rewrite concat_app.
Qed.

(** The pieces of [re.split] are pieces of the text. *)
Lemma split_pieces_in (fl : flags) (r : regex) (text : str) :
  Forall (fun p => substring p text) (split fl r text).
Proof.
  unfold split. destruct (scan fl r text None O []) as [ms tl] eqn:Hscan.
  apply scan_reconstruct in Hscan; [|lia].
  change (rev [] ++ drop 0 text) with text in Hscan.
  apply Forall_app. split.
  - apply Forall_fmap, Forall_forall. intros [gap m] Hin. cbn [fst].
    rewrite <- Hscan. eapply substring_trans; [|apply prefix_substring; by eexists].
    eapply substring_trans; [|apply concat_elem_substring].
    2:{ apply list_elem_of_fmap. by exists (gap, m). }
    cbn [fst snd]. apply prefix_substring. by eexists.
  - apply Forall_singleton. rewrite <- Hscan. apply suffix_substring. by eexists.
Qed.

Lemma stripped_nonempty_spec (parts : list str) (x : str) :
  x ∈ stripped_nonempty parts → x ≠ [] ∧ strip x = x ∧ ∃ p, p ∈ parts ∧ x = strip p.
Proof.
  unfold stripped_nonempty. intros Hin.
  apply list_elem_of_fmap in Hin as (p & -> & Hp).
  apply list_elem_of_filter in Hp as [Hne Hp].
  split_and!; [done | apply strip_strip | by exists p].
Qed.

Lemma in_items_chars (l : str) (c : cp) : in_items (CChar <$> l) c = false → c ∉ l.
Proof.
  induction l as [|x l IH]; [intros _; apply not_elem_of_nil|].
  cbn [fmap list_fmap in_items existsb citem_match]. intros H.
  apply orb_false_elim in H as [Hx Hl]. apply N.eqb_neq in Hx.
  apply not_elem_of_cons. split; [done | by apply IH].
Qed.

(** The pieces between the matches of a repeated class hold no
    character of the class. *)
Lemma split_plus_pieces (cs : cset) (text : str) :
  Forall (Forall (fun c => cset_match no_flags cs c = false)) (split no_flags (plus cs) text).
Proof.
  unfold split. destruct (scan no_flags (plus cs) text None O []) as [ms tl] eqn:Hscan.
  apply (scan_gaps no_flags (plus cs) (fun c => cset_match no_flags cs c = false))
    in Hscan as [Hms Htl]; [| | |constructor].
  - apply Forall_app. split; [by apply Forall_fmap | by apply Forall_singleton].
  - intros prev c s. apply match_here_plus_none.
  - intros prev s m H. apply match_here_repeat in H as (Hlo & _ & Hn). lia.
Qed.

(** X25: the paragraphs of a text, and its sentences under the language
    ['zh'], are pieces of the text, not empty and without white space
    around them; a sentence holds none of the terminators at which the
    text is cut. *)
Theorem segments_are_pieces (sent_tokenize : str → list str) (language text : str) :
  Forall (fun p => p ≠ [] ∧ stripped_piece text p)
    (segment_text sent_tokenize language text mode_paragraph)
  ∧ Forall (fun s => s ≠ [] ∧ stripped_piece text s ∧ Forall (fun c => c ∉ u "。！？；") s)
      (segment_text sent_tokenize (u "zh") text mode_sentence).
Proof.
  split.
  - cbn [segment_text]. unfold paragraphs. apply Forall_forall. intros p Hp.
    apply stripped_nonempty_spec in Hp as (Hne & Hs & q & Hq & ->).
    split; [done|]. split; [|done].
    pose proof (split_pieces_in no_flags (seqs [RChar (CLit 10); spaces; RChar (CLit 10)]) text)
      as Hall.
    rewrite Forall_forall in Hall. eapply substring_trans; [apply strip_substring|].
    by apply Hall.
  - change (segment_text sent_tokenize (u "zh") text mode_sentence)
      with (stripped_nonempty (split no_flags (plus (CIn (chars "。！？；"))) text)).
    apply Forall_forall. intros s Hs.
    apply stripped_nonempty_spec in Hs as (Hne & Hs & q & Hq & ->).
    split; [done|]. split; [split; [|done]|].
    + pose proof (split_pieces_in no_flags (plus (CIn (chars "。！？；"))) text) as Hall.
      rewrite Forall_forall in Hall. eapply substring_trans; [apply strip_substring|].
      by apply Hall.
    + pose proof (split_plus_pieces (CIn (chars "。！？；")) text) as Hall.
      rewrite Forall_forall in Hall. apply Forall_strip.
      eapply Forall_impl; [by apply Hall|]. intros c Hc. by apply in_items_chars.
Qed.

(** *** Exports of the timeline *)

Lemma has_function_event (item : Timeline.item) : has_function (py_of_event item) = false.
Proof. done. Qed.

Lemma has_function_events (timeline_data : list Timeline.item) :
  has_function (PList (py_of_event <$> timeline_data)) = false.
Proof.
  rewrite has_function_PList. induction timeline_data as [|item rest IH]; [done|].
  cbn [fmap list_fmap existsb]. rewrite has_function_event. exact IH.
Qed.

(** X26: the export of a timeline returns a text for the formats
    ['json'], ['csv'] and ['html'], whatever the events are (unlike the
    export of a whole result, the JSON rendering of the events never
    fails), and raises [ValueError] for every other format. *)
Theorem export_timeline_formats (float_repr : Q → str)
    (timeline_data : list Timeline.item) (format_type : str) :
  (format_type ∈ [u "json"; u "csv"; u "html"] →
     ∃ s, export_timeline float_repr timeline_data format_type = inr s)
  ∧ (format_type ∉ [u "json"; u "csv"; u "html"] →
     export_timeline float_repr timeline_data format_type = inl ValueError).
Proof.
  assert (u "csv" ≠ u "json") as Hcj by by vm_compute.
  assert (u "html" ≠ u "json") as Hhj by by vm_compute.
  assert (u "html" ≠ u "csv") as Hhc by by vm_compute.
  unfold export_timeline, str_eqb. split.
  - intros Hin. repeat (apply elem_of_cons in Hin as [->|Hin]);
      [| | |by apply elem_of_nil in Hin].
    + rewrite bool_decide_eq_true_2 by done. apply encode_returns, has_function_events.
    + rewrite bool_decide_eq_false_2, bool_decide_eq_true_2 by done. by eexists.
    + rewrite !bool_decide_eq_false_2, bool_decide_eq_true_2 by done. by eexists.
  - intros Hout. rewrite !bool_decide_eq_false_2; [done|..];
      intros ->; apply Hout; set_solver.
Qed.

(** *** Stop words *)

(** X27: removing the stop words keeps the other tokens in their order,
    leaves no token that is a stop word in lower case, and changes
    nothing when it is done again. *)
Theorem remove_stopwords_idempotent (stopwords_english : list str)
    (language : str) (tokens : list str) :
  let stop_words := if is_zh language then stop_words_zh else stopwords_english in
  let kept := remove_stopwords stopwords_english language tokens in
  sublist kept tokens
  ∧ Forall (fun token => lower token ∉ stop_words) kept
  ∧ (∀ token, token ∈ tokens → lower token ∉ stop_words → token ∈ kept)
  ∧ remove_stopwords stopwords_english language kept = kept.
Proof.
  cbv zeta. unfold remove_stopwords. split_and!.
  - apply sublist_filter.
  - apply Forall_forall. intros token Hin. apply list_elem_of_filter in Hin as [Hin _].
    by rewrite elem_of_list_to_set in Hin.
  - intros token Hin Hstop. apply list_elem_of_filter. split; [|done].
    by rewrite elem_of_list_to_set.
  - rewrite list_filter_filter. apply list_filter_iff. tauto.
Qed.

(** *** The time of an event *)

(** Whether a repetition finds a match depends on what follows it only
    through the success of what follows. *)
Lemma rep_max_mono {A B} (p : cp → bool) (s : str) :
  ∀ (lo : nat) (hi : option nat) (prev : option cp)
    (k : option cp → str → option A) (k' : option cp → str → option B),
  (∀ p' s', is_Some (k p' s') → is_Some (k' p' s')) →
  is_Some (rep_max p lo hi prev s k) → is_Some (rep_max p lo hi prev s k').
Proof.
  induction s as [|c s IH]; intros lo hi prev k k' Hk.
  - cbn [rep_max]. destruct hi as [[|h]|], lo; try done; apply Hk.
  - assert (is_Some (match lo with O => k prev (c :: s) | S _ => None end) →
            is_Some (match lo with O => k' prev (c :: s) | S _ => None end)) as Hstop
      by (destruct lo; [apply Hk | done]).
    cbn [rep_max]. destruct hi as [[|h]|]; [exact Hstop| |];
      (destruct (p c); [|exact Hstop]);
      match goal with |- is_Some (match ?x with _ => _ end) →
                         is_Some (match ?y with _ => _ end) =>
        pose proof (IH (Nat.pred lo) _ (Some c) k k' Hk : is_Some x → is_Some y) as Hrec;
        destruct x as [r|]; [destruct y; [done | by destruct Hrec] | destruct y; [done|exact Hstop]]
      end.
Qed.

Lemma rep_min_mono {A B} (p : cp → bool) (s : str) :
  ∀ (lo : nat) (hi : option nat) (prev : option cp)
    (k : option cp → str → option A) (k' : option cp → str → option B),
  (∀ p' s', is_Some (k p' s') → is_Some (k' p' s')) →
  is_Some (rep_min p lo hi prev s k) → is_Some (rep_min p lo hi prev s k').
Proof.
  induction s as [|c s IH]; intros lo hi prev k k' Hk.
  - cbn [rep_min]. destruct lo.
    + pose proof (Hk prev []) as Hstop. destruct (k prev []), (k' prev []); try done.
      * by destruct Hstop.
      * by destruct hi as [[|h]|].
    + by destruct hi as [[|h]|].
  - assert (is_Some (match hi with
                     | Some O => None
                     | _ => if p c then rep_min p (Nat.pred lo) (pred_bound hi) (Some c) s k
                            else None
                     end) →
            is_Some (match hi with
                     | Some O => None
                     | _ => if p c then rep_min p (Nat.pred lo) (pred_bound hi) (Some c) s k'
                            else None
                     end)) as Hmore.
    { destruct hi as [[|h]|]; [done| |]; (destruct (p c); [by apply IH | done]). }
    cbn [rep_min]. destruct lo; [|exact Hmore].
    pose proof (Hk prev (c :: s)) as Hstop.
    destruct (k prev (c :: s)), (k' prev (c :: s)); try done.
    by destruct Hstop.
Qed.

Lemma rmatch_mono (fl : flags) (r : regex) :
  ∀ (A B : Set) (prev : option cp) (s : str) (g1 g2 : groups)
    (k : option cp → str → groups → option A) (k' : option cp → str → groups → option B),
  (∀ p' s' g1' g2', is_Some (k p' s' g1') → is_Some (k' p' s' g2')) →
  is_Some (rmatch fl r prev s g1 k) → is_Some (rmatch fl r prev s g2 k').
Proof.
  induction r as [ | cs | a IHa b IHb | a IHa b IHb | n a IHa | greedy lo hi cs
                   | a IHa | a IHa | | ];
    intros A B prev s g1 g2 k k' Hk; cbn [rmatch].
  - apply Hk.
  - destruct s as [|c s]; [done|]. destruct (cset_match fl cs c); [apply Hk | done].
  - apply IHa. intros p' s' g1' g2'. by apply IHb.
  - intros H.
    pose proof (IHa A B prev s g1 g2 k k' Hk) as Ha.
    pose proof (IHb A B prev s g1 g2 k k' Hk) as Hb.
    destruct (rmatch fl a prev s g1 k), (rmatch fl a prev s g2 k'); try done.
    + by destruct Ha.
    + by apply Hb.
  - apply IHa. intros p' s' g1' g2'. apply Hk.
  - destruct greedy; [apply rep_max_mono | apply rep_min_mono];
      intros p' s'; apply Hk.
  - intros H.
    pose proof (IHa A B prev s g1 g2 k k' Hk) as Ha.
    destruct (rmatch fl a prev s g1 k), (rmatch fl a prev s g2 k'); try done.
    + by destruct Ha.
    + by eapply Hk.
  - intros H.
    pose proof (IHa groups groups prev s g1 g2 (fun _ _ g' => Some g') (fun _ _ g' => Some g')
                  ltac:(done)) as Ha.
    destruct (rmatch fl a prev s g1 _) as [g1'|]; [|done].
    destruct (rmatch fl a prev s g2 _) as [g2'|]; [by eapply Hk | by destruct Ha].
  - destruct (at_end fl s); [apply Hk | done].
  - destruct (at_word_boundary prev s); [apply Hk | done].
Qed.

Lemma hh_mm_at_prev (prev prev' : option cp) (s : str) : hh_mm_at prev s → hh_mm_at prev' s.
Proof. unfold hh_mm_at, hh_mm, between. cbn [seqs rmatch]. by destruct s. Qed.

Lemma hh_mm_at_intro {A : Set} (prev : option cp) (s : str) (g : groups)
    (k : option cp → str → groups → option A) :
  is_Some (rmatch no_flags hh_mm prev s g k) → hh_mm_at prev s.
Proof. apply rmatch_mono. done. Qed.

(** Where a time can be read, the first time pattern matches: what
    follows the time in it, [\s*(?:左右|许|时|分)?], cannot fail. *)
Lemma first_time_pattern_matches (prev : option cp) (s : str) :
  hh_mm_at prev s →
  is_Some (match_here no_flags
             (seqs [RGroup 1 hh_mm; spaces; ROpt (words ["左右"; "许"; "时"; "分"])])
             false prev s).
Proof.
  unfold hh_mm_at, match_here. cbn [seqs rmatch]. apply rmatch_mono.
  intros p' s' g1' g2' _. cbn [spaces star rmatch]. apply rep_max_zero_some.
  intros p'' s''. by destruct (rmatch _ _ _ _ _ _).
Qed.

Lemma seqs_snoc_cons (a : regex) (pre : list regex) (last : regex) :
  seqs ((a :: pre) ++ [last]) = RSeq a (seqs (pre ++ [last])).
Proof. by destruct pre. Qed.

(** A match of a sequence holds a match of its last member. *)
Lemma seqs_last_inv (fl : flags) (text : str) (pre : list regex) (last : regex) :
  ∀ (A : Set) (prev : option cp) (s : str) (g : groups)
    (k : option cp → str → groups → option A) (x : A),
  s `suffix_of` text → captures_in text g →
  rmatch fl (seqs (pre ++ [last])) prev s g k = Some x →
  ∃ p' s' g', s' `suffix_of` s ∧ rmatch fl last p' s' g' k = Some x.
Proof.
  induction pre as [|a pre IH]; intros A prev s g k x Hs Hg H.
  - by exists prev, s, g.
  - rewrite seqs_snoc_cons in H. cbn [rmatch] in H.
    apply (rmatch_inv fl text) in H as (p1 & s1 & g1 & H & Hs1 & Hg1 & _); [|done..].
    apply IH in H as (p2 & s2 & g2 & Hs2 & H); [|by etrans|done].
    exists p2, s2, g2. split; [by etrans | done].
Qed.

(** A match of a pattern that ends with a time holds a time. *)
Lemma ends_with_time (pre : list regex) (n : nat) (must_advance : bool)
    (prev : option cp) (s : str) :
  is_Some (match_here no_flags (seqs (pre ++ [RGroup n hh_mm])) must_advance prev s) →
  ∃ prev' s', s' `suffix_of` s ∧ hh_mm_at prev' s'.
Proof.
  unfold match_here. intros [x H].
  apply (seqs_last_inv no_flags s) in H as (p' & s' & g' & Hs' & H);
    [|done|apply Forall_replicate; by intros t [=]].
  exists p', s'. split; [done|]. cbn [rmatch] in H. by eapply hh_mm_at_intro.
Qed.

(** Without result, the scanner has seen no match at any position. *)
Lemma scan_nil_inv (fl : flags) (r : regex) :
  ∀ (s : str) (prev : option cp) (gap tl : str),
  scan fl r s prev O gap = ([], tl) →
  ∀ s', s' `suffix_of` s → ∃ prev', match_here fl r false prev' s' = None.
Proof.
  induction s as [|c s IH]; intros prev gap tl H s' Hs'; cbn [scan] in H.
  - apply suffix_nil_inv in Hs' as ->. exists prev.
    by destruct (match_here fl r false prev []) as [[[|n] m]|].
  - destruct (match_here fl r false prev (c :: s)) as [[[|n] m]|] eqn:Hm.
    + by destruct (match_here fl r true prev (c :: s)) as [[n2 m2]|], (scan _ _ _ _ _ _).
    + by destruct (scan _ _ _ _ _ _).
    + destruct Hs' as [[|x k] Hk]; simplify_eq/=; [by exists prev|].
      eapply IH; [done | by eexists].
Qed.

Lemma findall_nil_scan (fl : flags) (r : regex) (text : str) :
  findall fl r text = [] → ∃ tl, scan fl r text None O [] = ([], tl).
Proof.
  unfold findall, finditer. destruct (scan fl r text None O []) as [ms tl].
  intros H. apply fmap_nil_inv, fmap_nil_inv in H. cbn in H. subst ms. by exists tl.
Qed.

Lemma findall_one_group (fl : flags) (r : regex) (text : str) (f : found) :
  ngroups r = 1%nat → f ∈ findall fl r text → ∃ t, f = FStr t ∧ substring t text.
Proof.
  intros Hn Hf. unfold findall in Hf. apply list_elem_of_fmap in Hf as (m & -> & Hm).
  pose proof (finditer_in fl r text) as Hall. rewrite Forall_forall in Hall.
  apply Hall in Hm as (_ & Hg & _). unfold found_of. rewrite Hn.
  eexists. split; [done|]. by apply group1_in.
Qed.

(** The first match of the time patterns in a sentence is a text, not a
    tuple: where one of the patterns with two groups matches, a time
    can be read, and there the first pattern (one group) matches too. *)
Lemma head_time_matches (sentence : str) (first : found) :
  head (time_patterns ≫= (fun pattern => findall no_flags pattern sentence)) = Some first →
  ∃ t, first = FStr t ∧ substring t sentence.
Proof.
  unfold time_patterns. cbn [mbind list_bind app].
  destruct (findall no_flags (seqs [RGroup 1 hh_mm; spaces; ROpt _]) sentence)
    as [|f rest] eqn:H1.
  - apply findall_nil_scan in H1 as [tl H1].
    assert (∀ prev s', s' `suffix_of` sentence → ¬ hh_mm_at prev s') as Hnone.
    { intros prev s' Hs' Hat.
      destruct (scan_nil_inv _ _ _ _ _ _ H1 s' Hs') as [prev' Hm].
      apply (hh_mm_at_prev prev prev'), first_time_pattern_matches in Hat.
      rewrite Hm in Hat. by destruct Hat. }
    assert (∀ pre n, findall no_flags (seqs (pre ++ [RGroup n hh_mm])) sentence = [])
      as Hpre.
    { intros pre n. unfold findall, finditer. rewrite scan_none; [done|].
      intros prev s' Hs'.
      destruct (match_here no_flags _ false prev s') as [x|] eqn:Hm; [exfalso|done].
      destruct (ends_with_time pre n false prev s') as (prev' & s'' & Hs'' & Hat);
        [by rewrite Hm|].
      eapply Hnone; [|exact Hat]. by etrans. }
    pose proof (Hpre [RGroup 1 hh_mm; RChar (CIn (chars "～~-"))] 2%nat) as H2.
    pose proof (Hpre [RGroup 1 ymd_date; plus space] 2%nat) as H3.
    pose proof (Hpre [RGroup 1 zh_full_date; spaces; ROpt (words ["上午"; "下午"]); spaces]
                  2%nat) as H4.
    cbn [app] in H2, H3, H4. rewrite H2, H3, H4. cbn [app]. rewrite app_nil_r.
    intros Hhead. apply head_Some_elem_of in Hhead.
    apply elem_of_app in Hhead as [Hin|Hin].
    all: apply (findall_one_group no_flags _ sentence first) in Hin; [done|by_evaluation].
  - cbn [app head]. intros [= <-].
    assert (f ∈ findall no_flags
                  (seqs [RGroup 1 hh_mm; spaces; ROpt (words ["左右"; "许"; "时"; "分"])])
                  sentence) as Hin by (rewrite H1; left).
    apply findall_one_group in Hin; [done | by_evaluation].
Qed.


(** The long sentence gives its event. *)
Lemma long_sentence_event_extracted :
  long_sentence_event ∈ extract_timeline_data sample_tokenize long_sentence (u "zh").
Proof.
  assert (extract_timeline_data sample_tokenize long_sentence (u "zh") = [long_sentence_event])
    as -> by (vm_compute; reflexivity).
  left.
Defined.


(** *** What a run lets through *)

Lemma substring_Forall (P : cp → Prop) (a b : str) :
  substring a b → Forall P b → Forall P a.
Proof.
  intros (pre & post & ->) H. apply Forall_app in H as [_ H].
  by apply Forall_app in H as [H _].
Qed.

Lemma Forall_join (P : cp → Prop) (sep : str) (parts : list str) :
  Forall P sep → Forall (Forall P) parts → Forall P (join sep parts).
Proof.
  intros Hsep. induction 1 as [|p parts Hp Hparts IH]; [constructor|].
  cbn [join]. destruct parts as [|q parts]; [done|].
  apply Forall_app. split; [done|]. apply Forall_app. by split.
Qed.

Lemma description_of_Forall (P : cp → Prop) (text : str) (f : found) :
  P 32 → Forall P text → found_in text f → Forall P (description_of f).
Proof.
  intros Hsp Htext Hf. destruct f as [t|l]; cbn [description_of found_in] in *;
    apply Forall_strip.
  - by eapply substring_Forall.
  - apply Forall_join; [by repeat constructor|].
    apply Forall_forall. intros t Ht. apply list_elem_of_filter in Ht as [_ Ht].
    rewrite Forall_forall in Hf. eapply substring_Forall; [by apply Hf | done].
Qed.

Lemma zh_sentence_in (sent_tokenize : str → list str) (text sentence : str) :
  sentence ∈ segment_text sent_tokenize (u "zh") text mode_sentence →
  substring sentence text.
Proof.
  change (segment_text sent_tokenize (u "zh") text mode_sentence)
    with (stripped_nonempty (split no_flags (plus (CIn (chars "。！？；"))) text)).
  intros Hs. apply stripped_nonempty_spec in Hs as (_ & _ & q & Hq & ->).
  pose proof (split_pieces_in no_flags (plus (CIn (chars "。！？；"))) text) as Hall.
  rewrite Forall_forall in Hall. eapply substring_trans; [apply strip_substring|].
  by apply Hall.
Qed.

(** X29: what a run extracts is made of characters of the allow-list of
    the language ['zh'], whatever the file holds: the description, the
    assignee and the due date of every action item, and, when the
    language is ['zh'], the description and the title of every
    event. *)
Theorem run_outputs_allowed
    (sent_tokenize word_tokenize : str → list str) (jieba_cut : option (str → list str))
    (requests_post : request → post_outcome) (api_key : option str)
    (read_text : str → option str) (docx_paragraphs : str → option (list str))
    (summary_time processing_time file_path language : str) (r : Minutes.result) :
  process_meeting_text sent_tokenize word_tokenize jieba_cut requests_post api_key
    read_text docx_paragraphs summary_time processing_time file_path language = inr r →
  Forall (fun item =>
            Forall (kept (u "zh")) (Todo.description item)
            ∧ Forall (kept (u "zh")) (Todo.assignee item)
            ∧ Forall (kept (u "zh")) (default [] (Todo.due_date item)))
    (Minutes.todo_items r)
  ∧ (language = u "zh" →
     Forall (fun event =>
               Forall (kept (u "zh")) (Timeline.description event)
               ∧ Forall (kept (u "zh")) (Timeline.event event))
       (Minutes.data (Minutes.timeline r))).
Proof.
  intros Hrun. apply process_meeting_text_inv in Hrun
    as (raw_text & summary_data & _ & _ & _ & _ & -> & -> & _).
  unfold text_processor_language. cbn [Minutes.data].
  pose proof (preprocess_text_kept (u "zh") raw_text) as Hclean.
  set (processed_text := preprocess_text (u "zh") raw_text) in *.
  split.
  - apply Forall_forall. intros item Hin.
    apply extract_todo_items_elem in Hin as (pattern & f & _ & Hf & Hitem).
    apply todo_of_match_inv in Hitem as (Hd & _ & Ha & _ & Hdue & _).
    assert (Forall (kept (u "zh")) (Todo.description item)) as Hdesc.
    { rewrite Hd. apply (description_of_Forall _ processed_text); [by vm_compute | done |].
      pose proof (findall_in ignorecase_multiline pattern processed_text) as Hall.
      rewrite Forall_forall in Hall. by apply Hall. }
    split_and!; [done| |].
    + rewrite Ha. eapply substring_Forall; [apply extract_assignee_in | done].
    + destruct (Todo.due_date item) as [due|] eqn:Hdd; [|constructor]. cbn [default].
      symmetry in Hdue. apply extract_due_date_in in Hdue as [Hsub _].
      by eapply substring_Forall.
  - intros ->. apply Forall_forall. intros event Hin.
    apply extract_timeline_data_elem in Hin as (emitted & sentence & Hin & _ & Hevent).
    apply timeline_of_sentence_fields in Hevent as (-> & -> & _).
    apply zh_sentence_in in Hin.
    assert (Forall (kept (u "zh")) sentence) as Hs by by eapply substring_Forall.
    split; [done|]. apply Forall_strip. eapply substring_Forall; [|exact Hs].
    apply prefix_substring, prefix_take.
Qed.

(** On the run on the notes of a meeting. *)
Lemma run_outputs_allowed_witness :
  ∃ r, notes_run = inr r
    ∧ Forall (fun item =>
                Forall (kept (u "zh")) (Todo.description item)
                ∧ Forall (kept (u "zh")) (Todo.assignee item)
                ∧ Forall (kept (u "zh")) (default [] (Todo.due_date item)))
        (Minutes.todo_items r)
    ∧ (u "zh" = u "zh" →
       Forall (fun event =>
                 Forall (kept (u "zh")) (Timeline.description event)
                 ∧ Forall (kept (u "zh")) (Timeline.event event))
         (Minutes.data (Minutes.timeline r))).
Proof.
  assert (∃ r, notes_run = inr r) as [r Hr] by (vm_compute; eexists; reflexivity).
  exists r. split; [exact Hr|].
  exact (run_outputs_allowed sample_tokenize sample_tokenize None sample_post None
           notes_read_text sample_docx _ _ _ _ r Hr).
Defined.

(** *** Labelled lines in a text of one line *)

Lemma line_feed_only (fl : flags) (c : cp) : c ≠ 10 → cset_match fl (CLit 10) c = false.
Proof.
  intros Hc. cbn [cset_match]. destruct (IGNORECASE fl); [|by apply N.eqb_neq].
  apply N.eqb_neq. unfold fold_cp, lower_cp.
  repeat match goal with |- context [if ?b then _ else _] => destruct b eqn:? end;
    try done; cbn; lia.
Qed.

(** [(?=\n|$)] in a text without line feed holds at the end only. *)
Lemma lookahead_end {A : Set} (fl : flags) (prev : option cp) (s : str) (g : groups)
    (k : option cp → str → groups → option A) (x : A) :
  Forall (fun c => c ≠ 10) s →
  rmatch fl (RLookahead (RAlt (RChar (CLit 10)) REnd)) prev s g k = Some x →
  s = [] ∧ k prev [] g = Some x.
Proof.
  intros Hs. destruct Hs as [|c s Hc _]; cbn [rmatch at_end].
  - by destruct (MULTILINE fl).
  - rewrite (line_feed_only fl c Hc). by apply N.eqb_neq in Hc as ->.
Qed.

Lemma rmatch_seq {A : Set} (fl : flags) (a b : regex) (prev : option cp) (s : str)
    (g : groups) (k : option cp → str → groups → option A) :
  rmatch fl (RSeq a b) prev s g k
  = rmatch fl a prev s g (fun p' s' g' => rmatch fl b p' s' g' k).
Proof. done. Qed.

Lemma rmatch_group {A : Set} (fl : flags) (n : nat) (a : regex) (prev : option cp) (s : str)
    (g : groups) (k : option cp → str → groups → option A) :
  rmatch fl (RGroup n a) prev s g k
  = rmatch fl a prev s g
      (fun p' s' g' => k p' s' (<[Nat.pred n := Some (take (length s - length s') s)]> g')).
Proof. done. Qed.

(** In a text without line feed, a labelled line runs to the end of the
    text: its group captures all that follows the label. *)
Lemma section_line_capture (fl : flags) (label : regex) (must_advance : bool)
    (prev : option cp) (s : str) (n : nat) (m : match_obj) :
  group_free label = true → Forall (fun c => c ≠ 10) s →
  match_here fl (section_line label) must_advance prev s = Some (n, m) →
  n = length s ∧ ∃ t, m_groups m = [Some t] ∧ t `suffix_of` s.
Proof.
  intros Hlabel Hs. unfold match_here.
  rewrite (section_line_ngroups label (group_free_ngroups label Hlabel)).
  change (section_line label)
    with (RSeq label (RSeq (RChar (CIn (chars ":："))) (RSeq spaces
            (RSeq (RGroup 1 (lazy_plus CAny))
                  (RLookahead (RAlt (RChar (CLit 10)) REnd)))))).
  cbn [replicate]. intros H.
  rewrite rmatch_seq in H.
  apply (rmatch_group_free fl label Hlabel) in H as (p1 & s1 & Hs1 & H).
  rewrite rmatch_seq in H.
  apply (rmatch_group_free fl (RChar (CIn (chars ":："))) eq_refl) in H as (p2 & s2 & Hs2 & H).
  rewrite rmatch_seq in H.
  apply (rmatch_group_free fl spaces eq_refl) in H as (p3 & s3 & Hs3 & H).
  rewrite rmatch_seq, rmatch_group in H.
  apply (rmatch_group_free fl (lazy_plus CAny) eq_refl) in H as (p4 & s4 & Hs4 & H).
  assert (s3 `suffix_of` s) as Hs3' by (etrans; [exact Hs3|]; by etrans).
  apply lookahead_end in H as [-> H].
  2:{ destruct Hs4 as [k4 ->]. destruct Hs3' as [k3 ->].
      apply Forall_app in Hs as [_ Hs]. by apply Forall_app in Hs as [_ Hs]. }
  cbv zeta in H. destruct (must_advance && _); [done|]. injection H as <- <-.
  cbn [length m_groups]. split; [lia|].
  exists s3. split; [|done]. by rewrite Nat.sub_0_r, firstn_all.
Qed.

Lemma section_line_nil (fl : flags) (label : regex) (must_advance : bool) (prev : option cp) :
  group_free label = true → match_here fl (section_line label) must_advance prev [] = None.
Proof.
  intros Hlabel. unfold match_here.
  change (section_line label)
    with (RSeq label (RSeq (RChar (CIn (chars ":："))) (RSeq spaces
            (RSeq (RGroup 1 (lazy_plus CAny))
                  (RLookahead (RAlt (RChar (CLit 10)) REnd)))))).
  rewrite rmatch_seq.
  destruct (rmatch fl label prev [] _ _) as [x|] eqn:H; [|done].
  apply (rmatch_group_free fl label Hlabel) in H as (p1 & s1 & Hs1 & H).
  apply suffix_nil_inv in Hs1 as ->. done.
Qed.

(** Stepping over all that is left ends the scan. *)
Lemma scan_skip_all (fl : flags) (r : regex) :
  (∀ prev, match_here fl r false prev [] = None) →
  ∀ (s : str) (prev : option cp) (skip : nat) (gap : str),
  (length s ≤ skip)%nat → scan fl r s prev skip gap = ([], rev gap).
Proof.
  intros Hnil. induction s as [|c s IH]; intros prev skip gap Hskip.
  - destruct skip; cbn [scan]; [by rewrite Hnil | done].
  - destruct skip as [|skip]; [simpl in Hskip; lia|]. cbn [scan]. apply IH.
    simpl in Hskip. lia.
Qed.

(** When every match runs to the end of the text, the scanner finds one
    match at most. *)
Lemma scan_to_the_end (fl : flags) (r : regex) (Q : str → match_obj → Prop) :
  (∀ prev, match_here fl r false prev [] = None) →
  ∀ (s : str) (prev : option cp) (gap : str) (ms : list (str * match_obj)) (tl : str),
  (∀ prev' s' n m, s' `suffix_of` s → match_here fl r false prev' s' = Some (n, m) →
                   n = length s' ∧ Q s' m) →
  scan fl r s prev O gap = (ms, tl) →
  (length ms ≤ 1)%nat ∧ Forall (fun gm => ∃ s', s' `suffix_of` s ∧ Q s' gm.2) ms.
Proof.
  intros Hnil. induction s as [|c s IH]; intros prev gap ms tl Hall H; cbn [scan] in H.
  - rewrite Hnil in H. injection H as <- <-. split; [simpl; lia | constructor].
  - destruct (match_here fl r false prev (c :: s)) as [[[|n] m]|] eqn:Hm.
    + apply Hall in Hm as [Hn _]; [done|done].
    + pose proof (Hall _ _ _ _ (reflexivity _) Hm) as [Hn HQ].
      rewrite (scan_skip_all fl r Hnil) in H by (simpl in Hn; lia).
      injection H as <- <-. split; [simpl; lia|].
      apply Forall_singleton. by exists (c :: s).
    + apply IH in H as [Hlen HQ].
      * split; [done|]. eapply Forall_impl; [exact HQ|].
        intros gm (s' & Hs' & Hgm). exists s'. split; [by apply suffix_cons_r | done].
      * intros prev' s' n m Hs'. apply Hall. by apply suffix_cons_r.
Qed.


